(** * MarketSim: the matching engine, the tick loop and trader evolution

    A shallow embedding of [src/market.cpp] and of the headers it relies on
    ([headers/order.hpp], [headers/market.hpp], [traders/base.hpp],
    [makers/MarketMaker.hpp]), followed by the properties of the order book,
    of the matching loop, of the ledger, of the tick and of the evolution
    step.

    Conventions of the embedding.
    - A C++ [double] is a binary64 float of the kernel ([PrimFloat.float]),
      so comparisons and arithmetic are the IEEE ones of the program.
    - A C++ [int] is a [Z]: signed overflow is undefined in C++, and the
      clock and the ids of a run stay far from the bounds. The one place
      where a [double] becomes an [int] checks the range ([round_to_int]).
    - A [std::string] is a [string]; a [std::queue] is a list whose head is
      the front; a [std::map] keyed by price is the list of its levels in
      iteration order, so [begin()] is the head. (A NaN key breaks the
      ordering [std::map] requires; nothing below depends on how the levels
      are ordered.)
    - A [std::shared_ptr<Trader>] is an index into a store of trader
      objects ([heap]); the roster and the id-keyed map hold such indices,
      so a ledger write through the map is seen through the roster.
    - What C++ leaves undefined (the front of an empty queue or vector, a
      remainder by zero, a [double] that does not fit an [int]) is a result
      of its own, [Undefined].
    - [std::sort] and the decisions of the traders ([make_order], which
      draws from the shared random generator) are parameters.
    - File and console output is left out: nothing reads it back. Members
      of [Market] that no modelled function reads or writes
      ([trader_counts], [market_maker_map]) are left out too. *)

From Stdlib Require Import Floats ZArith String.
From stdpp Require Import gmap strings list.

Local Open Scope Z_scope.

(** ** Data model *)

Abbreviation double := float.

Definition BUY : string := "BUY".
Definition SELL : string := "SELL".
Definition HOLD : string := "HOLD".
Definition MarketMaker_t : string := "MarketMaker".
Definition Monkey_t : string := "Monkey".
Definition MeanReverter_t : string := "MeanReverter".
Definition MomentumTrader_t : string := "MomentumTrader".

(** [std::numeric_limits<double>::max()]. *)
Definition DBL_MAX : double := 0x1.fffffffffffffp+1023%float.

Definition INT_MIN : Z := - 2 ^ 31.
Definition INT_MAX : Z := 2 ^ 31 - 1.

Module Order.
Record t : Set := mk {
  type : string;
  price : double;
  trader_id : Z;
  timestep : Z;
  trader_type : string;
  position_size : double
}.

Definition with_position_size (o : t) (q : double) : t :=
  mk (type o) (price o) (trader_id o) (timestep o) (trader_type o) q.
End Order.

Module Trade.
Record t : Set := mk {
  price : double;
  quantity : double;
  buyer_id : Z;
  seller_id : Z;
  timestep : Z;
  buyer_type : string;
  seller_type : string
}.
End Trade.

Module MarketTick.
Record t : Set := mk {
  last_price : double;
  volume : double;
  vwap : double;
  mid_price : double;
  timestep : Z
}.
End MarketTick.

Inductive BetSizer : Set :=
| Fractional (fraction min_bet : double)
| Kelly (kelly_fraction min_bet : double).

(** The three concrete trader classes with their own members.

    Modelled from the spec: [traders/MeanReverter.hpp] is not among the
    sources. Its constructor arguments and getters are the ones
    [Market::evolve_traders] and [init_traders] call, and its type label is
    the ["MeanReverter"] those functions compare against. *)
Inductive TraderClass : Set :=
| MonkeyTrader (noise_weight : double)
| MeanReverter (short_ma_window long_ma_window : Z)
| MomentumTrader (short_ma_window long_ma_window : Z).

Module Trader.
Record t : Set := mk {
  trader_id : Z;
  cash : double;
  position : double;
  betsizer : BetSizer;
  class : TraderClass
}.

Definition get_id (tr : t) : Z := trader_id tr.

Definition get_type (tr : t) : string :=
  match class tr with
  | MonkeyTrader _ => Monkey_t
  | MeanReverter _ _ => MeanReverter_t
  | MomentumTrader _ _ => MomentumTrader_t
  end.

Definition get_sizer (tr : t) : BetSizer := betsizer tr.

(** [Trader::update_position]. *)
Definition update_position (type : string) (price quantity : double) (tr : t) : t :=
  if String.eqb type BUY
  then mk (trader_id tr) (cash tr - price)%float (position tr + quantity)%float
          (betsizer tr) (class tr)
  else mk (trader_id tr) (cash tr + price)%float (position tr - quantity)%float
          (betsizer tr) (class tr).

(** [Trader::get_value]. *)
Definition get_value (market_price : double) (tr : t) : double :=
  (position tr * market_price + cash tr)%float.

(** A freshly constructed trader: the default member initialisers give
    [cash = 100000] and [position = 10]. *)
Definition fresh (id : Z) (sizer : BetSizer) (c : TraderClass) : t :=
  mk id 100000%float 10%float sizer c.
End Trader.

Module MarketMaker.
Record t : Set := mk {
  id : Z;
  fundamental_price : double;
  spread : double
}.

(** [MarketMaker::quote]: a bid and an ask around the current price. *)
Definition quote (mm : t) (current_market_price : double) : list Order.t :=
  let fair_value := current_market_price in
  let noise := 0%float in
  let bid := (fair_value - spread mm / 2 + noise)%float in
  let ask := (fair_value + spread mm / 2 + noise)%float in
  let size := 10%float in
  [ Order.mk BUY bid (id mm) 0 MarketMaker_t size;
    Order.mk SELL ask (id mm) 0 MarketMaker_t size ].
End MarketMaker.

(** A pointer to a trader object. *)
Abbreviation ptr := nat.

(** One side of the book: the price levels in the order the map iterates
    them, each with its queue. *)
Abbreviation Book := (list (double * list Order.t)).

Record Market : Type := mkMarket {
  timestep : Z;
  market_price : double;
  evolution_ticks : Z;
  evolve : bool;
  kill_percentage : double;
  write_every : Z;
  max_order_age : Z;
  trader_volume : gmap string double;
  total_trade_volume : double;
  total_price_volume : double;
  heap : list Trader.t;
  traders : list ptr;
  market_makers : list MarketMaker.t;
  buys : Book;
  sells : Book;
  trade_history : list Trade.t;
  tick_history : list MarketTick.t;
  trader_map : gmap Z ptr
}.

Definition set_buys (st : Market) (b : Book) : Market :=
  mkMarket (timestep st) (market_price st) (evolution_ticks st) (evolve st)
    (kill_percentage st) (write_every st) (max_order_age st) (trader_volume st)
    (total_trade_volume st) (total_price_volume st) (heap st) (traders st)
    (market_makers st) b (sells st) (trade_history st) (tick_history st)
    (trader_map st).

Definition set_sells (st : Market) (s : Book) : Market :=
  mkMarket (timestep st) (market_price st) (evolution_ticks st) (evolve st)
    (kill_percentage st) (write_every st) (max_order_age st) (trader_volume st)
    (total_trade_volume st) (total_price_volume st) (heap st) (traders st)
    (market_makers st) (buys st) s (trade_history st) (tick_history st)
    (trader_map st).

(** What one executed trade writes besides the book: the per-type and
    per-tick volumes, the ledgers, the trade history and the market price. *)
Definition set_trade_effects (st : Market) (tv : gmap string double)
    (ttv tpv : double) (h : list Trader.t) (th : list Trade.t) (mp : double) : Market :=
  mkMarket (timestep st) mp (evolution_ticks st) (evolve st)
    (kill_percentage st) (write_every st) (max_order_age st) tv
    ttv tpv h (traders st)
    (market_makers st) (buys st) (sells st) th (tick_history st)
    (trader_map st).

(** The result of running a piece of the program: a value, undefined
    behaviour of the C++ (front of an empty queue, division by zero, ...),
    or a loop cut off by the fuel of the model. *)
Inductive outcome (A : Type) : Type :=
| Ok (a : A)
| Undefined
| OutOfFuel.
Arguments Ok {A} a.
Arguments Undefined {A}.
Arguments OutOfFuel {A}.

Definition obind {A B : Type} (x : outcome A) (f : A → outcome B) : outcome B :=
  match x with
  | Ok a => f a
  | Undefined => Undefined
  | OutOfFuel => OutOfFuel
  end.

Notation "x ←! e1 ; e2" := (obind e1 (λ x, e2))
  (at level 20, e1 at level 100, e2 at level 200, right associativity,
   format "x  ←!  e1 ;  '/' e2").

(** ** The order book *)

(** [std::less<double>] orders the asks, [std::greater<double>] the bids. *)
Definition less (a b : double) : bool := (a <? b)%float.
Definition greater (a b : double) : bool := (b <? a)%float.

(** [std::min(a, b)] is [(b < a) ? b : a]. *)
Definition std_min (a b : double) : double := if (b <? a)%float then b else a.

(** [m[o.price].push(o)]: the level whose key is equivalent to the price is
    found or created at its place in the order [comp], and the order goes to
    the back of its queue. *)
Fixpoint level_push (comp : double → double → bool) (o : Order.t) (m : Book) : Book :=
  match m with
  | [] => [(Order.price o, [o])]
  | (k, q) :: rest =>
      if comp (Order.price o) k then (Order.price o, [o]) :: (k, q) :: rest
      else if comp k (Order.price o) then (k, q) :: level_push comp o rest
      else (k, q ++ [o]) :: rest
  end.

(** [it->second.pop(); if (it->second.empty()) m.erase(it);] at
    [it = m.begin()], with the front queue already split into its front
    order and the rest [q]. *)
Definition pop_front (k : double) (q : list Order.t) (rest : Book) : Book :=
  match q with
  | [] => rest
  | _ :: _ => (k, q) :: rest
  end.

(** [Market::get_best_bid] and [Market::get_best_ask]. *)
Definition get_best_bid (st : Market) : double :=
  match buys st with
  | [] => 0%float
  | (k, _) :: _ => k
  end.

Definition get_best_ask (st : Market) : double :=
  match sells st with
  | [] => DBL_MAX
  | (k, _) :: _ => k
  end.

(** ** The matching engine *)

(** [trader_volume[type] += quantity] on an [unordered_map]: a missing key
    starts from [0.0]. *)
Definition add_volume (tv : gmap string double) (type : string) (quantity : double)
    : gmap string double :=
  <[type := (default 0%float (tv !! type) + quantity)%float]> tv.

(** [it = trader_map.find(id); if (it != end) it->second->update_position(..)]. *)
Definition ledger_update (tm : gmap Z ptr) (id : Z) (type : string)
    (price quantity : double) (h : list Trader.t) : list Trader.t :=
  match tm !! id with
  | Some p => alter (Trader.update_position type price quantity) p h
  | None => h
  end.

(** The state written by one trade between [buyer] and [seller] at
    [trade_price] for [quantity]; [order] is the order the call was made
    with (its type label indexes the volume table). *)
Definition execute_trade (order buyer seller : Order.t) (trade_price quantity : double)
    (st : Market) : Market :=
  let h1 := ledger_update (trader_map st) (Order.trader_id buyer) BUY
              trade_price quantity (heap st) in
  let h2 := ledger_update (trader_map st) (Order.trader_id seller) SELL
              trade_price quantity h1 in
  let trade := Trade.mk trade_price quantity (Order.trader_id buyer)
                 (Order.trader_id seller) (timestep st)
                 (Order.trader_type buyer) (Order.trader_type seller) in
  set_trade_effects st
    (add_volume (trader_volume st) (Order.trader_type order) quantity)
    (total_trade_volume st + quantity)%float
    (total_price_volume st + trade_price * quantity)%float
    h2 (trade_history st ++ [trade]) trade_price.

(** The loop tests of the two branches. *)
Definition buy_cond (st : Market) (remaining_order : Order.t) : bool :=
  match sells st with
  | [] => false
  | (k, _) :: _ =>
      (k <=? Order.price remaining_order)%float
      && (0 <? Order.position_size remaining_order)%float
  end.

Definition sell_cond (st : Market) (remaining_order : Order.t) : bool :=
  match buys st with
  | [] => false
  | (k, _) :: _ =>
      (Order.price remaining_order <=? k)%float
      && (0 <? Order.position_size remaining_order)%float
  end.

(** One iteration of the loop of the BUY branch, entered with the test
    true. The front of an empty queue is undefined. *)
Definition buy_step (order : Order.t) (st : Market) (remaining_order : Order.t)
    : outcome (Market * Order.t) :=
  match sells st with
  | [] => Undefined
  | (_, []) :: _ => Undefined
  | (k, sell_order :: q) :: rest =>
      if Order.trader_id remaining_order =? Order.trader_id sell_order then
        Ok (set_sells st (pop_front k q rest), remaining_order)
      else if timestep st - Order.timestep sell_order >? max_order_age st then
        Ok (set_sells st (pop_front k q rest), remaining_order)
      else
        let trade_price := Order.price sell_order in
        let quantity := std_min (Order.position_size remaining_order)
                          (Order.position_size sell_order) in
        let st1 := execute_trade order remaining_order sell_order trade_price quantity st in
        let sell_order' := Order.with_position_size sell_order
                             (Order.position_size sell_order - quantity)%float in
        let remaining' := Order.with_position_size remaining_order
                            (Order.position_size remaining_order - quantity)%float in
        let popped := pop_front k q rest in
        Ok (set_sells st1
              (if (0 <? Order.position_size sell_order')%float
               then level_push less sell_order' popped else popped),
            remaining')
  end.

(** One iteration of the loop of the SELL branch. *)
Definition sell_step (order : Order.t) (st : Market) (remaining_order : Order.t)
    : outcome (Market * Order.t) :=
  match buys st with
  | [] => Undefined
  | (_, []) :: _ => Undefined
  | (k, buy_order :: q) :: rest =>
      if Order.trader_id remaining_order =? Order.trader_id buy_order then
        Ok (set_buys st (pop_front k q rest), remaining_order)
      else if timestep st - Order.timestep buy_order >? max_order_age st then
        Ok (set_buys st (pop_front k q rest), remaining_order)
      else
        let trade_price := Order.price buy_order in
        let quantity := std_min (Order.position_size remaining_order)
                          (Order.position_size buy_order) in
        let st1 := execute_trade order buy_order remaining_order trade_price quantity st in
        let buy_order' := Order.with_position_size buy_order
                            (Order.position_size buy_order - quantity)%float in
        let remaining' := Order.with_position_size remaining_order
                            (Order.position_size remaining_order - quantity)%float in
        let popped := pop_front k q rest in
        Ok (set_buys st1
              (if (0 <? Order.position_size buy_order')%float
               then level_push greater buy_order' popped else popped),
            remaining')
  end.

(** The [while] loops, cut off after [fuel] iterations. *)
Fixpoint buy_loop (fuel : nat) (order : Order.t) (st : Market) (remaining_order : Order.t)
    : outcome (Market * Order.t) :=
  if buy_cond st remaining_order then
    match fuel with
    | O => OutOfFuel
    | S fuel' =>
        r ←! buy_step order st remaining_order;
        buy_loop fuel' order r.1 r.2
    end
  else Ok (st, remaining_order).

Fixpoint sell_loop (fuel : nat) (order : Order.t) (st : Market) (remaining_order : Order.t)
    : outcome (Market * Order.t) :=
  if sell_cond st remaining_order then
    match fuel with
    | O => OutOfFuel
    | S fuel' =>
        r ←! sell_step order st remaining_order;
        sell_loop fuel' order r.1 r.2
    end
  else Ok (st, remaining_order).

(** The resting orders of one side, level by level. *)
Definition book_orders (m : Book) : list Order.t := concat (m.*2).

(** [Market::process_aggressive_order]. Each iteration that does not end
    the loop removes a resting order for good, so one more iteration than
    there are resting orders on the opposite side is enough
    ([buy_loop_spec], [sell_loop_spec]). *)
Definition process_aggressive_order (st : Market) (order : Order.t) : outcome Market :=
  if String.eqb (Order.type order) BUY then
    r ←! buy_loop (S (length (book_orders (sells st)))) order st order;
    let '(st', remaining_order) := r in
    Ok (if (0 <? Order.position_size remaining_order)%float
        then set_buys st' (level_push greater remaining_order (buys st'))
        else st')
  else if String.eqb (Order.type order) SELL then
    r ←! sell_loop (S (length (book_orders (buys st)))) order st order;
    let '(st', remaining_order) := r in
    Ok (if (0 <? Order.position_size remaining_order)%float
        then set_sells st' (level_push less remaining_order (sells st'))
        else st')
  else Ok st.

(** [Market::clear_market_maker_orders]: every queue is rebuilt without the
    orders labelled ["MarketMaker"], and a level left empty is erased. *)
Definition not_market_maker (o : Order.t) : bool :=
  negb (String.eqb (Order.trader_type o) MarketMaker_t).

Fixpoint remove_mm_orders (orders : Book) : Book :=
  match orders with
  | [] => []
  | (k, q) :: rest =>
      match List.filter not_market_maker q with
      | [] => remove_mm_orders rest
      | filtered => (k, filtered) :: remove_mm_orders rest
      end
  end.

Definition clear_market_maker_orders (st : Market) : Market :=
  set_sells (set_buys st (remove_mm_orders (buys st))) (remove_mm_orders (sells st)).

(** ** Population evolution *)

#[global] Instance Trader_inhabited : Inhabited Trader.t :=
  populate (Trader.fresh 0 (Fractional 0 0) (MonkeyTrader 0)).

Definition set_roster (st : Market) (h : list Trader.t) (r : list ptr)
    (tm : gmap Z ptr) : Market :=
  mkMarket (timestep st) (market_price st) (evolution_ticks st) (evolve st)
    (kill_percentage st) (write_every st) (max_order_age st) (trader_volume st)
    (total_trade_volume st) (total_price_volume st) h r
    (market_makers st) (buys st) (sells st) (trade_history st) (tick_history st)
    tm.

(** The conversion of a container size to [double] (round to nearest). *)
Definition size_to_double (n : nat) : double :=
  SF2Prim (binary_normalize prec emax (Z.of_nat n) 0 false).

(** [int k = std::round(x)]: [std::round] rounds halfway cases away from
    zero, and the conversion of its result to [int] is undefined when the
    value is not finite or does not fit. *)
Definition round_to_int (x : double) : option Z :=
  match Prim2SF x with
  | S754_zero _ => Some 0
  | S754_finite s m e =>
      let mag :=
        if 0 <=? e then Z.pos m * 2 ^ e
        else
          let d := 2 ^ (- e) in
          let q := Z.pos m `div` d in
          if d <=? 2 * (Z.pos m `mod` d) then q + 1 else q in
      let v := if s then - mag else mag in
      if (INT_MIN <=? v) && (v <=? INT_MAX) then Some v else None
  | _ => None
  end.

Definition is_trader_type (type : string) : bool :=
  String.eqb type Monkey_t || String.eqb type MeanReverter_t
  || String.eqb type MomentumTrader_t.

(** The first loop of [evolve_traders]: walking the ranking from the best,
    the first trader of each type is recorded, until three are. *)
Fixpoint find_survivors (h : list Trader.t) (sorted : list ptr)
    (survivor_ids : gmap string Z) : gmap string Z :=
  match sorted with
  | [] => survivor_ids
  | p :: rest =>
      let type := Trader.get_type (h !!! p) in
      if is_trader_type type && bool_decide (survivor_ids !! type = None) then
        let survivor_ids' := <[type := Trader.get_id (h !!! p)]> survivor_ids in
        if bool_decide (size survivor_ids' = 3%nat) then survivor_ids'
        else find_survivors h rest survivor_ids'
      else find_survivors h rest survivor_ids
  end.

(** The second loop: walking the ranking from the worst ([worst_first] is
    the ranking reversed) while [killed < kill_count], every trader that is
    not a recorded survivor is marked. *)
Fixpoint mark_kills (h : list Trader.t) (survivor_ids : gmap string Z)
    (kill_count : Z) (worst_first : list ptr) (killed : Z) : list Z :=
  match worst_first with
  | [] => []
  | p :: rest =>
      if killed <? kill_count then
        let id := Trader.get_id (h !!! p) in
        let type := Trader.get_type (h !!! p) in
        if bool_decide (survivor_ids !! type = Some id)
        then mark_kills h survivor_ids kill_count rest killed
        else id :: mark_kills h survivor_ids kill_count rest (killed + 1)
      else []
  end.

(** The replacement built from the best trader [top] for the id [id]. The
    three branches cover every class, so the new pointer is never null. *)
Definition clone (top : Trader.t) (id : Z) : Trader.t :=
  match Trader.class top with
  | MonkeyTrader w => Trader.fresh id (Trader.get_sizer top) (MonkeyTrader w)
  | MeanReverter s l => Trader.fresh id (Trader.get_sizer top) (MeanReverter s l)
  | MomentumTrader s l => Trader.fresh id (Trader.get_sizer top) (MomentumTrader s l)
  end.

(** [for (auto& trader : traders) if (trader->get_id() == id)
    { trader = new_trader; break; }]. *)
Fixpoint replace_first (h : list Trader.t) (id : Z) (new_trader : ptr)
    (roster : list ptr) : list ptr :=
  match roster with
  | [] => []
  | p :: rest =>
      if Trader.get_id (h !!! p) =? id then new_trader :: rest
      else p :: replace_first h id new_trader rest
  end.

(** The body of the last loop for one marked id: the clone is allocated,
    stored under the id in the map, and written over the first roster entry
    with that id. *)
Definition replace_trader (top : ptr) (st : Market) (id : Z) : Market :=
  let new_trader := length (heap st) in
  let h := heap st ++ [clone (heap st !!! top) id] in
  set_roster st h (replace_first h id new_trader (traders st))
    (<[id := new_trader]> (trader_map st)).

Section Evolution.
(** [std::sort] does not fix the order of elements that compare equal,
    so the ranking is whatever the sort at hand returns. *)
Variable std_sort : (ptr → ptr → bool) → list ptr → list ptr.

(** The ranking [evolve_traders] works on: the roster sorted by value,
    best first. *)
Definition ranking (st : Market) : list ptr :=
  std_sort (λ a b, greater (Trader.get_value (market_price st) (heap st !!! a))
                           (Trader.get_value (market_price st) (heap st !!! b)))
           (traders st).

(** [Market::evolve_traders] (the census written at its end is output
    only). *)
Definition evolve_traders (st : Market) : outcome Market :=
  if evolution_ticks st =? 0 then Undefined
  else if negb (Z.rem (timestep st) (evolution_ticks st) =? 0) then Ok st
  else
    let h := heap st in
    let sorted := ranking st in
    match round_to_int (size_to_double (length sorted) * kill_percentage st)%float with
    | None => Undefined
    | Some kill_count =>
        let survivor_ids := find_survivors h sorted ∅ in
        let to_kill := mark_kills h survivor_ids kill_count (reverse sorted) 0 in
        match sorted with
        | [] => Undefined
        | top :: _ => Ok (foldl (replace_trader top) st to_kill)
        end
    end.
End Evolution.

(** A sort to run the model with: insertion sort, one of the results
    [std::sort] may give. *)
Fixpoint insert_sorted (comp : ptr → ptr → bool) (x : ptr) (l : list ptr) : list ptr :=
  match l with
  | [] => [x]
  | y :: l' => if comp y x then y :: insert_sorted comp x l' else x :: y :: l'
  end.

Definition insertion_sort (comp : ptr → ptr → bool) (l : list ptr) : list ptr :=
  foldr (insert_sorted comp) [] l.

(** ** The tick *)

Definition reset_tick_volumes (st : Market) : Market :=
  mkMarket (timestep st) (market_price st) (evolution_ticks st) (evolve st)
    (kill_percentage st) (write_every st) (max_order_age st) ∅
    0%float 0%float (heap st) (traders st)
    (market_makers st) (buys st) (sells st) (trade_history st) (tick_history st)
    (trader_map st).

Definition set_timestep (st : Market) (t : Z) : Market :=
  mkMarket t (market_price st) (evolution_ticks st) (evolve st)
    (kill_percentage st) (write_every st) (max_order_age st) (trader_volume st)
    (total_trade_volume st) (total_price_volume st) (heap st) (traders st)
    (market_makers st) (buys st) (sells st) (trade_history st) (tick_history st)
    (trader_map st).

Definition set_tick_history (st : Market) (th : list MarketTick.t) : Market :=
  mkMarket (timestep st) (market_price st) (evolution_ticks st) (evolve st)
    (kill_percentage st) (write_every st) (max_order_age st) (trader_volume st)
    (total_trade_volume st) (total_price_volume st) (heap st) (traders st)
    (market_makers st) (buys st) (sells st) (trade_history st) th
    (trader_map st).

(** The orders of a list submitted one after the other. *)
Fixpoint process_orders_of (st : Market) (orders : list Order.t) : outcome Market :=
  match orders with
  | [] => Ok st
  | o :: rest =>
      st' ←! process_aggressive_order st o;
      process_orders_of st' rest
  end.

(** The first loop of [tick]: every market maker quotes around the market
    price of the moment and both its orders are submitted. *)
Fixpoint quote_all (mms : list MarketMaker.t) (st : Market) : outcome Market :=
  match mms with
  | [] => Ok st
  | mm :: rest =>
      st' ←! process_orders_of st (MarketMaker.quote mm (market_price st));
      quote_all rest st'
  end.

(** The snapshot [tick] appends, read off the state at the end of the
    tick. *)
Definition tick_snapshot (st : Market) : MarketTick.t :=
  let tick_vwap :=
    if (0 <? total_trade_volume st)%float
    then (total_price_volume st / total_trade_volume st)%float
    else market_price st in
  let best_bid := get_best_bid st in
  let best_ask := get_best_ask st in
  let mid_price := ((best_bid + best_ask) / 2)%float in
  MarketTick.mk (market_price st) (total_trade_volume st) tick_vwap mid_price
    (timestep st).

Section Tick.
Variable std_sort : (ptr → ptr → bool) → list ptr → list ptr.

(** The state of the shared random generator, and the decision of a
    trader: [Trader::make_order] of its class, which reads the trader and
    its arguments and draws from the generator. *)
Variable Gen : Type.
Variable make_order :
  Trader.t → double → double → double → list MarketTick.t → Z → Gen → Order.t * Gen.

(** The second loop of [tick]: every trader of the roster decides on the
    state of the moment and its order is submitted. *)
Fixpoint trade_all (roster : list ptr) (st : Market) (g : Gen) : outcome (Market * Gen) :=
  match roster with
  | [] => Ok (st, g)
  | p :: rest =>
      let r := make_order (heap st !!! p) (market_price st) (get_best_bid st)
                 (get_best_ask st) (tick_history st) (timestep st) g in
      st' ←! process_aggressive_order st r.1;
      trade_all rest st' r.2
  end.

(** [Market::tick]. [timestep % write_every] is undefined for
    [write_every = 0]; what [write_tick] prints is output only. *)
Definition tick (st : Market) (g : Gen) : outcome (Market * Gen) :=
  let st0 := reset_tick_volumes (clear_market_maker_orders st) in
  st1 ←! quote_all (market_makers st0) st0;
  r ←! trade_all (traders st1) st1 g;
  let st2 := set_timestep r.1 (timestep r.1 + 1) in
  st3 ←! (if evolve st2 then evolve_traders std_sort st2 else Ok st2);
  if write_every st3 =? 0 then Undefined
  else Ok (set_tick_history st3 (tick_history st3 ++ [tick_snapshot st3]), r.2).

(** The loop of [main]: [n] ticks in a row. *)
Fixpoint run_ticks (n : nat) (st : Market) (g : Gen) : outcome (Market * Gen) :=
  match n with
  | O => Ok (st, g)
  | S n' =>
      r ←! tick st g;
      run_ticks n' r.1 r.2
  end.
End Tick.

(** ** Predicates of the statements *)

(** No level of a side has an empty queue. *)
Definition no_empty_levels (m : Book) : Prop := Forall (λ l, l.2 ≠ []) m.

Definition book_clean (st : Market) : Prop :=
  no_empty_levels (buys st) ∧ no_empty_levels (sells st).

(** [r'] is the order [r] with some of its quantity filled. *)
Definition fill_of (r r' : Order.t) : Prop :=
  r' = Order.with_position_size r (Order.position_size r').

(** The trade [t] of a call with the BUY order [order] in the state [st0]:
    its maker [r] rested on the ask side, is owned by somebody else and is
    not stale, and the trade carries the maker's price. *)
Definition buy_match (st0 : Market) (order : Order.t) (t : Trade.t) : Prop :=
  ∃ r, r ∈ book_orders (sells st0)
    ∧ Trade.price t = Order.price r
    ∧ Trade.seller_id t = Order.trader_id r
    ∧ Trade.seller_type t = Order.trader_type r
    ∧ Trade.buyer_id t = Order.trader_id order
    ∧ Trade.buyer_type t = Order.trader_type order
    ∧ Trade.timestep t = timestep st0
    ∧ Order.trader_id order ≠ Order.trader_id r
    ∧ timestep st0 - Order.timestep r ≤ max_order_age st0.

(** The same for a SELL order, whose makers rest on the bid side. *)
Definition sell_match (st0 : Market) (order : Order.t) (t : Trade.t) : Prop :=
  ∃ r, r ∈ book_orders (buys st0)
    ∧ Trade.price t = Order.price r
    ∧ Trade.buyer_id t = Order.trader_id r
    ∧ Trade.buyer_type t = Order.trader_type r
    ∧ Trade.seller_id t = Order.trader_id order
    ∧ Trade.seller_type t = Order.trader_type order
    ∧ Trade.timestep t = timestep st0
    ∧ Order.trader_id order ≠ Order.trader_id r
    ∧ timestep st0 - Order.timestep r ≤ max_order_age st0.

(** The two ways an iteration of the BUY loop goes: the front order of the
    best ask level is dropped, or it is traded with. *)
Inductive buy_step_spec (order : Order.t) (st : Market) (rem : Order.t)
    : Market * Order.t → Prop :=
| buy_step_discard k so q rest :
    sells st = (k, so :: q) :: rest →
    Order.trader_id rem = Order.trader_id so
      ∨ max_order_age st < timestep st - Order.timestep so →
    buy_step_spec order st rem (set_sells st (pop_front k q rest), rem)
| buy_step_trade k so q rest quantity :
    sells st = (k, so :: q) :: rest →
    Order.trader_id rem ≠ Order.trader_id so →
    timestep st - Order.timestep so ≤ max_order_age st →
    quantity = std_min (Order.position_size rem) (Order.position_size so) →
    buy_step_spec order st rem
      (set_sells (execute_trade order rem so (Order.price so) quantity st)
         (if (0 <? Order.position_size so - quantity)%float
          then level_push less
                 (Order.with_position_size so (Order.position_size so - quantity)%float)
                 (pop_front k q rest)
          else pop_front k q rest),
       Order.with_position_size rem (Order.position_size rem - quantity)%float).

Inductive sell_step_spec (order : Order.t) (st : Market) (rem : Order.t)
    : Market * Order.t → Prop :=
| sell_step_discard k bo q rest :
    buys st = (k, bo :: q) :: rest →
    Order.trader_id rem = Order.trader_id bo
      ∨ max_order_age st < timestep st - Order.timestep bo →
    sell_step_spec order st rem (set_buys st (pop_front k q rest), rem)
| sell_step_trade k bo q rest quantity :
    buys st = (k, bo :: q) :: rest →
    Order.trader_id rem ≠ Order.trader_id bo →
    timestep st - Order.timestep bo ≤ max_order_age st →
    quantity = std_min (Order.position_size rem) (Order.position_size bo) →
    sell_step_spec order st rem
      (set_buys (execute_trade order bo rem (Order.price bo) quantity st)
         (if (0 <? Order.position_size bo - quantity)%float
          then level_push greater
                 (Order.with_position_size bo (Order.position_size bo - quantity)%float)
                 (pop_front k q rest)
          else pop_front k q rest),
       Order.with_position_size rem (Order.position_size rem - quantity)%float).

(** The part of a trader object that the ledger never writes. *)
Definition identity_of (tr : Trader.t) : Z * BetSizer * TraderClass :=
  (Trader.trader_id tr, Trader.betsizer tr, Trader.class tr).

(** Everything of the state that matching does not write: the clock, the
    configuration, the roster, the id map, the tick history, and the
    identities of the trader objects. *)
Definition frame (st : Market) :=
  (timestep st, evolution_ticks st, evolve st, kill_percentage st,
   write_every st, max_order_age st, traders st, market_makers st,
   tick_history st, trader_map st, identity_of <$> heap st).

(** What holds between the state [st0] at the call with [order] and the
    state [st] with the remainder [rem] at the head of every iteration. *)
Definition buy_inv (st0 : Market) (order : Order.t) (st : Market) (rem : Order.t)
    : Prop :=
  no_empty_levels (sells st)
  ∧ buys st = buys st0
  ∧ frame st = frame st0
  ∧ fill_of order rem
  ∧ (∀ r', r' ∈ book_orders (sells st) →
       ∃ r, r ∈ book_orders (sells st0) ∧ fill_of r r')
  ∧ ∃ new, trade_history st = trade_history st0 ++ new
           ∧ Forall (buy_match st0 order) new.

(** What holds between the state [st0] at the call with [order] and the
    state [st] with the remainder [rem] at the head of every iteration. *)
Definition sell_inv (st0 : Market) (order : Order.t) (st : Market) (rem : Order.t)
    : Prop :=
  no_empty_levels (buys st)
  ∧ sells st = sells st0
  ∧ frame st = frame st0
  ∧ fill_of order rem
  ∧ (∀ r', r' ∈ book_orders (buys st) →
       ∃ r, r ∈ book_orders (buys st0) ∧ fill_of r r')
  ∧ ∃ new, trade_history st = trade_history st0 ++ new
           ∧ Forall (sell_match st0 order) new.

(** The resting orders of both sides. *)
Definition resting (st : Market) : list Order.t :=
  book_orders (buys st) ++ book_orders (sells st).

(** Every resting order of [st] is the order [order] or a resting order of
    [st0], whole or partly filled. *)
Definition descends (st0 : Market) (order : Order.t) (st : Market) : Prop :=
  ∀ r', r' ∈ resting st →
    fill_of order r' ∨ ∃ r, r ∈ resting st0 ∧ fill_of r r'.

(** What a call of [process_aggressive_order] on [st] with [order] gives:
    the final state [st'] and the trades [new] it appended. *)
Definition processed (st : Market) (order : Order.t) (st' : Market)
    (new : list Trade.t) : Prop :=
  process_aggressive_order st order = Ok st'
  ∧ trade_history st' = trade_history st ++ new.

(** The trade [t] carries the price of an order [r] resting in [opposite]
    whose owner is the party [maker_id] of the trade. *)
Definition maker_priced (opposite : Book) (maker_id : Trade.t → Z) (t : Trade.t)
    : Prop :=
  ∃ r, r ∈ book_orders opposite
    ∧ maker_id t = Order.trader_id r
    ∧ Trade.price t = Order.price r.

(** The trade [t] has a maker in [opposite] that is not stale at the clock
    [now] under the age limit [age]. *)
Definition maker_fresh (opposite : Book) (maker_id : Trade.t → Z) (now age : Z)
    (t : Trade.t) : Prop :=
  ∃ r, r ∈ book_orders opposite
    ∧ maker_id t = Order.trader_id r
    ∧ now ≤ Order.timestep r + age.

(** The operations on the book that the tick uses. *)
Inductive book_op : Set :=
| Submit (order : Order.t)
| ClearMarketMakers.

Fixpoint run_ops (ops : list book_op) (st : Market) : outcome Market :=
  match ops with
  | [] => Ok st
  | Submit order :: rest =>
      st' ←! process_aggressive_order st order;
      run_ops rest st'
  | ClearMarketMakers :: rest => run_ops rest (clear_market_maker_orders st)
  end.

(** Every resting order labelled as a market maker's has origin 0. *)
Definition quotes_at_origin (l : list Order.t) : Prop :=
  ∀ r, r ∈ l → Order.trader_type r = MarketMaker_t → Order.timestep r = 0.

(** The ids and the type labels of the traders a list of pointers leads
    to, in the order of the list. *)
Definition ids_of (h : list Trader.t) (l : list ptr) : list Z :=
  (λ p, Trader.get_id (h !!! p)) <$> l.

Definition types_of (h : list Trader.t) (l : list ptr) : list string :=
  (λ p, Trader.get_type (h !!! p)) <$> l.

(** The roster as the constructor leaves it: its pointers lead to objects
    of the store, no two of its traders share an id, and the map sends the
    id of each to the very object the roster holds. *)
Definition roster_wf (st : Market) : Prop :=
  Forall (λ p, p < length (heap st))%nat (traders st)
  ∧ NoDup (ids_of (heap st) (traders st))
  ∧ Forall (λ p, trader_map st !! Trader.get_id (heap st !!! p) = Some p)
      (traders st).

Definition three_types : gset string :=
  {[ Monkey_t; MeanReverter_t; MomentumTrader_t ]}.

(** The best-ranked trader of type [T] in a ranking. *)
Fixpoint first_of_type (h : list Trader.t) (T : string) (sorted : list ptr)
    : option ptr :=
  match sorted with
  | [] => None
  | p :: rest =>
      if String.eqb (Trader.get_type (h !!! p)) T then Some p
      else first_of_type h T rest
  end.

(** The state outside the roster, the store and the id map. *)
Definition outside_roster (st : Market) :=
  (timestep st, market_price st, evolution_ticks st, evolve st,
   kill_percentage st, write_every st, max_order_age st, trader_volume st,
   total_trade_volume st, total_price_volume st, market_makers st,
   buys st, sells st, trade_history st, tick_history st).

(** An evolution step that C++ defines: the period is not zero and, when
    the step is due, there is a trader to clone and the kill count fits an
    [int]. *)
Definition evolve_defined (st : Market) : Prop :=
  evolution_ticks st ≠ 0
  ∧ (Z.rem (timestep st) (evolution_ticks st) = 0 →
     traders st ≠ []
     ∧ is_Some (round_to_int
                  (size_to_double (length (traders st)) * kill_percentage st)%float)).

(** A tick that C++ defines: the snapshot period is not zero and, if
    evolution is on, the evolution step at the next clock value is
    defined. *)
Definition tick_defined (st : Market) : Prop :=
  write_every st ≠ 0
  ∧ (evolve st = true → evolve_defined (set_timestep st (timestep st + 1))).

(** The ledger writes of one trade, as [process_aggressive_order] makes
    them: the buyer's first, then the seller's, each only if the id is in
    the map. *)
Definition settle (tm : gmap Z ptr) (h : list Trader.t) (t : Trade.t) : list Trader.t :=
  ledger_update tm (Trade.seller_id t) SELL (Trade.price t) (Trade.quantity t)
    (ledger_update tm (Trade.buyer_id t) BUY (Trade.price t) (Trade.quantity t) h).

(** The queue of the level whose key is equivalent to [p], as
    [m.find(p)] would reach it. *)
Fixpoint queue_at (comp : double → double → bool) (p : double) (m : Book)
    : list Order.t :=
  match m with
  | [] => []
  | (k, q) :: rest =>
      if comp p k then []
      else if comp k p then queue_at comp p rest
      else q
  end.

(** The configuration, which no operation writes after construction. *)
Definition config (st : Market) :=
  (evolution_ticks st, evolve st, kill_percentage st, write_every st,
   max_order_age st, market_makers st).

(** A run that C++ defines at every tick: the snapshot period is not
    zero and, if evolution is on, its period is not zero, there is a trader,
    and the kill count fits an [int]. *)
Definition run_defined (st : Market) : Prop :=
  write_every st ≠ 0
  ∧ (evolve st = true →
     evolution_ticks st ≠ 0
     ∧ traders st ≠ []
     ∧ is_Some (round_to_int
                  (size_to_double (length (traders st)) * kill_percentage st)%float)).

(** ** States and orders to run the model on *)

Definition demo_heap : list Trader.t :=
  [ Trader.fresh 0 (Fractional 0.125 1) (MonkeyTrader 0.5);
    Trader.fresh 1 (Fractional 0.125 1) (MeanReverter 5 20);
    Trader.fresh 2 (Fractional 0.125 1) (MomentumTrader 5 20) ].

(** Three traders, one market maker, an empty book, at tick [now]. *)
Definition demo_market (now : Z) (b s : Book) : Market :=
  mkMarket now 100 10 true 0.5 1 5 ∅ 0 0 demo_heap [0; 1; 2]%nat
    [MarketMaker.mk 100000 100 2] b s [] []
    (<[0 := 0%nat]> (<[1 := 1%nat]> (<[2 := 2%nat]> ∅))).

(** A bid of trader 0 rests alone; trader 0 then sells at the same price. *)
Definition own_bid : Order.t := Order.mk BUY 100 0 3 Monkey_t 10.
Definition own_bid_market : Market := demo_market 3 [(100%float, [own_bid])] [].
Definition own_ask : Order.t := Order.mk SELL 100 0 3 Monkey_t 10.

(** An ask of trader 1 at 100 rests alone at tick 3; trader 0 then bids 101
    at tick [now]. *)
Definition ask_100 : Order.t := Order.mk SELL 100 1 3 MeanReverter_t 5.
Definition ask_market (now : Z) : Market := demo_market now [] [(100%float, [ask_100])].
Definition bid_101 (now : Z) : Order.t := Order.mk BUY 101 0 now Monkey_t 5.

(** The ask of market maker 100000 around 100 with spread 2, resting alone
    at tick [now]. *)
Definition mm_ask : Order.t := Order.mk SELL 101 100000 0 MarketMaker_t 10.
Definition mm_ask_market (now : Z) : Market := demo_market now [] [(101%float, [mm_ask])].

(** Five traders of unequal wealth at tick [now]: by value, trader 0 (a
    Monkey) is first, then 4, 3, 1, and trader 2, the only MomentumTrader,
    is last. *)
Definition evolve_heap : list Trader.t :=
  [ Trader.mk 0 100000 10 (Fractional 0.125 1) (MonkeyTrader 0.5);
    Trader.mk 1 90000 10 (Fractional 0.125 1) (MeanReverter 5 20);
    Trader.mk 2 80000 10 (Fractional 0.125 1) (MomentumTrader 5 20);
    Trader.mk 3 95000 10 (Fractional 0.125 1) (MonkeyTrader 0.25);
    Trader.mk 4 99000 10 (Fractional 0.125 1) (MeanReverter 10 30) ].

Definition evolve_market (now : Z) : Market :=
  mkMarket now 100 10 true 0.5 1 5 ∅ 0 0 evolve_heap [0; 1; 2; 3; 4]%nat
    [MarketMaker.mk 100000 100 2] [] [] [] []
    (<[0 := 0%nat]> (<[1 := 1%nat]> (<[2 := 2%nat]> (<[3 := 3%nat]>
       (<[4 := 4%nat]> ∅))))).

(** A decision rule to run ticks with: the generator is a counter, and a
    trader bids one above the market price on even draws and offers one
    below it on odd draws, for one unit. *)
Definition demo_make_order (tr : Trader.t) (market_price best_bid best_ask : double)
    (tick_history : list MarketTick.t) (timestep : Z) (g : nat) : Order.t * nat :=
  (if Nat.even g
   then Order.mk BUY (market_price + 1)%float (Trader.trader_id tr) timestep
          (Trader.get_type tr) 1
   else Order.mk SELL (market_price - 1)%float (Trader.trader_id tr) timestep
          (Trader.get_type tr) 1,
   S g).

(** Two asks at 100, from trader 1 at tick 1 and from trader 2 at tick 2,
    and a bid of trader 0 for 3 units that crosses them. *)
Definition ask_first : Order.t := Order.mk SELL 100 1 1 MeanReverter_t 10.
Definition ask_second : Order.t := Order.mk SELL 100 2 2 MomentumTrader_t 5.
Definition small_bid : Order.t := Order.mk BUY 100 0 2 Monkey_t 3.

(** One trader, no market maker, an empty book, evolution off. *)
Definition lone_market : Market :=
  mkMarket 0 100 10 false 0.5 1 5 ∅ 0 0
    [Trader.fresh 0 (Fractional 0.125 1) (MonkeyTrader 0.5)] [0%nat]
    [] [] [] [] [] (<[0 := 0%nat]> ∅).

(** A bid and an offer at the price 0. *)
Definition bid_at_zero : Order.t := Order.mk BUY 0 0 3 Monkey_t 1.
Definition ask_at_zero : Order.t := Order.mk SELL 0 1 3 MeanReverter_t 1.

(** ** Well-formed books *)

(** A double that is not a NaN: a NaN is the only double that differs from
    itself. *)
Definition is_number (x : double) : bool := (x =? x)%float.

(** The keys of the levels of a side increase strictly along [comp]. *)
Fixpoint sorted_levels (comp : double → double → bool) (m : Book) : Prop :=
  match m with
  | [] => True
  | (k, _) :: rest => Forall (λ l, comp k l.1 = true) rest ∧ sorted_levels comp rest
  end.

(** A level of the side [side]: it holds an order, and each of its orders
    has the price of the level, a positive quantity and the side's type. *)
Definition level_ok (side : string) (l : double * list Order.t) : Prop :=
  l.2 ≠ []
  ∧ Forall (λ o, (Order.price o =? l.1)%float = true
                 ∧ (0 <? Order.position_size o)%float = true
                 ∧ Order.type o = side) l.2.

Definition side_ok (comp : double → double → bool) (side : string) (m : Book) : Prop :=
  sorted_levels comp m ∧ Forall (level_ok side) m.

(** Every bid level is below every ask level. *)
Definition uncrossed (b s : Book) : Prop :=
  Forall (λ lb, Forall (λ la, (lb.1 <? la.1)%float = true) s) b.

(** The book as the matching engine keeps it: bids by decreasing price,
    asks by increasing price, every order at its price with a positive
    quantity on its own side, and the best bid below the best ask. *)
Definition book_ok (st : Market) : Prop :=
  side_ok greater BUY (buys st)
  ∧ side_ok less SELL (sells st)
  ∧ uncrossed (buys st) (sells st).

(** What holds at the head of every iteration of the BUY loop of a call
    with [order] on [st0], on a well-formed book: the asks are well formed,
    the bids untouched and below the asks, and every trade made so far was
    for a positive quantity at a price within the limit of the order. *)
Definition buy_ok (st0 : Market) (order : Order.t) (st : Market) (rem : Order.t)
    : Prop :=
  side_ok less SELL (sells st)
  ∧ buys st = buys st0
  ∧ uncrossed (buys st) (sells st)
  ∧ fill_of order rem
  ∧ ∃ new, trade_history st = trade_history st0 ++ new
      ∧ Forall (λ t, (Trade.price t <=? Order.price order)%float = true
                     ∧ (0 <? Trade.quantity t)%float = true) new.

Definition sell_ok (st0 : Market) (order : Order.t) (st : Market) (rem : Order.t)
    : Prop :=
  side_ok greater BUY (buys st)
  ∧ sells st = sells st0
  ∧ uncrossed (buys st) (sells st)
  ∧ fill_of order rem
  ∧ ∃ new, trade_history st = trade_history st0 ++ new
      ∧ Forall (λ t, (Order.price order <=? Trade.price t)%float = true
                     ∧ (0 <? Trade.quantity t)%float = true) new.

(** The orders a sequence of operations submits all have a price that is
    a number. *)
Definition priced (op : book_op) : Prop :=
  match op with
  | Submit order => is_number (Order.price order) = true
  | ClearMarketMakers => True
  end.

(** A bid of trader 0 for 5 at 98 and an ask of trader 1 for 5 at 100 rest;
    the sample orders above then cross one or the other. *)
Definition two_sided_market (now : Z) : Market :=
  demo_market now [(98%float, [Order.mk BUY 98 0 3 Monkey_t 5])]
    [(100%float, [ask_100])].

(** ** The matching of resting orders *)

(** The local accumulators of [Market::process_orders]. *)
Module Totals.
Record t : Set := mk {
  total_price_volume : double;
  total_volume : double;
  last_trade_price : double
}.
End Totals.

(** The loop test of [process_orders]: both sides hold a level and the
    best bid is not below the best ask. *)
Definition cross_cond (st : Market) : bool :=
  match buys st, sells st with
  | (kb, _) :: _, (ka, _) :: _ => (ka <=? kb)%float
  | _, _ => false
  end.

(** One iteration of the loop of [process_orders], entered with the test
    true: the two front orders are dropped together when they have one owner
    or when either is stale; otherwise they trade at the price of the older
    of the two (of the ask on a tie), and what is left of either is pushed
    again. *)
Definition process_orders_step (st : Market) (acc : Totals.t)
    : outcome (Market * Totals.t) :=
  match buys st, sells st with
  | (kb, buy :: qb) :: restb, (ka, sell :: qa) :: resta =>
      let popped_b := pop_front kb qb restb in
      let popped_s := pop_front ka qa resta in
      if Order.trader_id buy =? Order.trader_id sell then
        Ok (set_sells (set_buys st popped_b) popped_s, acc)
      else if (timestep st - Order.timestep buy >? max_order_age st)
              || (timestep st - Order.timestep sell >? max_order_age st) then
        Ok (set_sells (set_buys st popped_b) popped_s, acc)
      else
        let order_price :=
          if Order.timestep buy <? Order.timestep sell
          then Order.price buy else Order.price sell in
        let quantity := std_min (Order.position_size buy) (Order.position_size sell) in
        let acc' :=
          Totals.mk (Totals.total_price_volume acc + order_price * quantity)%float
            (Totals.total_volume acc + quantity)%float order_price in
        let h1 := ledger_update (trader_map st) (Order.trader_id buy) BUY
                    order_price quantity (heap st) in
        let h2 := ledger_update (trader_map st) (Order.trader_id sell) SELL
                    order_price quantity h1 in
        let trade := Trade.mk order_price quantity (Order.trader_id buy)
                       (Order.trader_id sell) (timestep st)
                       (Order.trader_type buy) (Order.trader_type sell) in
        let st1 := set_trade_effects st (trader_volume st) (total_trade_volume st)
                     (total_price_volume st) h2 (trade_history st ++ [trade])
                     (market_price st) in
        let buy' := Order.with_position_size buy
                      (Order.position_size buy - quantity)%float in
        let sell' := Order.with_position_size sell
                       (Order.position_size sell - quantity)%float in
        Ok (set_sells
              (set_buys st1
                 (if (0 <? Order.position_size buy')%float
                  then level_push greater buy' popped_b else popped_b))
              (if (0 <? Order.position_size sell')%float
               then level_push less sell' popped_s else popped_s),
            acc')
  | _, _ => Undefined
  end.

Fixpoint process_orders_loop (fuel : nat) (st : Market) (acc : Totals.t)
    : outcome (Market * Totals.t) :=
  if cross_cond st then
    match fuel with
    | O => OutOfFuel
    | S fuel' =>
        r ←! process_orders_step st acc;
        process_orders_loop fuel' r.1 r.2
    end
  else Ok (st, acc).

(** [Market::process_orders]. Every iteration removes at least one resting
    order for good, so one more iteration than there are resting orders is
    enough ([process_orders_loop_spec]). *)
Definition process_orders (st : Market) : outcome (Market * MarketTick.t) :=
  r ←! process_orders_loop
         (S (length (book_orders (buys st)) + length (book_orders (sells st))))
         st (Totals.mk 0 0 (market_price st));
  let st1 := r.1 in
  let total_volume := Totals.total_volume r.2 in
  let last_trade_price := Totals.last_trade_price r.2 in
  let tick_vwap :=
    if (0 <? total_volume)%float
    then (Totals.total_price_volume r.2 / total_volume)%float
    else last_trade_price in
  let best_bid := get_best_bid st1 in
  let best_ask := get_best_ask st1 in
  let mid_price := ((best_bid + best_ask) / 2)%float in
  Ok (if (0 <? total_volume)%float
      then set_trade_effects st1 (trader_volume st1) (total_trade_volume st1)
             (total_price_volume st1) (heap st1) (trade_history st1) mid_price
      else st1,
      MarketTick.mk last_trade_price total_volume tick_vwap mid_price (timestep st1)).


(** A bid at 101 of trader 0 and an ask at 100 of trader 1 rest
    together: a crossed book. *)
Definition crossed_market (now : Z) : Market :=
  demo_market now [(101%float, [bid_101 3])] [(100%float, [ask_100])].

(** ** Housekeeping of the histories *)

Definition max_ticks : nat := 10000.

(** [Market::truncate_tick_history]: the tick history is cut down to its
    last [max_ticks] entries, and the trade history is emptied every 1000
    ticks. *)
Definition truncate_tick_history (st : Market) : Market :=
  let ticks :=
    if (max_ticks <? length (tick_history st))%nat
    then drop (length (tick_history st) - max_ticks) (tick_history st)
    else tick_history st in
  let trades :=
    if Z.rem (timestep st) 1000 =? 0 then [] else trade_history st in
  set_tick_history
    (set_trade_effects st (trader_volume st) (total_trade_volume st)
       (total_price_volume st) (heap st) trades (market_price st))
    ticks.

(** ** The outcome of an evolution step *)

(** A trader the first loop of [evolve_traders] protects: the best-ranked
    trader of its type. *)
Definition protected (h : list Trader.t) (sorted : list ptr) (p : ptr) : bool :=
  bool_decide (first_of_type h (Trader.get_type (h !!! p)) sorted = Some p).

(** The traders the second loop reaches: walking the ranking from the
    worst, the first [kill_count] traders that are not protected. *)
Definition victims (h : list Trader.t) (sorted : list ptr) (kill_count : Z) : list ptr :=
  take (Z.to_nat kill_count)
       (filter (λ p, protected h sorted p = false) (reverse sorted)).

(** What a run of replacements for the ids [done] has made of the roster
    of [st0]: objects are only added to the store, and every entry of the
    roster is an entry of [st0] whose id is not in [done], or a new object
    that is the clone of [top] for an id of [done]. *)
Definition evolved_from (st0 : Market) (top : Trader.t) (done : list Z)
    (st : Market) : Prop :=
  roster_wf st
  ∧ ids_of (heap st) (traders st) = ids_of (heap st0) (traders st0)
  ∧ (∃ added, heap st = heap st0 ++ added)
  ∧ Forall (λ q, (q ∈ traders st0 ∧ (Trader.get_id (heap st0 !!! q) ∉ done)
                  ∧ heap st !!! q = heap st0 !!! q)
                 ∨ ((length (heap st0) ≤ q)%nat
                    ∧ ∃ id, id ∈ done ∧ heap st !!! q = clone top id))
      (traders st).

(** ** Market makers in a tick *)

(** The trade has a market maker on exactly one side, or on neither. *)
Definition one_market_maker (t : Trade.t) : Prop :=
  (Trade.buyer_type t = MarketMaker_t ∧ Trade.seller_type t ≠ MarketMaker_t)
  ∨ (Trade.seller_type t = MarketMaker_t ∧ Trade.buyer_type t ≠ MarketMaker_t).

Definition between_traders (t : Trade.t) : Prop :=
  Trade.buyer_type t ≠ MarketMaker_t ∧ Trade.seller_type t ≠ MarketMaker_t.

(** A trade of a call with an order labelled [label] whose maker is not
    labelled as a market maker. *)
Definition taken_by (label : string) (t : Trade.t) : Prop :=
  (Trade.buyer_type t = label ∧ Trade.seller_type t ≠ MarketMaker_t)
  ∨ (Trade.seller_type t = label ∧ Trade.buyer_type t ≠ MarketMaker_t).

(** ** Construction *)

Module MonkeyInit.
Record t : Set := mk {
  num_monkeys : Z;
  noise_weight : double;
  sizers : list BetSizer
}.
End MonkeyInit.

Module MeanReverterInit.
Record t : Set := mk {
  num_mreverters : Z;
  short_ma_window : Z;
  long_ma_window : Z;
  min_short : Z;
  max_short : Z;
  min_long : Z;
  max_long : Z;
  sizers : list BetSizer
}.
End MeanReverterInit.

Module MomentumTraderInit.
Record t : Set := mk {
  num_momtraders : Z;
  short_ma_window : Z;
  long_ma_window : Z;
  min_short : Z;
  max_short : Z;
  min_long : Z;
  max_long : Z;
  sizers : list BetSizer
}.
End MomentumTraderInit.

Module MarketMakerInit.
Record t : Set := mk {
  num_mmakers : Z;
  fundamental_price : double;
  spread : double;
  sizers : list BetSizer
}.
End MarketMakerInit.

Module InitialMarketState.
Record t : Set := mk {
  initial_price : double;
  evolution_ticks : Z;
  evolve : bool;
  kill_percentage : double;
  write_every : Z;
  max_order_age : Z;
  monkeys : MonkeyInit.t;
  mreverters : MeanReverterInit.t;
  momtraders : MomentumTraderInit.t;
  mmakers : MarketMakerInit.t
}.
End InitialMarketState.

(** [TraderInitResult], with the objects its pointers lead to. *)
Module TraderInitResult.
Record t : Type := mk {
  objects : list Trader.t;
  traders : list ptr;
  trader_map : gmap Z ptr
}.
End TraderInitResult.

(** [std::make_shared<Fractional>(0.01, 1.0)]; the first literal is the
    double nearest to 0.01. *)
Definition default_sizer : BetSizer := Fractional 0x1.47ae147ae147bp-7 1.

(** The body the three loops of [init_traders] share: the trader is
    allocated, entered in the map under its id, and pushed on the roster. *)
Definition add_trader (result : TraderInitResult.t) (global_id : Z) (c : TraderClass)
    : TraderInitResult.t :=
  let trader := length (TraderInitResult.objects result) in
  TraderInitResult.mk
    (TraderInitResult.objects result ++ [Trader.fresh global_id default_sizer c])
    (TraderInitResult.traders result ++ [trader])
    (<[global_id := trader]> (TraderInitResult.trader_map result)).

Fixpoint add_monkeys (n : nat) (noise_weight : double) (result : TraderInitResult.t)
    (global_id : Z) : TraderInitResult.t * Z :=
  match n with
  | O => (result, global_id)
  | S n' =>
      add_monkeys n' noise_weight
        (add_trader result global_id (MonkeyTrader noise_weight)) (global_id + 1)
  end.

(** [init_market_makers]: ids count up from 100000. The map of the result
    is never written and stays empty. *)
Fixpoint add_makers (n : nat) (fundamental_price spread : double) (id : Z)
    : list MarketMaker.t :=
  match n with
  | O => []
  | S n' =>
      MarketMaker.mk id fundamental_price spread
        :: add_makers n' fundamental_price spread (id + 1)
  end.

(** The increments of [id] are undefined past [INT_MAX]. *)
Definition init_market_makers (mmaker : MarketMakerInit.t) : outcome (list MarketMaker.t) :=
  if INT_MAX <? 100000 + Z.max 0 (MarketMakerInit.num_mmakers mmaker) then Undefined
  else Ok (add_makers (Z.to_nat (MarketMakerInit.num_mmakers mmaker))
             (MarketMakerInit.fundamental_price mmaker)
             (MarketMakerInit.spread mmaker) 100000).

Section Construction.
(** The state of the generator, a draw of a
    [std::uniform_int_distribution<int>(a, b)], and [std::shuffle]. *)
Variable Gen : Type.
Variable uniform_int : Z → Z → Gen → Z * Gen.
Variable std_shuffle : list ptr → Gen → list ptr * Gen.

(** The two draws of an iteration and the swap that orders them. *)
Definition draw_windows (min_short max_short min_long max_long : Z) (g : Gen)
    : Z * Z * Gen :=
  let short_window := uniform_int min_short max_short g in
  let long_window := uniform_int min_long max_long short_window.2 in
  (if long_window.1 <? short_window.1
   then (long_window.1, short_window.1)
   else (short_window.1, long_window.1),
   long_window.2).

(** The loop of the MeanReverters and that of the MomentumTraders, which
    differ in the class they construct. *)
Fixpoint add_windowed (n : nat) (class_of : Z → Z → TraderClass)
    (min_short max_short min_long max_long : Z)
    (result : TraderInitResult.t) (global_id : Z) (g : Gen)
    : TraderInitResult.t * Z * Gen :=
  match n with
  | O => (result, global_id, g)
  | S n' =>
      let w := draw_windows min_short max_short min_long max_long g in
      add_windowed n' class_of min_short max_short min_long max_long
        (add_trader result global_id (class_of w.1.1 w.1.2)) (global_id + 1) w.2
  end.

(** [init_traders]. A distribution over an empty range is undefined, and
    so are the increments of [global_id] past [INT_MAX]. *)
Definition init_traders (monkey : MonkeyInit.t) (mreverter : MeanReverterInit.t)
    (momentumtrader : MomentumTraderInit.t) (g : Gen)
    : outcome (TraderInitResult.t * Gen) :=
  if (MeanReverterInit.max_short mreverter <? MeanReverterInit.min_short mreverter)
     || (MeanReverterInit.max_long mreverter <? MeanReverterInit.min_long mreverter)
     || (MomentumTraderInit.max_short momentumtrader
           <? MomentumTraderInit.min_short momentumtrader)
     || (MomentumTraderInit.max_long momentumtrader
           <? MomentumTraderInit.min_long momentumtrader)
  then Undefined
  else if INT_MAX <? Z.max 0 (MonkeyInit.num_monkeys monkey)
                     + Z.max 0 (MeanReverterInit.num_mreverters mreverter)
                     + Z.max 0 (MomentumTraderInit.num_momtraders momentumtrader)
  then Undefined
  else
    let r1 := add_monkeys (Z.to_nat (MonkeyInit.num_monkeys monkey))
                (MonkeyInit.noise_weight monkey)
                (TraderInitResult.mk [] [] ∅) 0 in
    let r2 := add_windowed (Z.to_nat (MeanReverterInit.num_mreverters mreverter))
                MeanReverter
                (MeanReverterInit.min_short mreverter)
                (MeanReverterInit.max_short mreverter)
                (MeanReverterInit.min_long mreverter)
                (MeanReverterInit.max_long mreverter) r1.1 r1.2 g in
    let r3 := add_windowed (Z.to_nat (MomentumTraderInit.num_momtraders momentumtrader))
                MomentumTrader
                (MomentumTraderInit.min_short momentumtrader)
                (MomentumTraderInit.max_short momentumtrader)
                (MomentumTraderInit.min_long momentumtrader)
                (MomentumTraderInit.max_long momentumtrader) r2.1.1 r2.1.2 r2.2 in
    let shuffled := std_shuffle (TraderInitResult.traders r3.1.1) r3.2 in
    Ok (TraderInitResult.mk (TraderInitResult.objects r3.1.1) shuffled.1
          (TraderInitResult.trader_map r3.1.1),
        shuffled.2).

(** [Market::Market]. The two volume totals have no initialiser: they hold
    whatever the caller's memory did until the first tick resets them. *)
Definition new_Market (state : InitialMarketState.t)
    (total_trade_volume total_price_volume : double) (g : Gen)
    : outcome (Market * Gen) :=
  trader_init ←! init_traders (InitialMarketState.monkeys state)
                   (InitialMarketState.mreverters state)
                   (InitialMarketState.momtraders state) g;
  mmaker_init ←! init_market_makers (InitialMarketState.mmakers state);
  Ok (mkMarket 0 (InitialMarketState.initial_price state)
        (InitialMarketState.evolution_ticks state)
        (InitialMarketState.evolve state)
        (InitialMarketState.kill_percentage state)
        (InitialMarketState.write_every state)
        (InitialMarketState.max_order_age state)
        ∅ total_trade_volume total_price_volume
        (TraderInitResult.objects trader_init.1)
        (TraderInitResult.traders trader_init.1)
        mmaker_init [] [] [] []
        (TraderInitResult.trader_map trader_init.1),
      trader_init.2).
End Construction.

(** The roster as the loops of [init_traders] have built it when the next
    id is [global_id]: the objects were allocated in the order of their
    ids, the roster lists them in that order, the map sends each id to its
    object, and every ledger is the initial one. *)
Definition initial_ledger (tr : Trader.t) : Prop :=
  Trader.cash tr = 100000%float ∧ Trader.position tr = 10%float
  ∧ Trader.betsizer tr = default_sizer.

Definition built (result : TraderInitResult.t) (global_id : Z) : Prop :=
  global_id = Z.of_nat (length (TraderInitResult.objects result))
  ∧ TraderInitResult.traders result = seq 0 (length (TraderInitResult.objects result))
  ∧ Trader.get_id <$> TraderInitResult.objects result
    = Z.of_nat <$> seq 0 (length (TraderInitResult.objects result))
  ∧ (∀ k, TraderInitResult.trader_map result !! k
          = if bool_decide (0 ≤ k < global_id) then Some (Z.to_nat k) else None)
  ∧ Forall initial_ledger (TraderInitResult.objects result).

(** The windows of a MeanReverter or MomentumTrader are in order. *)
Definition windows_ordered (tr : Trader.t) : Prop :=
  match Trader.class tr with
  | MonkeyTrader _ => True
  | MeanReverter s l | MomentumTrader s l => s ≤ l
  end.

(** The parameters [Market::Market] is defined for. *)
Definition constructible (state : InitialMarketState.t) : Prop :=
  let mr := InitialMarketState.mreverters state in
  let mo := InitialMarketState.momtraders state in
  MeanReverterInit.min_short mr ≤ MeanReverterInit.max_short mr
  ∧ MeanReverterInit.min_long mr ≤ MeanReverterInit.max_long mr
  ∧ MomentumTraderInit.min_short mo ≤ MomentumTraderInit.max_short mo
  ∧ MomentumTraderInit.min_long mo ≤ MomentumTraderInit.max_long mo
  ∧ Z.max 0 (MonkeyInit.num_monkeys (InitialMarketState.monkeys state))
    + Z.max 0 (MeanReverterInit.num_mreverters mr)
    + Z.max 0 (MomentumTraderInit.num_momtraders mo) ≤ INT_MAX
  ∧ 100000 + Z.max 0 (MarketMakerInit.num_mmakers (InitialMarketState.mmakers state))
    ≤ INT_MAX.

(** The number of traders the parameters ask for. *)
Definition population (state : InitialMarketState.t) : Z :=
  Z.max 0 (MonkeyInit.num_monkeys (InitialMarketState.monkeys state))
  + Z.max 0 (MeanReverterInit.num_mreverters (InitialMarketState.mreverters state))
  + Z.max 0 (MomentumTraderInit.num_momtraders (InitialMarketState.momtraders state)).

(** Parameters and draws to run the constructor on: two Monkeys, two
    MeanReverters, one MomentumTrader and two market makers; the generator
    is a counter, a draw from [a, b] is [a] plus eleven times the counter
    modulo the width of the range, and the shuffle reverses. *)
Definition demo_state : InitialMarketState.t :=
  InitialMarketState.mk 100 10 true 0.5 1 5
    (MonkeyInit.mk 2 0.5 [])
    (MeanReverterInit.mk 2 5 20 3 30 10 40 [])
    (MomentumTraderInit.mk 1 5 20 3 30 10 40 [])
    (MarketMakerInit.mk 2 100 2 []).

Definition demo_uniform_int (a b : Z) (g : nat) : Z * nat :=
  (a + (Z.of_nat g * 11) `mod` (b - a + 1), S g).

Definition demo_shuffle (l : list ptr) (g : nat) : list ptr * nat := (reverse l, S g).

(** ** The simulation *)

Section Simulation.
Variable Gen : Type.
Variable uniform_int : Z → Z → Gen → Z * Gen.
Variable std_shuffle : list ptr → Gen → list ptr * Gen.
Variable std_sort : (ptr → ptr → bool) → list ptr → list ptr.
Variable make_order :
  Trader.t → double → double → double → list MarketTick.t → Z → Gen → Order.t * Gen.

(** The market is constructed and ticked [n] times. *)
Definition simulate (n : nat) (state : InitialMarketState.t)
    (total_trade_volume total_price_volume : double) (g : Gen)
    : outcome (Market * Gen) :=
  r ←! new_Market Gen uniform_int std_shuffle state total_trade_volume
         total_price_volume g;
  run_ticks std_sort Gen make_order n r.1 r.2.

(** The simulation of [main]. *)
Definition total_ticks : nat := 50000.

Definition main (state : InitialMarketState.t)
    (total_trade_volume total_price_volume : double) (g : Gen)
    : outcome (Market * Gen) :=
  simulate total_ticks state total_trade_volume total_price_volume g.
End Simulation.

(** Parameters with which every tick is defined: the snapshot period is
    not zero and, if evolution is on, its period is not zero, somebody is to
    be ranked, and the kill count fits an [int]. *)
Definition runnable (state : InitialMarketState.t) : Prop :=
  InitialMarketState.write_every state ≠ 0
  ∧ (InitialMarketState.evolve state = true →
     InitialMarketState.evolution_ticks state ≠ 0
     ∧ 0 < population state
     ∧ is_Some (round_to_int
                  (size_to_double (Z.to_nat (population state))
                   * InitialMarketState.kill_percentage state)%float)).

(** ** Bet sizing and the MomentumTrader *)

(** [std::clamp(v, lo, hi)]. *)
Definition std_clamp (v lo hi : double) : double :=
  if (v <? lo)%float then lo else if (hi <? v)%float then hi else v.

(** [Fractional::get_bet_size] and [Kelly::get_bet_size]. *)
Definition get_bet_size (sizer : BetSizer)
    (market_price expected_price confidence capital : double) : double :=
  match sizer with
  | Fractional fraction min_bet =>
      let num_shares := (fraction * capital / market_price)%float in
      num_shares
  | Kelly kelly_fraction min_bet =>
      let edge := (expected_price - market_price)%float in
      let odds := abs (edge / market_price)%float in
      if (odds =? 0)%float || (confidence <=? 0.5)%float then 0%float
      else
        let kelly := std_clamp ((confidence - (1 - confidence)) * odds)%float 0 1 in
        let bet := (kelly_fraction * kelly * capital)%float in
        if (bet <? min_bet)%float then 0%float
        else (bet / market_price)%float
  end.

(** [Trader::calculate_position_size]. *)
Definition calculate_position_size (tr : Trader.t)
    (market_price expected_price confidence : double) : double :=
  get_bet_size (Trader.betsizer tr) market_price expected_price confidence
    (Trader.get_value market_price tr).

(** An [int] holds the values from [INT_MIN] to [INT_MAX]; a [size_t]
    converted to [int] keeps its low 32 bits, and an [int] converted to
    [size_t] is taken modulo [2 ^ 64]. *)
Definition int_range (z : Z) : bool := (INT_MIN <=? z) && (z <=? INT_MAX).

Definition size_to_int (n : nat) : Z :=
  (Z.of_nat n + 2 ^ 31) `mod` 2 ^ 32 - 2 ^ 31.

Definition int_to_size (z : Z) : Z := z `mod` 2 ^ 64.

Definition int_to_double (z : Z) : double :=
  SF2Prim (binary_normalize prec emax z 0 false).

(** [MomentumTrader::get_vwap_history]. *)
Definition get_vwap_history (tick_history : list MarketTick.t) : list double :=
  MarketTick.vwap <$> tick_history.

(** [MomentumTrader::ma]: the mean of the last [ma_window] prices, of all
    of them if there are fewer. The difference [n - ma_window] is taken in
    [int] and is undefined outside its range. *)
Definition ma (price_history : list double) (ma_window : Z) : outcome double :=
  let n := size_to_int (length price_history) in
  if negb (int_range (n - ma_window)) then Undefined
  else
    let start := Z.max 0 (n - ma_window) in
    let sum := foldl (λ sum x, (sum + x)%float) 0%float
                 (drop (Z.to_nat start) (take (Z.to_nat n) price_history)) in
    Ok (sum / int_to_double (n - start))%float.

(** [MomentumTrader::make_order], for a trader with the two windows. *)
Definition momentum_make_order (tr : Trader.t) (short_ma_window long_ma_window : Z)
    (market_price best_bid best_ask : double) (tick_history : list MarketTick.t)
    (timestep : Z) : outcome Order.t :=
  let hold := Order.mk HOLD market_price (Trader.trader_id tr) timestep
                MomentumTrader_t 0 in
  if Z.of_nat (length tick_history)
       <? int_to_size (Z.max short_ma_window long_ma_window)
  then Ok hold
  else
    let vwap_history := get_vwap_history tick_history in
    short_ma ←! ma vwap_history short_ma_window;
    long_ma ←! ma vwap_history long_ma_window;
    let confidence := 1%float in
    let position_size := calculate_position_size tr market_price long_ma confidence in
    let signal_strength :=
      std_clamp ((short_ma - long_ma) / market_price)%float
        (-0x1.999999999999ap-5)%float 0x1.999999999999ap-5%float in
    if (long_ma <? short_ma)%float && (best_ask <? 1e9)%float then
      if (best_ask * position_size <=? Trader.cash tr)%float
      then Ok (Order.mk BUY (best_ask + 0x1.47ae147ae147bp-7)%float
                 (Trader.trader_id tr) timestep MomentumTrader_t position_size)
      else Ok hold
    else if (short_ma <? long_ma)%float && (-1e9 <? best_bid)%float then
      if (position_size <=? Trader.position tr)%float
      then Ok (Order.mk SELL (best_bid - 0x1.47ae147ae147bp-7)%float
                 (Trader.trader_id tr) timestep MomentumTrader_t position_size)
      else Ok hold
    else Ok hold.

(** The windows and the history length for which [make_order] is
    defined. *)
Definition windows_in_range (short_ma_window long_ma_window : Z)
    (tick_history : list MarketTick.t) : Prop :=
  int_range (size_to_int (length tick_history) - short_ma_window) = true
  ∧ int_range (size_to_int (length tick_history) - long_ma_window) = true.

(** Histories of three ticks with falling and with rising prices, and a
    newly built MomentumTrader with windows 1 and 3. *)
Definition falling_history : list MarketTick.t :=
  [ MarketTick.mk 204 1 204 204 1; MarketTick.mk 202 1 202 202 2;
    MarketTick.mk 200 1 200 200 3 ].

Definition rising_history : list MarketTick.t :=
  [ MarketTick.mk 200 1 200 200 1; MarketTick.mk 202 1 202 202 2;
    MarketTick.mk 204 1 204 204 3 ].

Definition momentum_trader : Trader.t :=
  Trader.fresh 2 default_sizer (MomentumTrader 1 3).

(** ** The totals of a tick *)

(** The running totals and the market price after the trades [new], in
    the order they were made. *)
Definition volume_after (v0 : double) (new : list Trade.t) : double :=
  foldl (λ v t, (v + Trade.quantity t)%float) v0 new.

Definition price_volume_after (pv0 : double) (new : list Trade.t) : double :=
  foldl (λ pv t, (pv + Trade.price t * Trade.quantity t)%float) pv0 new.

Definition price_after (p0 : double) (new : list Trade.t) : double :=
  foldl (λ _ t, Trade.price t) p0 new.

(** What the ticker reads. *)
Definition ticker (st : Market) :=
  (trade_history st, total_trade_volume st, total_price_volume st, market_price st).

(** Between [st0] and [st] the trades [new] were made and entered in the
    totals. *)
Definition accounted (st0 st : Market) (new : list Trade.t) : Prop :=
  trade_history st = trade_history st0 ++ new
  ∧ total_trade_volume st = volume_after (total_trade_volume st0) new
  ∧ total_price_volume st = price_volume_after (total_price_volume st0) new
  ∧ market_price st = price_after (market_price st0) new.

(** ** Strategies *)

(** What decides how a trader trades: its class with its parameters, and
    its sizer. *)
Definition strategy_of (tr : Trader.t) : BetSizer * TraderClass :=
  (Trader.betsizer tr, Trader.class tr).

(** Every trader object of [h'] trades like one of [h]. *)
Definition strategies_from (h h' : list Trader.t) : Prop :=
  Forall (λ tr', ∃ tr, tr ∈ h ∧ strategy_of tr' = strategy_of tr) h'.

(** ** The census *)

Module TraderCount.
Record t : Set := mk {
  timestep : Z;
  monkeys : Z;
  marketmakers : Z;
  momentumtraders : Z;
  meanreverters : Z
}.
End TraderCount.

(** [counter++] on an [int], undefined at [INT_MAX]. *)
Definition increment (counter : Z) : outcome Z :=
  if INT_MAX <=? counter then Undefined else Ok (counter + 1).

(** The body of the loop of [update_trader_counts]. *)
Definition count_trader (counts : TraderCount.t) (type : string) : outcome TraderCount.t :=
  if String.eqb type Monkey_t then
    n ←! increment (TraderCount.monkeys counts);
    Ok (TraderCount.mk (TraderCount.timestep counts) n (TraderCount.marketmakers counts)
          (TraderCount.momentumtraders counts) (TraderCount.meanreverters counts))
  else if String.eqb type MarketMaker_t then
    n ←! increment (TraderCount.marketmakers counts);
    Ok (TraderCount.mk (TraderCount.timestep counts) (TraderCount.monkeys counts) n
          (TraderCount.momentumtraders counts) (TraderCount.meanreverters counts))
  else if String.eqb type MomentumTrader_t then
    n ←! increment (TraderCount.momentumtraders counts);
    Ok (TraderCount.mk (TraderCount.timestep counts) (TraderCount.monkeys counts)
          (TraderCount.marketmakers counts) n (TraderCount.meanreverters counts))
  else if String.eqb type MeanReverter_t then
    n ←! increment (TraderCount.meanreverters counts);
    Ok (TraderCount.mk (TraderCount.timestep counts) (TraderCount.monkeys counts)
          (TraderCount.marketmakers counts) (TraderCount.momentumtraders counts) n)
  else Ok counts.

Fixpoint count_traders (h : list Trader.t) (roster : list ptr) (counts : TraderCount.t)
    : outcome TraderCount.t :=
  match roster with
  | [] => Ok counts
  | p :: rest =>
      counts' ←! count_trader counts (Trader.get_type (h !!! p));
      count_traders h rest counts'
  end.

(** [Market::update_trader_counts]: the counts it computes; the row it
    appends to the file has the clock, the Monkeys, the MeanReverters and
    the MomentumTraders. *)
Definition update_trader_counts (st : Market) : outcome TraderCount.t :=
  count_traders (heap st) (traders st) (TraderCount.mk (timestep st) 0 0 0 0).

(** The number of traders of type [T] in a roster. *)
Definition count_type (h : list Trader.t) (T : string) (roster : list ptr) : Z :=
  Z.of_nat (length (filter (λ p, Trader.get_type (h !!! p) = T) roster)).

(** ** The depth of the book *)

(** The number of resting orders. *)
Definition depth (st : Market) : nat :=
  length (book_orders (buys st)) + length (book_orders (sells st)).

Fixpoint submissions (ops : list book_op) : nat :=
  match ops with
  | [] => 0
  | Submit _ :: rest => S (submissions rest)
  | ClearMarketMakers :: rest => submissions rest
  end.

(** ** The order book: levels and queues *)

Lemma sub_self_not_pos (x : double) : (0 <? x - x)%float = false.
Proof.
  rewrite FloatAxioms.ltb_spec, FloatAxioms.sub_spec.
  destruct (Prim2SF x) as [s|s| |s m e]; try reflexivity.
  - by destruct s.
  - by destruct s.
  - unfold SF64sub, SFsub. by rewrite Z.sub_diag.
Qed.

Lemma level_push_no_empty comp o m :
  no_empty_levels m → no_empty_levels (level_push comp o m).
Proof.
  unfold no_empty_levels. induction m as [|[k q] m IH]; simpl; intros Hm.
  - by repeat constructor.
  - apply Forall_cons in Hm as [Hq Hm]. repeat case_match.
    + by repeat constructor.
    + constructor; [done | by apply IH].
    + constructor; [|done]. simpl. by destruct q.
Qed.

Lemma pop_front_no_empty k q rest :
  no_empty_levels rest → no_empty_levels (pop_front k q rest).
Proof.
  intros Hrest. destruct q; simpl; [done|]. by constructor.
Qed.

Lemma remove_mm_orders_no_empty m : no_empty_levels (remove_mm_orders m).
Proof.
  induction m as [|[k q] m IH]; simpl; [constructor|].
  destruct (List.filter not_market_maker q) eqn:Hf; [done|].
  by constructor.
Qed.

Lemma book_orders_cons k q rest :
  book_orders ((k, q) :: rest) = q ++ book_orders rest.
Proof. done. Qed.

Lemma book_orders_pop_front k q rest :
  book_orders (pop_front k q rest) = q ++ book_orders rest.
Proof. by destruct q. Qed.

Lemma book_orders_level_push comp o m :
  book_orders (level_push comp o m) ≡ₚ o :: book_orders m.
Proof.
  induction m as [|[k q] m IH]; simpl; [done|].
  repeat case_match.
  - done.
  - rewrite !book_orders_cons, IH. by rewrite Permutation_middle.
  - rewrite !book_orders_cons, <-app_assoc. simpl.
    by rewrite <-Permutation_middle.
Qed.

(** ** The matching loop, one iteration at a time *)

Lemma buy_step_Ok order st rem r :
  buy_step order st rem = Ok r → buy_step_spec order st rem r.
Proof.
  unfold buy_step. destruct (sells st) as [|[k [|so q]] rest] eqn:Hs; try done.
  destruct (Z.eqb_spec (Order.trader_id rem) (Order.trader_id so)) as [Heq|Hne].
  { intros [= <-]. eapply buy_step_discard; eauto. }
  destruct (Z.gtb_spec (timestep st - Order.timestep so) (max_order_age st)) as [Hold|Hyoung].
  { intros [= <-]. eapply buy_step_discard; eauto. }
  intros [= <-]. eapply buy_step_trade; eauto.
Qed.

Lemma sell_step_Ok order st rem r :
  sell_step order st rem = Ok r → sell_step_spec order st rem r.
Proof.
  unfold sell_step. destruct (buys st) as [|[k [|bo q]] rest] eqn:Hs; try done.
  destruct (Z.eqb_spec (Order.trader_id rem) (Order.trader_id bo)) as [Heq|Hne].
  { intros [= <-]. eapply sell_step_discard; eauto. }
  destruct (Z.gtb_spec (timestep st - Order.timestep bo) (max_order_age st)) as [Hold|Hyoung].
  { intros [= <-]. eapply sell_step_discard; eauto. }
  intros [= <-]. eapply sell_step_trade; eauto.
Qed.

(** With no empty level, an iteration entered with the loop test true is
    defined. *)
Lemma buy_step_defined order st rem :
  no_empty_levels (sells st) → buy_cond st rem = true →
  ∃ r, buy_step order st rem = Ok r.
Proof.
  unfold buy_cond, buy_step. intros Hne Hc.
  destruct (sells st) as [|[k q] rest]; [done|].
  apply Forall_cons in Hne as [Hq _]. destruct q as [|so q]; [done|].
  repeat case_match; eauto.
Qed.

Lemma sell_step_defined order st rem :
  no_empty_levels (buys st) → sell_cond st rem = true →
  ∃ r, sell_step order st rem = Ok r.
Proof.
  unfold sell_cond, sell_step. intros Hne Hc.
  destruct (buys st) as [|[k q] rest]; [done|].
  apply Forall_cons in Hne as [Hq _]. destruct q as [|bo q]; [done|].
  repeat case_match; eauto.
Qed.

(** ** What the matching engine leaves alone *)

Lemma identity_of_update_position type price quantity tr :
  identity_of (Trader.update_position type price quantity tr) = identity_of tr.
Proof. unfold Trader.update_position. by case_match. Qed.

Lemma identities_ledger_update tm id type price quantity h :
  identity_of <$> ledger_update tm id type price quantity h = identity_of <$> h.
Proof.
  unfold ledger_update. destruct (tm !! id) as [p|]; [|done].
  apply list_eq. intros i. rewrite !list_lookup_fmap.
  destruct (decide (i = p)) as [->|Hne].
  - rewrite list_lookup_alter_eq. destruct (h !! p); simpl; [|done].
    by rewrite identity_of_update_position.
  - by rewrite list_lookup_alter_ne.
Qed.

Lemma frame_execute_trade order buyer seller trade_price quantity st :
  frame (execute_trade order buyer seller trade_price quantity st) = frame st.
Proof.
  unfold frame, execute_trade. simpl.
  by rewrite !identities_ledger_update.
Qed.

Ltac frame_eqs H :=
  unfold frame in H; simpl in H;
  injection H as ? ? ? ? ? ? ? ? ? ? ?.

(** ** The loop of the BUY branch *)

Lemma fill_of_refl r : fill_of r r.
Proof. by destruct r. Qed.

Lemma fill_of_trans r1 r2 r3 : fill_of r1 r2 → fill_of r2 r3 → fill_of r1 r3.
Proof. unfold fill_of. intros -> ->. by destruct r1. Qed.

Lemma fill_of_with_position_size r x : fill_of r (Order.with_position_size r x).
Proof. by destruct r. Qed.

Lemma buy_inv_init st0 order :
  no_empty_levels (sells st0) → buy_inv st0 order st0 order.
Proof.
  intros Hne. repeat split; try done.
  - apply fill_of_refl.
  - intros r' Hr'. exists r'. split; [done | apply fill_of_refl].
  - exists []. by rewrite app_nil_r.
Qed.

Lemma buy_step_inv st0 order st rem r :
  buy_inv st0 order st rem → buy_step order st rem = Ok r →
  buy_inv st0 order r.1 r.2
  ∧ (length (book_orders (sells r.1)) < length (book_orders (sells st))
     ∨ buy_cond r.1 r.2 = false)%nat.
Proof.
  intros (Hne & Hb & Hf & Hrem & Hsub & new & Hth & Hnew) Hstep.
  apply buy_step_Ok in Hstep.
  destruct Hstep as [k so q rest Hs Hwhy | k so q rest quantity Hs Hid Hage ->];
    simpl; rewrite Hs in Hne, Hsub; apply Forall_cons in Hne as [_ Hne].
  - (* the front order is dropped *)
    split.
    + repeat split; try done.
      * by apply pop_front_no_empty.
      * intros r' Hr'. simpl in Hr'. apply Hsub.
        rewrite book_orders_pop_front in Hr'.
        rewrite book_orders_cons. apply elem_of_cons. by right.
      * eauto.
    + left. rewrite Hs, book_orders_pop_front, book_orders_cons. simpl. lia.
  - (* a trade *)
    set (quantity := std_min (Order.position_size rem) (Order.position_size so)).
    set (so' := Order.with_position_size so (Order.position_size so - quantity)%float).
    assert (Hso : ∃ r, r ∈ book_orders (sells st0) ∧ fill_of r so).
    { apply Hsub. rewrite book_orders_cons. apply elem_of_cons. by left. }
    split.
    + split; [|split; [done|split; [|split; [|split]]]].
      * case_match; [apply level_push_no_empty|]; by apply pop_front_no_empty.
      * by rewrite <-Hf, <-(frame_execute_trade order rem so (Order.price so) quantity st).
      * eapply fill_of_trans; [done|]. apply fill_of_with_position_size.
      * intros r' Hr'. simpl in Hr'.
        assert (r' = so' ∨ r' ∈ q ++ book_orders rest) as [->|Hin].
        { case_match.
          - rewrite book_orders_level_push, book_orders_pop_front in Hr'.
            by apply elem_of_cons in Hr'.
          - rewrite book_orders_pop_front in Hr'. by right. }
        -- destruct Hso as (r & Hr & Hfill). exists r. split; [done|].
           eapply fill_of_trans; [done|]. apply fill_of_with_position_size.
        -- apply Hsub. rewrite book_orders_cons. apply elem_of_cons. by right.
      * eexists (new ++ [_]). split.
        { simpl. rewrite Hth. by rewrite app_assoc. }
        apply Forall_app. split; [done|]. constructor; [|done].
        destruct Hso as (r & Hr & Hfill). exists r.
        frame_eqs Hf. rewrite Hfill, Hrem. simpl.
        rewrite Hfill in Hage, Hid. rewrite Hrem in Hid. simpl in *.
        repeat split; try done; congruence.
    + fold quantity. destruct (0 <? Order.position_size so - quantity)%float eqn:Hpos.
      * right. unfold buy_cond. simpl. case_match; [done|]. case_match.
        subst quantity. unfold std_min in *.
        destruct (Order.position_size so <? Order.position_size rem)%float.
        { by rewrite sub_self_not_pos in Hpos. }
        rewrite sub_self_not_pos. by rewrite andb_false_r.
      * left. rewrite Hs, book_orders_pop_front, book_orders_cons. simpl. lia.
Qed.

Lemma buy_loop_spec st0 order fuel st rem :
  buy_inv st0 order st rem →
  (length (book_orders (sells st)) < fuel ∨ buy_cond st rem = false)%nat →
  ∃ r, buy_loop fuel order st rem = Ok r
       ∧ buy_inv st0 order r.1 r.2 ∧ buy_cond r.1 r.2 = false.
Proof.
  revert st rem. induction fuel as [|fuel IH]; intros st rem Hinv Hfuel.
  - destruct Hfuel as [?|Hc]; [lia|]. simpl. rewrite Hc. eauto.
  - simpl. destruct (buy_cond st rem) eqn:Hc; [|eauto].
    destruct Hfuel as [Hfuel|?]; [|done].
    destruct (buy_step_defined order st rem) as [r Hr]; [apply Hinv|done|].
    rewrite Hr. simpl.
    destruct (buy_step_inv _ _ _ _ _ Hinv Hr) as [Hinv' Hdec].
    apply IH; [done|]. destruct Hdec; [left; lia | by right].
Qed.

(** ** The loop of the SELL branch *)

Lemma sell_inv_init st0 order :
  no_empty_levels (buys st0) → sell_inv st0 order st0 order.
Proof.
  intros Hne. repeat split; try done.
  - apply fill_of_refl.
  - intros r' Hr'. exists r'. split; [done | apply fill_of_refl].
  - exists []. by rewrite app_nil_r.
Qed.

Lemma sell_step_inv st0 order st rem r :
  sell_inv st0 order st rem → sell_step order st rem = Ok r →
  sell_inv st0 order r.1 r.2
  ∧ (length (book_orders (buys r.1)) < length (book_orders (buys st))
     ∨ sell_cond r.1 r.2 = false)%nat.
Proof.
  intros (Hne & Hb & Hf & Hrem & Hsub & new & Hth & Hnew) Hstep.
  apply sell_step_Ok in Hstep.
  destruct Hstep as [k bo q rest Hs Hwhy | k bo q rest quantity Hs Hid Hage ->];
    simpl; rewrite Hs in Hne, Hsub; apply Forall_cons in Hne as [_ Hne].
  - (* the front order is dropped *)
    split.
    + repeat split; try done.
      * by apply pop_front_no_empty.
      * intros r' Hr'. simpl in Hr'. apply Hsub.
        rewrite book_orders_pop_front in Hr'.
        rewrite book_orders_cons. apply elem_of_cons. by right.
      * eauto.
    + left. rewrite Hs, book_orders_pop_front, book_orders_cons. simpl. lia.
  - (* a trade *)
    set (quantity := std_min (Order.position_size rem) (Order.position_size bo)).
    set (bo' := Order.with_position_size bo (Order.position_size bo - quantity)%float).
    assert (Hbo : ∃ r, r ∈ book_orders (buys st0) ∧ fill_of r bo).
    { apply Hsub. rewrite book_orders_cons. apply elem_of_cons. by left. }
    split.
    + split; [|split; [done|split; [|split; [|split]]]].
      * case_match; [apply level_push_no_empty|]; by apply pop_front_no_empty.
      * by rewrite <-Hf, <-(frame_execute_trade order bo rem (Order.price bo) quantity st).
      * eapply fill_of_trans; [done|]. apply fill_of_with_position_size.
      * intros r' Hr'. simpl in Hr'.
        assert (r' = bo' ∨ r' ∈ q ++ book_orders rest) as [->|Hin].
        { case_match.
          - rewrite book_orders_level_push, book_orders_pop_front in Hr'.
            by apply elem_of_cons in Hr'.
          - rewrite book_orders_pop_front in Hr'. by right. }
        -- destruct Hbo as (r & Hr & Hfill). exists r. split; [done|].
           eapply fill_of_trans; [done|]. apply fill_of_with_position_size.
        -- apply Hsub. rewrite book_orders_cons. apply elem_of_cons. by right.
      * eexists (new ++ [_]). split.
        { simpl. rewrite Hth. by rewrite app_assoc. }
        apply Forall_app. split; [done|]. constructor; [|done].
        destruct Hbo as (r & Hr & Hfill). exists r.
        frame_eqs Hf. rewrite Hfill, Hrem. simpl.
        rewrite Hfill in Hage, Hid. rewrite Hrem in Hid. simpl in *.
        repeat split; try done; congruence.
    + fold quantity. destruct (0 <? Order.position_size bo - quantity)%float eqn:Hpos.
      * right. unfold sell_cond. simpl. case_match; [done|]. case_match.
        subst quantity. unfold std_min in *.
        destruct (Order.position_size bo <? Order.position_size rem)%float.
        { by rewrite sub_self_not_pos in Hpos. }
        rewrite sub_self_not_pos. by rewrite andb_false_r.
      * left. rewrite Hs, book_orders_pop_front, book_orders_cons. simpl. lia.
Qed.

Lemma sell_loop_spec st0 order fuel st rem :
  sell_inv st0 order st rem →
  (length (book_orders (buys st)) < fuel ∨ sell_cond st rem = false)%nat →
  ∃ r, sell_loop fuel order st rem = Ok r
       ∧ sell_inv st0 order r.1 r.2 ∧ sell_cond r.1 r.2 = false.
Proof.
  revert st rem. induction fuel as [|fuel IH]; intros st rem Hinv Hfuel.
  - destruct Hfuel as [?|Hc]; [lia|]. simpl. rewrite Hc. eauto.
  - simpl. destruct (sell_cond st rem) eqn:Hc; [|eauto].
    destruct Hfuel as [Hfuel|?]; [|done].
    destruct (sell_step_defined order st rem) as [r Hr]; [apply Hinv|done|].
    rewrite Hr. simpl.
    destruct (sell_step_inv _ _ _ _ _ Hinv Hr) as [Hinv' Hdec].
    apply IH; [done|]. destruct Hdec; [left; lia | by right].
Qed.

(** ** The whole call *)

Lemma process_buy_spec st order :
  book_clean st → String.eqb (Order.type order) BUY = true →
  ∃ st' new, processed st order st' new
    ∧ book_clean st' ∧ frame st' = frame st ∧ descends st order st'
    ∧ Forall (buy_match st order) new.
Proof.
  intros [Hb Hs] Hty. unfold processed, process_aggressive_order. rewrite Hty.
  destruct (buy_loop_spec st order (S (length (book_orders (sells st)))) st order)
    as ([st' rem] & -> & (Hne & Hbuys & Hf & Hrem & Hsub & new & Hth & Hnew) & _);
    [by apply buy_inv_init | left; lia |].
  simpl in *. eexists _, new. split; [split; [done|]|].
  { by case_match. }
  assert (Hdesc : ∀ r', r' ∈ book_orders (sells st') →
            fill_of order r' ∨ ∃ r, r ∈ resting st ∧ fill_of r r').
  { intros r' Hr'. right. destruct (Hsub r' Hr') as (r & Hr & Hfill).
    exists r. split; [|done]. apply elem_of_app. by right. }
  destruct (0 <? Order.position_size rem)%float; simpl.
  - repeat split; simpl; try done.
    + rewrite Hbuys. by apply level_push_no_empty.
    + intros r' Hr'. unfold resting in Hr'. simpl in Hr'.
      rewrite book_orders_level_push in Hr'.
      apply elem_of_cons in Hr' as [->|Hr']; [by left|].
      apply elem_of_app in Hr' as [Hr'|Hr']; [|by apply Hdesc].
      right. exists r'. split; [|apply fill_of_refl].
      apply elem_of_app. left. by rewrite <-Hbuys.
  - repeat split; try done; [by rewrite Hbuys|].
    intros r' Hr'. apply elem_of_app in Hr' as [Hr'|Hr']; [|by apply Hdesc].
    right. exists r'. split; [|apply fill_of_refl].
    apply elem_of_app. left. by rewrite <-Hbuys.
Qed.

Lemma process_sell_spec st order :
  book_clean st → String.eqb (Order.type order) BUY = false →
  String.eqb (Order.type order) SELL = true →
  ∃ st' new, processed st order st' new
    ∧ book_clean st' ∧ frame st' = frame st ∧ descends st order st'
    ∧ Forall (sell_match st order) new.
Proof.
  intros [Hb Hs] Hnb Hty. unfold processed, process_aggressive_order. rewrite Hnb, Hty.
  destruct (sell_loop_spec st order (S (length (book_orders (buys st)))) st order)
    as ([st' rem] & -> & (Hne & Hsells & Hf & Hrem & Hsub & new & Hth & Hnew) & _);
    [by apply sell_inv_init | left; lia |].
  simpl in *. eexists _, new. split; [split; [done|]|].
  { by case_match. }
  assert (Hdesc : ∀ r', r' ∈ book_orders (buys st') →
            fill_of order r' ∨ ∃ r, r ∈ resting st ∧ fill_of r r').
  { intros r' Hr'. right. destruct (Hsub r' Hr') as (r & Hr & Hfill).
    exists r. split; [|done]. apply elem_of_app. by left. }
  destruct (0 <? Order.position_size rem)%float; simpl.
  - repeat split; simpl; try done.
    + rewrite Hsells. by apply level_push_no_empty.
    + intros r' Hr'. unfold resting in Hr'. simpl in Hr'.
      rewrite book_orders_level_push in Hr'.
      apply elem_of_app in Hr' as [Hr'|Hr']; [by apply Hdesc|].
      apply elem_of_cons in Hr' as [->|Hr']; [by left|].
      right. exists r'. split; [|apply fill_of_refl].
      apply elem_of_app. right. by rewrite <-Hsells.
  - repeat split; try done; [by rewrite Hsells|].
    intros r' Hr'. apply elem_of_app in Hr' as [Hr'|Hr']; [by apply Hdesc|].
    right. exists r'. split; [|apply fill_of_refl].
    apply elem_of_app. right. by rewrite <-Hsells.
Qed.

(** An order that is neither a BUY nor a SELL leaves the state as it is. *)
Lemma process_hold st order :
  String.eqb (Order.type order) BUY = false →
  String.eqb (Order.type order) SELL = false →
  process_aggressive_order st order = Ok st.
Proof. intros Hb Hs. unfold process_aggressive_order. by rewrite Hb, Hs. Qed.

Lemma descends_refl st order : descends st order st.
Proof. intros r' Hr'. right. exists r'. split; [done | apply fill_of_refl]. Qed.

(** Whatever the order, the call is defined on a clean book, keeps it
    clean and writes nothing outside the book, the ledgers and the trade
    statistics. *)
Lemma process_aggressive_order_spec st order :
  book_clean st →
  ∃ st' new, processed st order st' new
    ∧ book_clean st' ∧ frame st' = frame st ∧ descends st order st'
    ∧ Forall (λ t, buy_match st order t ∨ sell_match st order t) new.
Proof.
  intros Hc.
  destruct (String.eqb (Order.type order) BUY) eqn:Hb.
  { destruct (process_buy_spec st order Hc Hb) as (st' & new & ? & ? & ? & ? & Hnew).
    exists st', new. do 4 (split; [done|]).
    eapply Forall_impl; [done|]. by left. }
  destruct (String.eqb (Order.type order) SELL) eqn:Hs.
  { destruct (process_sell_spec st order Hc Hb Hs) as (st' & new & ? & ? & ? & ? & Hnew).
    exists st', new. do 4 (split; [done|]).
    eapply Forall_impl; [done|]. by right. }
  exists st, []. repeat split; try apply Hc.
  - by apply process_hold.
  - by rewrite app_nil_r.
  - apply descends_refl.
  - constructor.
Qed.

(** ** The sample books are clean *)

Lemma demo_market_clean now b s :
  no_empty_levels b → no_empty_levels s → book_clean (demo_market now b s).
Proof. by split. Qed.

Lemma own_bid_market_clean : book_clean own_bid_market.
Proof. apply demo_market_clean; by repeat constructor. Qed.

Lemma ask_market_clean now : book_clean (ask_market now).
Proof. apply demo_market_clean; by repeat constructor. Qed.

(** ** Self-trade avoidance *)

Lemma buy_step_same_owner order st rem k so q rest :
  sells st = (k, so :: q) :: rest →
  Order.trader_id rem = Order.trader_id so →
  buy_step order st rem = Ok (set_sells st (pop_front k q rest), rem).
Proof.
  intros Hs Hid. unfold buy_step. rewrite Hs.
  by destruct (Z.eqb_spec (Order.trader_id rem) (Order.trader_id so)).
Qed.

Lemma sell_step_same_owner order st rem k bo q rest :
  buys st = (k, bo :: q) :: rest →
  Order.trader_id rem = Order.trader_id bo →
  sell_step order st rem = Ok (set_buys st (pop_front k q rest), rem).
Proof.
  intros Hs Hid. unfold sell_step. rewrite Hs.
  by destruct (Z.eqb_spec (Order.trader_id rem) (Order.trader_id bo)).
Qed.

(** C1. On a book without empty levels the call returns, and in every
    trade it appended the buyer differs from the seller. In either loop,
    when the front order of the best opposing level has the owner of the
    incoming order, the iteration gives back the state with that order
    popped (and its level erased if it was the last) and nothing else
    changed: no trade, no ledger write, no entry in the trade history. *)
Theorem no_self_trade st order :
  book_clean st →
  (∃ st' new, processed st order st' new
     ∧ Forall (λ t, Trade.buyer_id t ≠ Trade.seller_id t) new)
  ∧ (∀ rem k so q rest,
       sells st = (k, so :: q) :: rest →
       Order.trader_id rem = Order.trader_id so →
       buy_step order st rem = Ok (set_sells st (pop_front k q rest), rem))
  ∧ (∀ rem k bo q rest,
       buys st = (k, bo :: q) :: rest →
       Order.trader_id rem = Order.trader_id bo →
       sell_step order st rem = Ok (set_buys st (pop_front k q rest), rem)).
Proof.
  intros Hc. split; [|split].
  - destruct (process_aggressive_order_spec st order Hc)
      as (st' & new & Hp & _ & _ & _ & Hnew).
    exists st', new. split; [done|].
    eapply Forall_impl; [done|]. simpl.
    intros t [(r & _ & _ & Hs & _ & Hb & _ & _ & Hne & _)
             |(r & _ & _ & Hb & _ & Hs & _ & _ & Hne & _)]; congruence.
  - intros rem k so q rest Hs Hid.
    exact (buy_step_same_owner order st rem k so q rest Hs Hid).
  - intros rem k bo q rest Hs Hid.
    exact (sell_step_same_owner order st rem k bo q rest Hs Hid).
Qed.

(** The scenario of the specification: trader 0 sells into its own resting
    bid; the bid is dropped, nothing trades, and the ask rests. *)
Lemma no_self_trade_witness :
  ∃ st' new, processed own_bid_market own_ask st' new
    ∧ Forall (λ t, Trade.buyer_id t ≠ Trade.seller_id t) new.
Proof.
  exact (proj1 (no_self_trade own_bid_market own_ask own_bid_market_clean)).
Defined.

Example own_ask_rests :
  process_aggressive_order own_bid_market own_ask
  = Ok (demo_market 3 [] [(100%float, [own_ask])]).
Proof. vm_compute. reflexivity. Qed.


(** The first scenario of the specification: on an empty book a bid for
    10 at 100 rests; an offer of 5 at 99 by another trader then trades 5 at
    100, the price of the bid, of which 5 stay on the book. *)
Example bid_rests_then_trades_at_its_price :
  (λ st', (buys st', sells st', trade_history st'))
    <$> (match run_ops [Submit own_bid; Submit (Order.mk SELL 99 1 3 MeanReverter_t 5)]
                 (demo_market 3 [] []) with
         | Ok st' => Some st' | _ => None end)
  = Some ([(100%float, [Order.with_position_size own_bid 5])], [],
          [Trade.mk 100 5 0 1 3 Monkey_t MeanReverter_t]).
Proof. vm_compute. reflexivity. Qed.

(** A HOLD order changes nothing. *)
Example hold_is_no_op st :
  process_aggressive_order st (Order.mk HOLD (market_price st) 0 (timestep st) Monkey_t 0)
  = Ok st.
Proof. by apply process_hold. Qed.

(** ** Maker pricing *)

(** The trade an iteration appends, if any, read off the front order [so]
    (resp. [bo]) of the best opposing level. *)
Lemma buy_step_trade_history order st rem k so q rest r :
  sells st = (k, so :: q) :: rest →
  buy_step order st rem = Ok r →
  trade_history r.1 = trade_history st
  ∨ ∃ quantity,
      trade_history r.1 = trade_history st ++
        [Trade.mk (Order.price so) quantity (Order.trader_id rem)
           (Order.trader_id so) (timestep st) (Order.trader_type rem)
           (Order.trader_type so)]
      ∧ market_price r.1 = Order.price so.
Proof.
  intros Hs Hstep. apply buy_step_Ok in Hstep.
  destruct Hstep as [k' so' q' rest' Hs' _ | k' so' q' rest' quantity Hs' _ _ _];
    rewrite Hs in Hs'; injection Hs' as <- <- <- <-; [by left|].
  right. by exists quantity.
Qed.

Lemma sell_step_trade_history order st rem k bo q rest r :
  buys st = (k, bo :: q) :: rest →
  sell_step order st rem = Ok r →
  trade_history r.1 = trade_history st
  ∨ ∃ quantity,
      trade_history r.1 = trade_history st ++
        [Trade.mk (Order.price bo) quantity (Order.trader_id bo)
           (Order.trader_id rem) (timestep st) (Order.trader_type bo)
           (Order.trader_type rem)]
      ∧ market_price r.1 = Order.price bo.
Proof.
  intros Hs Hstep. apply sell_step_Ok in Hstep.
  destruct Hstep as [k' bo' q' rest' Hs' _ | k' bo' q' rest' quantity Hs' _ _ _];
    rewrite Hs in Hs'; injection Hs' as <- <- <- <-; [by left|].
  right. by exists quantity.
Qed.

(** C2. On a book without empty levels the call returns, and every trade
    it appended carries the limit price of an order that rested on the
    opposite side and is the maker of the trade: the seller's for an
    incoming BUY, the buyer's for an incoming SELL. Iteration by iteration,
    the trade appended (and the new market price) is at the price of the
    front order of the best opposing level, whatever the price of the
    incoming order. *)
Theorem maker_pricing st order :
  book_clean st →
  (∃ st' new, processed st order st' new
     ∧ (String.eqb (Order.type order) BUY = true →
        Forall (maker_priced (sells st) Trade.seller_id) new)
     ∧ (String.eqb (Order.type order) BUY = false →
        String.eqb (Order.type order) SELL = true →
        Forall (maker_priced (buys st) Trade.buyer_id) new)
     ∧ (String.eqb (Order.type order) BUY = false →
        String.eqb (Order.type order) SELL = false → new = []))
  ∧ (∀ rem k so q rest r,
       sells st = (k, so :: q) :: rest →
       buy_step order st rem = Ok r →
       trade_history r.1 = trade_history st
       ∨ ∃ quantity,
           trade_history r.1 = trade_history st ++
             [Trade.mk (Order.price so) quantity (Order.trader_id rem)
                (Order.trader_id so) (timestep st) (Order.trader_type rem)
                (Order.trader_type so)]
           ∧ market_price r.1 = Order.price so)
  ∧ (∀ rem k bo q rest r,
       buys st = (k, bo :: q) :: rest →
       sell_step order st rem = Ok r →
       trade_history r.1 = trade_history st
       ∨ ∃ quantity,
           trade_history r.1 = trade_history st ++
             [Trade.mk (Order.price bo) quantity (Order.trader_id bo)
                (Order.trader_id rem) (timestep st) (Order.trader_type bo)
                (Order.trader_type rem)]
           ∧ market_price r.1 = Order.price bo).
Proof.
  intros Hc. split; [|split].
  - destruct (String.eqb (Order.type order) BUY) eqn:Hb.
    { destruct (process_buy_spec st order Hc Hb) as (st' & new & Hp & _ & _ & _ & Hnew).
      exists st', new. split; [done|]. split; [|done].
      intros _. eapply Forall_impl; [done|]. simpl.
      intros t (r & Hr & Hprice & Hid & _). by exists r. }
    destruct (String.eqb (Order.type order) SELL) eqn:Hs.
    { destruct (process_sell_spec st order Hc Hb Hs) as (st' & new & Hp & _ & _ & _ & Hnew).
      exists st', new. split; [done|]. split; [done|]. split; [|done].
      intros _ _. eapply Forall_impl; [done|]. simpl.
      intros t (r & Hr & Hprice & Hid & _). by exists r. }
    exists st, []. split; [|done]. split; [by apply process_hold|].
    by rewrite app_nil_r.
  - intros. by eapply buy_step_trade_history.
  - intros. by eapply sell_step_trade_history.
Qed.

Lemma maker_pricing_witness :
  ∃ st' new, processed (ask_market 4) (bid_101 4) st' new
    ∧ Forall (maker_priced (sells (ask_market 4)) Trade.seller_id) new.
Proof.
  destruct (proj1 (maker_pricing (ask_market 4) (bid_101 4) (ask_market_clean 4)))
    as (st' & new & Hp & Hbuy & _).
  exists st', new. split; [exact Hp | exact (Hbuy eq_refl)].
Defined.

(** The bid at 101 trades with the ask at 100, at 100. *)
Example bid_101_trades_at_100 :
  trade_history <$> (match process_aggressive_order (ask_market 4) (bid_101 4) with
                     | Ok st' => Some st' | _ => None end)
  = Some [Trade.mk 100 5 0 1 4 Monkey_t MeanReverter_t].
Proof. vm_compute. reflexivity. Qed.


(** ** Expiry *)

Lemma buy_step_stale order st rem k so q rest :
  sells st = (k, so :: q) :: rest →
  Order.timestep so + max_order_age st < timestep st →
  buy_step order st rem = Ok (set_sells st (pop_front k q rest), rem).
Proof.
  intros Hs Hold. unfold buy_step. rewrite Hs.
  destruct (Order.trader_id rem =? Order.trader_id so); [done|].
  destruct (Z.gtb_spec (timestep st - Order.timestep so) (max_order_age st));
    [done | lia].
Qed.

Lemma sell_step_stale order st rem k bo q rest :
  buys st = (k, bo :: q) :: rest →
  Order.timestep bo + max_order_age st < timestep st →
  sell_step order st rem = Ok (set_buys st (pop_front k q rest), rem).
Proof.
  intros Hs Hold. unfold sell_step. rewrite Hs.
  destruct (Order.trader_id rem =? Order.trader_id bo); [done|].
  destruct (Z.gtb_spec (timestep st - Order.timestep bo) (max_order_age st));
    [done | lia].
Qed.

(** C3. In either loop, when the front order of the best opposing level
    has origin [t] and the clock exceeds [t + max_order_age], the iteration
    gives back the state with that order popped and nothing else changed:
    the trade history, the ledgers and the market price are those of before.
    Over a whole call on a book without empty levels, every trade appended
    has a maker that is not stale. *)
Theorem stale_order_discarded st order :
  book_clean st →
  (∀ rem k so q rest,
     sells st = (k, so :: q) :: rest →
     Order.timestep so + max_order_age st < timestep st →
     buy_step order st rem = Ok (set_sells st (pop_front k q rest), rem)
     ∧ trade_history (set_sells st (pop_front k q rest)) = trade_history st
     ∧ heap (set_sells st (pop_front k q rest)) = heap st
     ∧ market_price (set_sells st (pop_front k q rest)) = market_price st)
  ∧ (∀ rem k bo q rest,
       buys st = (k, bo :: q) :: rest →
       Order.timestep bo + max_order_age st < timestep st →
       sell_step order st rem = Ok (set_buys st (pop_front k q rest), rem)
       ∧ trade_history (set_buys st (pop_front k q rest)) = trade_history st
       ∧ heap (set_buys st (pop_front k q rest)) = heap st
       ∧ market_price (set_buys st (pop_front k q rest)) = market_price st)
  ∧ (∃ st' new, processed st order st' new
       ∧ Forall (λ t,
           maker_fresh (sells st) Trade.seller_id (timestep st) (max_order_age st) t
           ∨ maker_fresh (buys st) Trade.buyer_id (timestep st) (max_order_age st) t)
           new).
Proof.
  intros Hc. split; [|split].
  - intros rem k so q rest Hs Hold.
    split; [exact (buy_step_stale order st rem k so q rest Hs Hold) | done].
  - intros rem k bo q rest Hs Hold.
    split; [exact (sell_step_stale order st rem k bo q rest Hs Hold) | done].
  - destruct (process_aggressive_order_spec st order Hc)
      as (st' & new & Hp & _ & _ & _ & Hnew).
    exists st', new. split; [done|].
    eapply Forall_impl; [done|]. simpl.
    intros t [(r & Hr & _ & Hid & _ & _ & _ & _ & _ & Hage)
             |(r & Hr & _ & Hid & _ & _ & _ & _ & _ & Hage)].
    + left. exists r. repeat split; [done..|lia].
    + right. exists r. repeat split; [done..|lia].
Qed.

(** At tick 9 the ask of tick 3 is older than the 5 ticks allowed. *)
Lemma stale_order_discarded_witness :
  buy_step (bid_101 9) (ask_market 9) (bid_101 9)
  = Ok (set_sells (ask_market 9) [], bid_101 9).
Proof.
  refine (proj1 (proj1 (stale_order_discarded (ask_market 9) (bid_101 9)
            (ask_market_clean 9)) (bid_101 9) 100%float ask_100 [] [] eq_refl _)).
  vm_compute. reflexivity.
Defined.


(** ** Level cleanliness *)

Lemma clear_market_maker_orders_clean st :
  book_clean (clear_market_maker_orders st).
Proof. split; apply remove_mm_orders_no_empty. Qed.

Lemma run_ops_clean ops st :
  book_clean st → ∃ st', run_ops ops st = Ok st' ∧ book_clean st'.
Proof.
  revert st. induction ops as [|[order|] ops IH]; intros st Hc; simpl.
  - eauto.
  - destruct (process_aggressive_order_spec st order Hc)
      as (st1 & new & [-> _] & Hc1 & _).
    simpl. by apply IH.
  - apply IH, clear_market_maker_orders_clean.
Qed.

(** C4. Started on a book without empty levels, any sequence of
    submissions and market-maker clearings is defined and ends on a book
    without empty levels; the clearing leaves none whatever the book was.
    Popping the last order of the front level erases the level, and a push
    creates a level only together with its first order. *)
Theorem level_cleanliness st ops :
  book_clean st →
  (∃ st', run_ops ops st = Ok st' ∧ book_clean st')
  ∧ (∀ order, ∃ st', process_aggressive_order st order = Ok st' ∧ book_clean st')
  ∧ (∀ st0, book_clean (clear_market_maker_orders st0))
  ∧ (∀ k rest, pop_front k [] rest = rest)
  ∧ (∀ comp o m, no_empty_levels m → no_empty_levels (level_push comp o m))
  ∧ (∀ comp o, level_push comp o [] = [(Order.price o, [o])]).
Proof.
  intros Hc. split; [by apply run_ops_clean|].
  split.
  { intros order. destruct (process_aggressive_order_spec st order Hc)
      as (st1 & new & [-> _] & Hc1 & _). eauto. }
  split; [apply clear_market_maker_orders_clean|].
  split; [done|]. split; [|done].
  intros. by apply level_push_no_empty.
Qed.

Lemma level_cleanliness_witness :
  ∃ st', run_ops [Submit (bid_101 4); ClearMarketMakers; Submit own_ask]
           (ask_market 4) = Ok st' ∧ book_clean st'.
Proof.
  exact (proj1 (level_cleanliness (ask_market 4)
           [Submit (bid_101 4); ClearMarketMakers; Submit own_ask]
           (ask_market_clean 4))).
Defined.


(** ** Market-maker quotes and expiry *)

Lemma fill_of_fields r r' :
  fill_of r r' →
  Order.trader_type r' = Order.trader_type r
  ∧ Order.timestep r' = Order.timestep r
  ∧ Order.trader_id r' = Order.trader_id r
  ∧ Order.price r' = Order.price r.
Proof. intros ->. by destruct r. Qed.

Lemma quotes_at_origin_descends st order st' :
  quotes_at_origin (resting st) →
  (Order.trader_type order = MarketMaker_t → Order.timestep order = 0) →
  descends st order st' →
  quotes_at_origin (resting st').
Proof.
  intros Hq Ho Hd r' Hr' Hty.
  destruct (Hd r' Hr') as [Hfill | (r & Hr & Hfill)];
    apply fill_of_fields in Hfill as (Hty' & Hts' & _).
  - rewrite Hts'. apply Ho. congruence.
  - rewrite Hts'. apply Hq; [done | congruence].
Qed.

Lemma quote_at_origin mm p o :
  o ∈ MarketMaker.quote mm p →
  Order.timestep o = 0 ∧ Order.trader_type o = MarketMaker_t.
Proof.
  unfold MarketMaker.quote. intros Ho.
  apply elem_of_cons in Ho as [->|Ho]; [done|].
  by apply list_elem_of_singleton in Ho as ->.
Qed.

(** C10. Both orders of a quote carry origin 0 and the market-maker label.
    In a state whose resting market-maker orders all have origin 0, and
    whose clock exceeds [max_order_age]: an iteration of either loop that
    finds a market-maker order at the front of the best opposing level
    drops it and changes nothing else; a whole call returns and none of the
    trades it appended has a market maker as its maker; and the book still
    has all its market-maker orders at origin 0 if the order submitted was
    a quote or not a market maker's. *)
Theorem market_maker_quotes_expire st order :
  book_clean st →
  quotes_at_origin (resting st) →
  max_order_age st < timestep st →
  (∀ mm p o, o ∈ MarketMaker.quote mm p →
     Order.timestep o = 0 ∧ Order.trader_type o = MarketMaker_t)
  ∧ (∀ rem k so q rest,
       sells st = (k, so :: q) :: rest →
       Order.trader_type so = MarketMaker_t →
       buy_step order st rem = Ok (set_sells st (pop_front k q rest), rem))
  ∧ (∀ rem k bo q rest,
       buys st = (k, bo :: q) :: rest →
       Order.trader_type bo = MarketMaker_t →
       sell_step order st rem = Ok (set_buys st (pop_front k q rest), rem))
  ∧ (∃ st' new, processed st order st' new
       ∧ (String.eqb (Order.type order) BUY = true →
          Forall (λ t, Trade.seller_type t ≠ MarketMaker_t) new)
       ∧ (String.eqb (Order.type order) BUY = false →
          Forall (λ t, Trade.buyer_type t ≠ MarketMaker_t) new)
       ∧ ((Order.trader_type order = MarketMaker_t → Order.timestep order = 0) →
          quotes_at_origin (resting st'))).
Proof.
  intros Hc Hq Hclock. split; [apply quote_at_origin|]. split; [|split].
  - intros rem k so q rest Hs Hty.
    apply (buy_step_stale order st rem k so q rest Hs).
    rewrite (Hq so); [lia| |done].
    apply elem_of_app. right. rewrite Hs, book_orders_cons.
    apply elem_of_cons. by left.
  - intros rem k bo q rest Hs Hty.
    apply (sell_step_stale order st rem k bo q rest Hs).
    rewrite (Hq bo); [lia| |done].
    apply elem_of_app. left. rewrite Hs, book_orders_cons.
    apply elem_of_cons. by left.
  - destruct (String.eqb (Order.type order) BUY) eqn:Hb.
    { destruct (process_buy_spec st order Hc Hb) as (st' & new & Hp & _ & _ & Hd & Hnew).
      exists st', new. split; [done|]. split; [|split; [done|]].
      - intros _. eapply Forall_impl; [done|]. simpl.
        intros t (r & Hr & _ & _ & Hty & _ & _ & _ & _ & Hage) Hmm.
        rewrite (Hq r) in Hage; [lia| |congruence].
        apply elem_of_app. by right.
      - intros Ho. by eapply quotes_at_origin_descends. }
    destruct (String.eqb (Order.type order) SELL) eqn:Hs.
    { destruct (process_sell_spec st order Hc Hb Hs) as (st' & new & Hp & _ & _ & Hd & Hnew).
      exists st', new. split; [done|]. split; [done|]. split.
      - intros _. eapply Forall_impl; [done|]. simpl.
        intros t (r & Hr & _ & _ & Hty & _ & _ & _ & _ & Hage) Hmm.
        rewrite (Hq r) in Hage; [lia| |congruence].
        apply elem_of_app. by left.
      - intros Ho. by eapply quotes_at_origin_descends. }
    exists st, []. split; [|done]. split; [by apply process_hold|].
    by rewrite app_nil_r.
Qed.

Lemma mm_ask_market_clean now : book_clean (mm_ask_market now).
Proof. apply demo_market_clean; by repeat constructor. Qed.

Lemma mm_ask_market_quotes now : quotes_at_origin (resting (mm_ask_market now)).
Proof.
  intros r Hr _. unfold resting in Hr. simpl in Hr.
  by apply list_elem_of_singleton in Hr as ->.
Qed.

(** At tick 9, past the age limit of 5, the bid at 101 finds the market
    maker's ask at 101 and does not trade with it. *)
Lemma market_maker_quotes_expire_witness :
  ∃ st' new, processed (mm_ask_market 9) (bid_101 9) st' new
    ∧ Forall (λ t, Trade.seller_type t ≠ MarketMaker_t) new.
Proof.
  assert (Hclock : max_order_age (mm_ask_market 9) < timestep (mm_ask_market 9))
    by (vm_compute; reflexivity).
  destruct (market_maker_quotes_expire (mm_ask_market 9) (bid_101 9)
              (mm_ask_market_clean 9) (mm_ask_market_quotes 9) Hclock)
    as (_ & _ & _ & st' & new & Hp & Hbuy & _).
  exists st', new. split; [exact Hp | exact (Hbuy eq_refl)].
Defined.

Example mm_ask_dropped_at_9 :
  process_aggressive_order (mm_ask_market 9) (bid_101 9)
  = Ok (demo_market 9 [(101%float, [bid_101 9])] []).
Proof. vm_compute. reflexivity. Qed.

(** Within the age limit the same bid does trade with the market maker. *)
Example mm_ask_trades_at_3 :
  trade_history <$> (match process_aggressive_order (mm_ask_market 3) (bid_101 3) with
                     | Ok st' => Some st' | _ => None end)
  = Some [Trade.mk 101 5 0 100000 3 Monkey_t MarketMaker_t].
Proof. vm_compute. reflexivity. Qed.

(** ** Evolution: survivors and marked ids *)

Lemma get_type_is_trader_type tr : is_trader_type (Trader.get_type tr) = true.
Proof. unfold Trader.get_type. by destruct (Trader.class tr). Qed.

Lemma get_type_three tr : Trader.get_type tr ∈ three_types.
Proof.
  unfold Trader.get_type, three_types.
  destruct (Trader.class tr); set_solver.
Qed.

Lemma size_three_types : size three_types = 3%nat.
Proof. by vm_compute. Qed.

Lemma three_types_full (acc : gmap string Z) T :
  dom acc ⊆ three_types → size acc = 3%nat → T ∈ three_types →
  is_Some (acc !! T).
Proof.
  intros Hsub Hsize HT. apply elem_of_dom.
  rewrite (set_subseteq_size_eq (dom acc) three_types); [done..|].
  rewrite size_dom, Hsize. by rewrite size_three_types.
Qed.

(** The map of survivors holds, for each type, the id of the best-ranked
    trader of that type (next to what it held before). *)
Lemma find_survivors_lookup h sorted acc T :
  T ∈ three_types → dom acc ⊆ three_types →
  find_survivors h sorted acc !! T =
    match acc !! T with
    | Some x => Some x
    | None => (λ p, Trader.get_id (h !!! p)) <$> first_of_type h T sorted
    end.
Proof.
  intros HT. revert acc. induction sorted as [|p rest IH]; intros acc Hdom; simpl.
  { by destruct (acc !! T). }
  rewrite get_type_is_trader_type. simpl.
  set (ty := Trader.get_type (h !!! p)).
  assert (Hdom' : dom (<[ty := Trader.get_id (h !!! p)]> acc) ⊆ three_types).
  { rewrite dom_insert_L. pose proof (get_type_three (h !!! p)). set_solver. }
  case_bool_decide as Hnone; [|].
  - case_bool_decide as Hsize.
    + destruct (String.eqb_spec ty T) as [->|Hne].
      * by rewrite lookup_insert_eq, Hnone.
      * rewrite lookup_insert_ne by done.
        destruct (three_types_full _ T Hdom' Hsize HT) as [x Hx].
        rewrite lookup_insert_ne in Hx by done. by rewrite Hx.
    + rewrite IH by done.
      destruct (String.eqb_spec ty T) as [->|Hne].
      * by rewrite lookup_insert_eq, Hnone.
      * by rewrite lookup_insert_ne.
  - rewrite IH by done.
    destruct (String.eqb_spec ty T) as [->|Hne]; [|done].
    by destruct (acc !! T).
Qed.

Lemma first_of_type_Some h T l p :
  first_of_type h T l = Some p → p ∈ l ∧ Trader.get_type (h !!! p) = T.
Proof.
  induction l as [|q l IH]; simpl; [done|].
  destruct (String.eqb_spec (Trader.get_type (h !!! q)) T) as [Heq|Hne].
  - intros [= ->]. split; [apply elem_of_cons; by left | done].
  - intros [Hin Hty]%IH. split; [apply elem_of_cons; by right | done].
Qed.

Lemma first_of_type_is_Some h T l :
  T ∈ types_of h l → is_Some (first_of_type h T l).
Proof.
  unfold types_of. induction l as [|q l IH]; simpl.
  { by intros ?%elem_of_nil. }
  intros [->|Hin]%elem_of_cons.
  - by rewrite String.eqb_refl.
  - destruct (String.eqb _ T); [done | by apply IH].
Qed.

(** An id is marked only for a trader of the ranking that is not the
    recorded survivor of its type. *)
Lemma mark_kills_elem h surv kill_count l killed id :
  id ∈ mark_kills h surv kill_count l killed →
  ∃ p, p ∈ l ∧ Trader.get_id (h !!! p) = id
       ∧ surv !! Trader.get_type (h !!! p) ≠ Some id.
Proof.
  revert killed. induction l as [|q l IH]; intros killed; simpl.
  { by intros ?%elem_of_nil. }
  destruct (killed <? kill_count); [|by intros ?%elem_of_nil].
  case_bool_decide as Hsurv.
  - intros (p & Hp & Hid)%IH. exists p. split; [apply elem_of_cons; by right | done].
  - intros [->|Hin]%elem_of_cons.
    + exists q. split; [apply elem_of_cons; by left | done].
    + destruct (IH _ Hin) as (p & Hp & Hid).
      exists p. split; [apply elem_of_cons; by right | done].
Qed.

Lemma NoDup_fmap_eq {A B} (f : A → B) (l : list A) x y :
  NoDup (f <$> l) → x ∈ l → y ∈ l → f x = f y → x = y.
Proof.
  induction l as [|a l IH]; simpl; [by intros _ ?%elem_of_nil|].
  intros [Hnotin Hnd]%NoDup_cons [->|Hx]%elem_of_cons [->|Hy]%elem_of_cons Heq;
    [done| | |by apply IH].
  - destruct Hnotin. rewrite Heq. by apply list_elem_of_fmap_2.
  - destruct Hnotin. rewrite <-Heq. by apply list_elem_of_fmap_2.
Qed.

(** The best-ranked trader of each type is never marked. *)
Lemma survivor_not_marked h sorted kill_count T p :
  NoDup (ids_of h sorted) →
  first_of_type h T sorted = Some p →
  Trader.get_id (h !!! p) ∉
    mark_kills h (find_survivors h sorted ∅) kill_count (reverse sorted) 0.
Proof.
  intros Hnd Hfirst Hin.
  destruct (first_of_type_Some _ _ _ _ Hfirst) as [Hp Hty].
  destruct (mark_kills_elem _ _ _ _ _ _ Hin) as (q & Hq & Hid & Hsurv).
  rewrite elem_of_reverse in Hq.
  assert (q = p) as ->.
  { by apply (NoDup_fmap_eq (λ p, Trader.get_id (h !!! p)) sorted). }
  apply Hsurv. rewrite Hty, find_survivors_lookup.
  - by rewrite lookup_empty, Hfirst.
  - rewrite <-Hty. apply get_type_three.
  - rewrite dom_empty_L. set_solver.
Qed.

Lemma mark_kills_ids h surv kill_count l killed :
  Forall (λ id, id ∈ ids_of h l) (mark_kills h surv kill_count l killed).
Proof.
  apply Forall_forall. intros id (p & Hp & <- & _)%mark_kills_elem.
  unfold ids_of. by apply (list_elem_of_fmap_2 (λ p, Trader.get_id (h !!! p))).
Qed.

(** ** Evolution: one replacement *)

Lemma get_id_clone top id : Trader.get_id (clone top id) = id.
Proof. unfold clone. by destruct (Trader.class top). Qed.

Lemma get_type_clone top id :
  Trader.get_type (clone top id) = Trader.get_type top.
Proof. unfold clone, Trader.get_type. by destruct (Trader.class top). Qed.

Lemma ids_of_app_store h c l :
  Forall (λ p, p < length h)%nat l → ids_of (h ++ [c]) l = ids_of h l.
Proof.
  intros Hl. unfold ids_of. apply list_fmap_ext. intros i p Hp.
  rewrite lookup_total_app_l; [done|].
  apply (Forall_lookup_1 _ _ _ _ Hl Hp).
Qed.

(** The roster after the scan: the first entry with the id is the new
    pointer, every other entry is an old one with another id. *)
Lemma replace_first_spec h c id roster :
  Trader.get_id c = id →
  Forall (λ p, p < length h)%nat roster →
  NoDup (ids_of h roster) →
  ids_of (h ++ [c]) (replace_first (h ++ [c]) id (length h) roster)
    = ids_of h roster
  ∧ length (replace_first (h ++ [c]) id (length h) roster) = length roster
  ∧ Forall (λ q, q = length h ∨ (q ∈ roster ∧ Trader.get_id (h !!! q) ≠ id))
      (replace_first (h ++ [c]) id (length h) roster)
  ∧ (∀ p, p ∈ roster → Trader.get_id (h !!! p) ≠ id →
       p ∈ replace_first (h ++ [c]) id (length h) roster).
Proof.
  intros Hc. induction roster as [|p rest IH]; simpl; intros Hvalid Hnd.
  { repeat split; [constructor | by intros ? ?%elem_of_nil]. }
  apply Forall_cons in Hvalid as [Hp Hvalid].
  apply NoDup_cons in Hnd as [Hnotin Hnd].
  rewrite (lookup_total_app_l h [c] p Hp).
  destruct (Z.eqb_spec (Trader.get_id (h !!! p)) id) as [Heq|Hne].
  - split; [|split; [done|split]].
    + simpl. rewrite list_lookup_total_middle by done.
      rewrite Hc, Heq. f_equal. by apply ids_of_app_store.
    + constructor; [by left|].
      apply Forall_forall. intros q Hq. right.
      split; [apply elem_of_cons; by right|].
      intros Hid. apply Hnotin. rewrite Heq, <-Hid.
      by apply (list_elem_of_fmap_2 (λ p, Trader.get_id (h !!! p))).
    + intros q [->|Hq]%elem_of_cons Hid; [done|].
      apply elem_of_cons. by right.
  - destruct (IH Hvalid Hnd) as (Hids & Hlen & Hall & Hkeep).
    split; [|split; [|split]].
    + simpl. rewrite (lookup_total_app_l h [c] p Hp). f_equal. apply Hids.
    + simpl. by rewrite Hlen.
    + constructor.
      * right. split; [apply elem_of_cons; by left | done].
      * eapply Forall_impl; [done|]. simpl. intros q [->|[Hq Hid]]; [by left|].
        right. split; [apply elem_of_cons; by right | done].
    + intros q [->|Hq]%elem_of_cons Hid; apply elem_of_cons; [by left|].
      right. by apply Hkeep.
Qed.

Lemma replace_trader_spec top st id :
  roster_wf st →
  id ∈ ids_of (heap st) (traders st) →
  roster_wf (replace_trader top st id)
  ∧ ids_of (heap (replace_trader top st id)) (traders (replace_trader top st id))
      = ids_of (heap st) (traders st)
  ∧ length (traders (replace_trader top st id)) = length (traders st)
  ∧ dom (trader_map (replace_trader top st id)) = dom (trader_map st)
  ∧ outside_roster (replace_trader top st id) = outside_roster st
  ∧ heap (replace_trader top st id) = heap st ++ [clone (heap st !!! top) id]
  ∧ (∀ p, p ∈ traders st → Trader.get_id (heap st !!! p) ≠ id →
       p ∈ traders (replace_trader top st id)).
Proof.
  intros (Hvalid & Hnd & Hmap) Hid.
  set (c := clone (heap st !!! top) id).
  destruct (replace_first_spec (heap st) c id (traders st)
              (get_id_clone _ _) Hvalid Hnd) as (Hids & Hlen & Hall & Hkeep).
  unfold replace_trader. fold c. simpl.
  split; [|split; [done|split; [done|split; [|done]]]].
  - (* the roster is well formed again *)
    split; [|split]; simpl.
    + eapply Forall_impl; [exact Hall|]. simpl. intros q [->|[Hq _]].
      * rewrite length_app. simpl. lia.
      * rewrite length_app. simpl.
        pose proof (proj1 (Forall_forall _ _) Hvalid q Hq). simpl in *. lia.
    + by rewrite Hids.
    + eapply Forall_impl; [exact Hall|]. simpl. intros q [->|[Hq Hne]].
      * rewrite list_lookup_total_middle by done.
        unfold c. rewrite get_id_clone. by rewrite lookup_insert_eq.
      * pose proof (proj1 (Forall_forall _ _) Hvalid q Hq) as Hlt. simpl in Hlt.
        rewrite (lookup_total_app_l _ _ _ Hlt).
        rewrite lookup_insert_ne by done.
        exact (proj1 (Forall_forall _ _) Hmap q Hq).
  - (* the map has the keys it had *)
    apply list_elem_of_fmap in Hid as (p & -> & Hp).
    pose proof (proj1 (Forall_forall _ _) Hmap p Hp) as Hlookup. simpl in Hlookup.
    rewrite dom_insert_L.
    assert (Trader.get_id (heap st !!! p) ∈ dom (trader_map st)).
    { apply elem_of_dom. eauto. }
    set_solver.
Qed.

(** ** Evolution: all replacements *)

Lemma evolve_fold top to_kill st :
  roster_wf st →
  Forall (λ id, id ∈ ids_of (heap st) (traders st)) to_kill →
  roster_wf (foldl (replace_trader top) st to_kill)
  ∧ ids_of (heap (foldl (replace_trader top) st to_kill))
      (traders (foldl (replace_trader top) st to_kill))
      = ids_of (heap st) (traders st)
  ∧ length (traders (foldl (replace_trader top) st to_kill)) = length (traders st)
  ∧ dom (trader_map (foldl (replace_trader top) st to_kill)) = dom (trader_map st)
  ∧ outside_roster (foldl (replace_trader top) st to_kill) = outside_roster st
  ∧ (∀ p, p ∈ traders st → Trader.get_id (heap st !!! p) ∉ to_kill →
       p ∈ traders (foldl (replace_trader top) st to_kill)
       ∧ heap (foldl (replace_trader top) st to_kill) !!! p = heap st !!! p).
Proof.
  revert st. induction to_kill as [|id rest IH]; intros st Hwf Hids; simpl.
  { done. }
  apply Forall_cons in Hids as [Hid Hrest].
  destruct (replace_trader_spec top st id Hwf Hid)
    as (Hwf1 & Hids1 & Hlen1 & Hdom1 & Hout1 & Hheap1 & Hkeep1).
  destruct (IH (replace_trader top st id) Hwf1) as (Hwf' & Hids' & Hlen' & Hdom' & Hout' & Hkeep').
  { by rewrite Hids1. }
  split; [done|]. split; [by rewrite Hids'|]. split; [by rewrite Hlen'|].
  split; [by rewrite Hdom'|]. split; [by rewrite Hout'|].
  intros p Hp Hnot.
  apply not_elem_of_cons in Hnot as [Hne Hnot].
  assert (Hsame : heap (replace_trader top st id) !!! p = heap st !!! p).
  { rewrite Hheap1. apply lookup_total_app_l.
    destruct Hwf as (Hvalid & _). exact (proj1 (Forall_forall _ _) Hvalid p Hp). }
  destruct (Hkeep' p) as [Hin Heq].
  - by apply Hkeep1.
  - by rewrite Hsame.
  - split; [done|]. by rewrite Heq.
Qed.

Section EvolutionProofs.
Variable std_sort : (ptr → ptr → bool) → list ptr → list ptr.
Hypothesis std_sort_perm : ∀ comp l, std_sort comp l ≡ₚ l.

Lemma evolve_traders_spec st :
  roster_wf st → evolve_defined st →
  ∃ st', evolve_traders std_sort st = Ok st'
    ∧ roster_wf st'
    ∧ ids_of (heap st') (traders st') = ids_of (heap st) (traders st)
    ∧ length (traders st') = length (traders st)
    ∧ dom (trader_map st') = dom (trader_map st)
    ∧ outside_roster st' = outside_roster st
    ∧ (∀ T p, first_of_type (heap st) T (ranking std_sort st) = Some p →
         p ∈ traders st' ∧ heap st' !!! p = heap st !!! p).
Proof.
  intros Hwf [Hperiod Hdue]. unfold evolve_traders.
  destruct (Z.eqb_spec (evolution_ticks st) 0) as [|_]; [done|].
  destruct (Z.eqb_spec (Z.rem (timestep st) (evolution_ticks st)) 0) as [Hgate|_];
    simpl.
  2:{ exists st. do 6 (split; [done|]). intros T p Hfirst. split; [|done].
      apply first_of_type_Some in Hfirst as [Hp _].
      unfold ranking in Hp. by rewrite std_sort_perm in Hp. }
  destruct (Hdue Hgate) as [Hne [kill_count Hkc]].
  fold (ranking std_sort st).
  assert (Hperm : ranking std_sort st ≡ₚ traders st) by apply std_sort_perm.
  rewrite (Permutation_length Hperm), Hkc.
  destruct (ranking std_sort st) as [|top rest] eqn:Hrank.
  { apply Permutation_nil_l in Hperm. by destruct Hne. }
  rewrite <-Hrank in *. clear Hrank rest.
  set (to_kill := mark_kills (heap st) (find_survivors (heap st) (ranking std_sort st) ∅)
                    kill_count (reverse (ranking std_sort st)) 0).
  assert (Hids : Forall (λ id, id ∈ ids_of (heap st) (traders st)) to_kill).
  { eapply Forall_impl; [apply mark_kills_ids|]. simpl. intros id.
    unfold ids_of. by rewrite reverse_Permutation, Hperm. }
  destruct (evolve_fold top to_kill st Hwf Hids)
    as (Hwf' & Hids' & Hlen' & Hdom' & Hout' & Hkeep').
  eexists. split; [done|]. do 5 (split; [done|]).
  intros T p Hfirst. apply Hkeep'.
  - apply first_of_type_Some in Hfirst as [Hp _]. by rewrite <-Hperm.
  - apply (survivor_not_marked _ _ _ T); [|done].
    destruct Hwf as (_ & Hnd & _). unfold ids_of. by rewrite Hperm.
Qed.

(** The types present before an evolution step are present after it. *)
Lemma evolve_traders_types st st' T :
  roster_wf st → evolve_defined st →
  evolve_traders std_sort st = Ok st' →
  T ∈ types_of (heap st) (traders st) →
  T ∈ types_of (heap st') (traders st').
Proof.
  intros Hwf Hdef Hev HT.
  destruct (evolve_traders_spec st Hwf Hdef) as (st'' & Hev' & _ & _ & _ & _ & _ & Hkeep).
  rewrite Hev in Hev'. injection Hev' as <-.
  destruct (first_of_type_is_Some (heap st) T (ranking std_sort st)) as [p Hp].
  { unfold types_of, ranking. by rewrite std_sort_perm. }
  destruct (Hkeep T p Hp) as [Hin Heq].
  apply first_of_type_Some in Hp as [_ <-]. rewrite <-Heq.
  unfold types_of. by apply (list_elem_of_fmap_2 (λ p, Trader.get_type (heap st' !!! p))).
Qed.

End EvolutionProofs.

(** ** The tick *)

Lemma frame_identity st st' p :
  frame st' = frame st →
  identity_of (heap st' !!! p) = identity_of (heap st !!! p).
Proof.
  intros Hf. frame_eqs Hf.
  assert (Hp : identity_of <$> heap st' !! p = identity_of <$> heap st !! p).
  { rewrite <-!list_lookup_fmap. congruence. }
  rewrite !list_lookup_total_alt.
  destruct (heap st' !! p), (heap st !! p); simpl in *; congruence.
Qed.

Lemma frame_roster st st' :
  frame st' = frame st →
  ids_of (heap st') (traders st') = ids_of (heap st) (traders st)
  ∧ types_of (heap st') (traders st') = types_of (heap st) (traders st)
  ∧ (roster_wf st → roster_wf st').
Proof.
  intros Hf.
  assert (Hid : ∀ p, Trader.get_id (heap st' !!! p) = Trader.get_id (heap st !!! p)
                   ∧ Trader.get_type (heap st' !!! p) = Trader.get_type (heap st !!! p)).
  { intros p. pose proof (frame_identity st st' p Hf) as Hp.
    unfold identity_of in Hp. injection Hp as Hi _ Hc.
    unfold Trader.get_id, Trader.get_type. by rewrite Hi, Hc. }
  assert (Hlen : length (heap st') = length (heap st)).
  { frame_eqs Hf. rewrite <-(length_fmap identity_of (heap st')).
    rewrite <-(length_fmap identity_of (heap st)). congruence. }
  assert (Htr : traders st' = traders st) by (frame_eqs Hf; done).
  assert (Htm : trader_map st' = trader_map st) by (frame_eqs Hf; done).
  assert (Hids : ids_of (heap st') (traders st') = ids_of (heap st) (traders st)).
  { unfold ids_of. rewrite Htr. apply list_fmap_ext. intros _ p _. apply Hid. }
  split; [done|]. split.
  { unfold types_of. rewrite Htr. apply list_fmap_ext. intros _ p _. apply Hid. }
  intros (Hvalid & Hnd & Hmap). split; [|split].
  - rewrite Htr, Hlen. done.
  - by rewrite Hids.
  - rewrite Htr, Htm. eapply Forall_impl; [done|]. simpl. intros p Hp.
    by rewrite (proj1 (Hid p)).
Qed.

Lemma process_orders_of_spec orders st :
  book_clean st →
  ∃ st', process_orders_of st orders = Ok st'
    ∧ book_clean st' ∧ frame st' = frame st.
Proof.
  revert st. induction orders as [|o rest IH]; intros st Hc; simpl; [eauto|].
  destruct (process_aggressive_order_spec st o Hc)
    as (st1 & new & [-> _] & Hc1 & Hf1 & _). simpl.
  destruct (IH st1 Hc1) as (st' & -> & Hc' & Hf').
  exists st'. split; [done|]. split; [done|]. by rewrite Hf'.
Qed.

Lemma quote_all_spec mms st :
  book_clean st →
  ∃ st', quote_all mms st = Ok st' ∧ book_clean st' ∧ frame st' = frame st.
Proof.
  revert st. induction mms as [|mm rest IH]; intros st Hc; [simpl; eauto|].
  cbn [quote_all].
  destruct (process_orders_of_spec (MarketMaker.quote mm (market_price st)) st Hc)
    as (st1 & -> & Hc1 & Hf1). simpl.
  destruct (IH st1 Hc1) as (st' & -> & Hc' & Hf').
  exists st'. split; [done|]. split; [done|]. by rewrite Hf'.
Qed.

Section TickProofs.
Variable std_sort : (ptr → ptr → bool) → list ptr → list ptr.
Hypothesis std_sort_perm : ∀ comp l, std_sort comp l ≡ₚ l.
Variable Gen : Type.
Variable make_order :
  Trader.t → double → double → double → list MarketTick.t → Z → Gen → Order.t * Gen.

Lemma trade_all_spec roster st g :
  book_clean st →
  ∃ st' g', trade_all Gen make_order roster st g = Ok (st', g')
    ∧ book_clean st' ∧ frame st' = frame st.
Proof.
  revert st g. induction roster as [|p rest IH]; intros st g Hc; simpl; [eauto|].
  destruct (process_aggressive_order_spec st
              (make_order (heap st !!! p) (market_price st) (get_best_bid st)
                 (get_best_ask st) (tick_history st) (timestep st) g).1 Hc)
    as (st1 & new & [-> _] & Hc1 & Hf1 & _). simpl.
  destruct (IH st1 (make_order (heap st !!! p) (market_price st) (get_best_bid st)
                 (get_best_ask st) (tick_history st) (timestep st) g).2 Hc1)
    as (st' & g' & -> & Hc' & Hf').
  exists st', g'. split; [done|]. split; [done|]. by rewrite Hf'.
Qed.

(** A defined tick on a well-formed roster returns; the roster stays well
    formed with the same ids in the same slots, the map keeps its keys, the
    clock advances by one, the book has no empty level, and one snapshot,
    taken on the final state, is appended to the tick history. *)
Lemma tick_spec st g :
  roster_wf st → tick_defined st →
  ∃ st' g', tick std_sort Gen make_order st g = Ok (st', g')
    ∧ config st' = config st
    ∧ roster_wf st'
    ∧ ids_of (heap st') (traders st') = ids_of (heap st) (traders st)
    ∧ length (traders st') = length (traders st)
    ∧ dom (trader_map st') = dom (trader_map st)
    ∧ timestep st' = timestep st + 1
    ∧ book_clean st'
    ∧ tick_history st' = tick_history st ++ [tick_snapshot st'].
Proof.
  intros Hwf [Hwe Hev]. unfold tick.
  set (st0 := reset_tick_volumes (clear_market_maker_orders st)).
  assert (Hc0 : book_clean st0) by apply (clear_market_maker_orders_clean st).
  assert (Hf0 : frame st0 = frame st) by done.
  destruct (quote_all_spec (market_makers st0) st0 Hc0) as (st1 & -> & Hc1 & Hf1).
  simpl.
  destruct (trade_all_spec (traders st1) st1 g Hc1) as (st2 & g' & -> & Hc2 & Hf2).
  simpl.
  assert (Hf : frame st2 = frame st) by (by rewrite Hf2, Hf1).
  set (st2' := set_timestep st2 (timestep st2 + 1)).
  destruct (frame_roster st st2 Hf) as (Hids2 & _ & Hwf2).
  assert (Hwf2' : roster_wf st2') by (by apply Hwf2).
  assert (Hfields : evolve st2 = evolve st ∧ write_every st2 = write_every st
            ∧ timestep st2 = timestep st ∧ evolution_ticks st2 = evolution_ticks st
            ∧ traders st2 = traders st ∧ kill_percentage st2 = kill_percentage st
            ∧ tick_history st2 = tick_history st ∧ trader_map st2 = trader_map st
            ∧ max_order_age st2 = max_order_age st
            ∧ market_makers st2 = market_makers st).
  { frame_eqs Hf. done. }
  destruct Hfields as (Hev2 & Hwe2 & Hts2 & Het2 & Htr2 & Hkp2 & Hth2 & Htm2
                       & Hmoa2 & Hmm2).
  assert (∃ st3, (if evolve st2 then evolve_traders std_sort st2' else Ok st2') = Ok st3
            ∧ roster_wf st3
            ∧ ids_of (heap st3) (traders st3) = ids_of (heap st2') (traders st2')
            ∧ length (traders st3) = length (traders st2')
            ∧ dom (trader_map st3) = dom (trader_map st2')
            ∧ outside_roster st3 = outside_roster st2')
    as (st3 & -> & Hwf3 & Hids3 & Hlen3 & Hdom3 & Hout3).
  { destruct (evolve st2) eqn:Hon; [|by exists st2'].
    assert (Hdef : evolve_defined st2').
    { unfold evolve_defined in *. simpl in *.
      rewrite Hts2, Het2, Htr2, Hkp2. apply Hev. congruence. }
    destruct (evolve_traders_spec std_sort std_sort_perm st2' Hwf2' Hdef)
      as (st3 & ? & ? & ? & ? & ? & ? & _).
    by exists st3. }
  simpl. unfold outside_roster in Hout3. simpl in Hout3.
  injection Hout3 as Hts3 _ Het3 Hev3 Hkp3 Hwe3 Hmoa3 _ _ _ Hmm3 Hb3 Hs3 _ Hth3.
  destruct (Z.eqb_spec (write_every st3) 0) as [Hz|_]; [congruence|].
  eexists _, _. split; [done|]. simpl.
  split; [unfold config; simpl; congruence|].
  split; [done|]. split; [by rewrite Hids3|].
  split; [rewrite Hlen3; simpl; by rewrite Htr2|].
  split; [rewrite Hdom3; simpl; by rewrite Htm2|].
  split; [lia|].
  split; [split; simpl; rewrite ?Hb3, ?Hs3; apply Hc2|].
  by rewrite Hth3, Hth2.
Qed.

Lemma run_defined_tick_defined st : run_defined st → tick_defined st.
Proof.
  intros [Hwe Hev]. split; [done|]. intros Hon.
  destruct (Hev Hon) as (Het & Htr & Hkc). by split.
Qed.

(** Any number of ticks of a run that is defined returns, with the roster
    as it was: same length, same ids slot by slot, same keys in the map. *)
Lemma run_ticks_spec n st g :
  roster_wf st → run_defined st →
  ∃ st' g', run_ticks std_sort Gen make_order n st g = Ok (st', g')
    ∧ roster_wf st'
    ∧ ids_of (heap st') (traders st') = ids_of (heap st) (traders st)
    ∧ length (traders st') = length (traders st)
    ∧ dom (trader_map st') = dom (trader_map st)
    ∧ timestep st' = timestep st + Z.of_nat n.
Proof.
  revert st g. induction n as [|n IH]; intros st g Hwf Hrun.
  { exists st, g. simpl. do 5 (split; [done|]). lia. }
  cbn [run_ticks].
  destruct (tick_spec st g Hwf (run_defined_tick_defined st Hrun))
    as (st1 & g1 & -> & Hcfg & Hwf1 & Hids1 & Hlen1 & Hdom1 & Hts1 & _).
  simpl.
  assert (Hrun1 : run_defined st1).
  { unfold config in Hcfg. injection Hcfg as Het Hev Hkp Hwe _ _.
    destruct Hrun as [Hw He]. unfold run_defined.
    rewrite Hwe, Hev, Het, Hkp, Hlen1. split; [done|].
    intros Hon. destruct (He Hon) as (? & Hne & ?). split; [done|]. split; [|done].
    intros Hnil. apply Hne. apply length_zero_iff_nil.
    rewrite <-Hlen1, Hnil. done. }
  destruct (IH st1 g1 Hwf1 Hrun1) as (st' & g' & -> & Hwf' & Hids' & Hlen' & Hdom' & Hts').
  exists st', g'. split; [done|]. split; [done|].
  split; [by rewrite Hids'|]. split; [by rewrite Hlen'|].
  split; [by rewrite Hdom'|]. lia.
Qed.

End TickProofs.

(** ** The sample sort and the sample roster *)

Lemma insert_sorted_perm comp x l : insert_sorted comp x l ≡ₚ x :: l.
Proof.
  induction l as [|y l IH]; simpl; [done|].
  destruct (comp y x); [|done].
  rewrite IH. apply Permutation_swap.
Qed.

Lemma insertion_sort_perm comp l : insertion_sort comp l ≡ₚ l.
Proof.
  unfold insertion_sort. induction l as [|x l IH]; simpl; [done|].
  by rewrite insert_sorted_perm, IH.
Qed.

(** A closed decidable statement, settled by evaluation. *)
Ltac by_evaluation :=
  match goal with
  | |- ?P => refine (@bool_decide_unpack P _ _); vm_compute; exact I
  end.

Lemma evolve_market_wf now : roster_wf (evolve_market now).
Proof.
  split; [|split].
  - by_evaluation.
  - by_evaluation.
  - repeat constructor.
Qed.

Lemma evolve_market_defined : evolve_defined (evolve_market 10).
Proof.
  split; [done|]. intros _. split; [done|].
  exists 3. by vm_compute.
Qed.

Lemma evolve_market_tick_defined : tick_defined (evolve_market 9).
Proof. split; [done|]. intros _. apply evolve_market_defined. Qed.

(** ** Evolution keeps one trader of each type *)

(** C5. For an evolution step that is defined, on a well-formed roster
    that holds a Monkey, a MeanReverter and a MomentumTrader, and whatever
    permutation the sort returns among traders of equal value (and whatever
    the kill fraction): the step returns and the roster still holds one of
    each. The survivor recorded for a type is the best-ranked trader of that
    type; its id is not among the ids marked, whatever the kill count and
    its own rank; and it is still in the roster afterwards, the same
    object. *)
Theorem evolution_diversity_floor std_sort st :
  (∀ comp l, std_sort comp l ≡ₚ l) →
  roster_wf st → evolve_defined st →
  Monkey_t ∈ types_of (heap st) (traders st) →
  MeanReverter_t ∈ types_of (heap st) (traders st) →
  MomentumTrader_t ∈ types_of (heap st) (traders st) →
  (∃ st', evolve_traders std_sort st = Ok st'
     ∧ Monkey_t ∈ types_of (heap st') (traders st')
     ∧ MeanReverter_t ∈ types_of (heap st') (traders st')
     ∧ MomentumTrader_t ∈ types_of (heap st') (traders st')
     ∧ (∀ T p, first_of_type (heap st) T (ranking std_sort st) = Some p →
          p ∈ traders st' ∧ heap st' !!! p = heap st !!! p))
  ∧ (∀ T, T ∈ three_types →
       find_survivors (heap st) (ranking std_sort st) ∅ !! T
       = (λ p, Trader.get_id (heap st !!! p))
           <$> first_of_type (heap st) T (ranking std_sort st))
  ∧ (∀ T p kill_count,
       first_of_type (heap st) T (ranking std_sort st) = Some p →
       Trader.get_id (heap st !!! p) ∉
         mark_kills (heap st) (find_survivors (heap st) (ranking std_sort st) ∅)
           kill_count (reverse (ranking std_sort st)) 0).
Proof.
  intros Hperm Hwf Hdef Hmonkey Hrev Hmom. split; [|split].
  - destruct (evolve_traders_spec std_sort Hperm st Hwf Hdef)
      as (st' & Hev & _ & _ & _ & _ & _ & Hkeep).
    exists st'. split; [done|].
    split; [by apply (evolve_traders_types std_sort Hperm st)|].
    split; [by apply (evolve_traders_types std_sort Hperm st)|].
    split; [by apply (evolve_traders_types std_sort Hperm st)|done].
  - intros T HT. rewrite find_survivors_lookup; [by rewrite lookup_empty|done|].
    rewrite dom_empty_L. set_solver.
  - intros T p kill_count Hfirst. apply (survivor_not_marked _ _ _ T); [|done].
    destruct Hwf as (_ & Hnd & _). unfold ids_of, ranking. by rewrite Hperm.
Qed.

(** With five traders and a kill fraction of one half, three are to go;
    the last of the ranking is the only MomentumTrader and stays. *)
Lemma evolution_diversity_floor_witness :
  ∃ st', evolve_traders insertion_sort (evolve_market 10) = Ok st'
    ∧ Monkey_t ∈ types_of (heap st') (traders st')
    ∧ MeanReverter_t ∈ types_of (heap st') (traders st')
    ∧ MomentumTrader_t ∈ types_of (heap st') (traders st')
    ∧ (∀ T p, first_of_type (heap (evolve_market 10)) T
                (ranking insertion_sort (evolve_market 10)) = Some p →
         p ∈ traders st' ∧ heap st' !!! p = heap (evolve_market 10) !!! p).
Proof.
  refine (proj1 (evolution_diversity_floor insertion_sort (evolve_market 10)
            insertion_sort_perm (evolve_market_wf 10) evolve_market_defined _ _ _));
    by_evaluation.
Defined.

Example evolve_market_evolved :
  (λ st', (traders st', types_of (heap st') (traders st'),
           ids_of (heap st') (traders st')))
    <$> (match evolve_traders insertion_sort (evolve_market 10) with
         | Ok st' => Some st' | _ => None end)
  = Some ([0; 5; 2; 6; 4]%nat,
          [Monkey_t; Monkey_t; MomentumTrader_t; Monkey_t; MeanReverter_t],
          [0; 1; 2; 3; 4]).
Proof. vm_compute. reflexivity. Qed.

(** ** Roster stability *)

Lemma replace_first_insert h id new roster i p :
  NoDup (ids_of h roster) →
  roster !! i = Some p → Trader.get_id (h !!! p) = id →
  replace_first h id new roster = <[i := new]> roster.
Proof.
  revert i. induction roster as [|q rest IH]; intros i Hnd Hi Hid; [done|].
  simpl in Hnd. apply NoDup_cons in Hnd as [Hnotin Hnd]. simpl.
  destruct i as [|j]; simpl in *.
  - injection Hi as ->. by rewrite Hid, Z.eqb_refl.
  - destruct (Z.eqb_spec (Trader.get_id (h !!! q)) id) as [Heq|Hne].
    + destruct Hnotin. rewrite Heq, <-Hid.
      apply (list_elem_of_fmap_2 (λ p, Trader.get_id (h !!! p))).
      by eapply list_elem_of_lookup_2.
    + f_equal. by apply IH.
Qed.

(** C6. On a well-formed roster, and whatever permutation the sort
    returns among traders of equal value: a defined evolution step and a
    defined tick return, and leave the roster with its length, the same ids
    in the same slots, a map with the same keys, and well formed again; so
    does any number of ticks in a row of a run that is defined.
    A replacement for the id of the trader in slot [i] allocates the clone
    with that id and writes the new pointer into slot [i] and under the id
    in the map. A call of the matching engine leaves the roster, the map
    and the ids alone. *)
Theorem roster_stability std_sort Gen make_order st g :
  (∀ comp l, std_sort comp l ≡ₚ l) →
  roster_wf st →
  (evolve_defined st →
   ∃ st', evolve_traders std_sort st = Ok st'
     ∧ length (traders st') = length (traders st)
     ∧ ids_of (heap st') (traders st') = ids_of (heap st) (traders st)
     ∧ dom (trader_map st') = dom (trader_map st)
     ∧ roster_wf st')
  ∧ (tick_defined st →
     ∃ st' g', tick std_sort Gen make_order st g = Ok (st', g')
       ∧ length (traders st') = length (traders st)
       ∧ ids_of (heap st') (traders st') = ids_of (heap st) (traders st)
       ∧ dom (trader_map st') = dom (trader_map st)
       ∧ roster_wf st')
  ∧ (run_defined st →
     ∀ n, ∃ st' g', run_ticks std_sort Gen make_order n st g = Ok (st', g')
       ∧ length (traders st') = length (traders st)
       ∧ ids_of (heap st') (traders st') = ids_of (heap st) (traders st)
       ∧ dom (trader_map st') = dom (trader_map st)
       ∧ roster_wf st')
  ∧ (∀ top i p,
       traders st !! i = Some p →
       traders (replace_trader top st (Trader.get_id (heap st !!! p)))
         = <[i := length (heap st)]> (traders st)
       ∧ trader_map (replace_trader top st (Trader.get_id (heap st !!! p)))
         = <[Trader.get_id (heap st !!! p) := length (heap st)]> (trader_map st)
       ∧ heap (replace_trader top st (Trader.get_id (heap st !!! p)))
           !!! length (heap st)
         = clone (heap st !!! top) (Trader.get_id (heap st !!! p))
       ∧ Trader.get_id (clone (heap st !!! top) (Trader.get_id (heap st !!! p)))
         = Trader.get_id (heap st !!! p))
  ∧ (∀ order, book_clean st →
       ∃ st', process_aggressive_order st order = Ok st'
         ∧ traders st' = traders st
         ∧ trader_map st' = trader_map st
         ∧ ids_of (heap st') (traders st') = ids_of (heap st) (traders st)).
Proof.
  intros Hperm Hwf. split; [|split; [|split; [|split]]].
  - intros Hdef.
    destruct (evolve_traders_spec std_sort Hperm st Hwf Hdef)
      as (st' & Hev & Hwf' & Hids & Hlen & Hdom & _).
    by exists st'.
  - intros Hdef.
    destruct (tick_spec std_sort Hperm Gen make_order st g Hwf Hdef)
      as (st' & g' & Ht & _ & Hwf' & Hids & Hlen & Hdom & _).
    by exists st', g'.
  - intros Hrun n.
    destruct (run_ticks_spec std_sort Hperm Gen make_order n st g Hwf Hrun)
      as (st' & g' & Ht & Hwf' & Hids & Hlen & Hdom & _).
    by exists st', g'.
  - intros top i p Hi. destruct Hwf as (Hvalid & Hnd & _).
    unfold replace_trader. simpl.
    split; [|split; [done|split]].
    + apply (replace_first_insert _ _ _ _ i p); [|done|].
      * by rewrite ids_of_app_store.
      * rewrite lookup_total_app_l; [done|].
        apply (Forall_lookup_1 _ _ _ _ Hvalid Hi).
    + by rewrite list_lookup_total_middle.
    + apply get_id_clone.
  - intros order Hc.
    destruct (process_aggressive_order_spec st order Hc)
      as (st' & new & [Hp _] & _ & Hf & _).
    exists st'. split; [done|].
    destruct (frame_roster st st' Hf) as (Hids & _).
    frame_eqs Hf. done.
Qed.

(** A tick from clock 9 to clock 10, at which evolution is due. *)
Lemma roster_stability_witness :
  ∃ st' g', tick insertion_sort nat demo_make_order (evolve_market 9) 0%nat
              = Ok (st', g')
    ∧ length (traders st') = length (traders (evolve_market 9))
    ∧ ids_of (heap st') (traders st')
      = ids_of (heap (evolve_market 9)) (traders (evolve_market 9))
    ∧ dom (trader_map st') = dom (trader_map (evolve_market 9))
    ∧ roster_wf st'.
Proof.
  exact (proj1 (proj2 (roster_stability insertion_sort nat demo_make_order
           (evolve_market 9) 0%nat insertion_sort_perm (evolve_market_wf 9)))
         evolve_market_tick_defined).
Defined.

Example evolve_market_tick :
  (λ r, (timestep r.1, traders r.1, ids_of (heap r.1) (traders r.1),
         types_of (heap r.1) (traders r.1)))
    <$> (match tick insertion_sort nat demo_make_order (evolve_market 9) 0%nat with
         | Ok r => Some r | _ => None end)
  = Some (10, [0; 5; 2; 6; 4]%nat, [0; 1; 2; 3; 4],
          [Monkey_t; Monkey_t; MomentumTrader_t; Monkey_t; MeanReverter_t]).
Proof. vm_compute. reflexivity. Qed.

(** ** Best prices and the mid price *)

(** C8, as the code has it. On an empty side [get_best_bid] returns [0.0]
    and [get_best_ask] returns the largest finite double; otherwise they
    return the key of the first level. A defined tick returns and appends
    one snapshot whose mid price is half the sum of the two values so
    returned on the final book, in every case: with no bid it is half of
    [0.0] plus the best ask, with no ask half of the best bid plus the
    largest double. *)
Theorem mid_price_of_best_prices std_sort Gen make_order st g :
  (∀ comp l, std_sort comp l ≡ₚ l) →
  roster_wf st → tick_defined st →
  (∀ s, buys s = [] → get_best_bid s = 0%float)
  ∧ (∀ s, sells s = [] → get_best_ask s = DBL_MAX)
  ∧ (∀ s k q rest, buys s = (k, q) :: rest → get_best_bid s = k)
  ∧ (∀ s k q rest, sells s = (k, q) :: rest → get_best_ask s = k)
  ∧ ∃ st' g' snap,
      tick std_sort Gen make_order st g = Ok (st', g')
      ∧ tick_history st' = tick_history st ++ [snap]
      ∧ MarketTick.mid_price snap
        = ((get_best_bid st' + get_best_ask st') / 2)%float
      ∧ (∀ k q rest, buys st' = [] → sells st' = (k, q) :: rest →
           MarketTick.mid_price snap = ((0 + k) / 2)%float)
      ∧ (∀ k q rest, sells st' = [] → buys st' = (k, q) :: rest →
           MarketTick.mid_price snap = ((k + DBL_MAX) / 2)%float)
      ∧ (buys st' = [] → sells st' = [] →
           MarketTick.mid_price snap = ((0 + DBL_MAX) / 2)%float).
Proof.
  intros Hperm Hwf Hdef.
  split; [intros s Hs; unfold get_best_bid; by rewrite Hs|].
  split; [intros s Hs; unfold get_best_ask; by rewrite Hs|].
  split; [intros s k q rest Hs; unfold get_best_bid; by rewrite Hs|].
  split; [intros s k q rest Hs; unfold get_best_ask; by rewrite Hs|].
  destruct (tick_spec std_sort Hperm Gen make_order st g Hwf Hdef)
    as (st' & g' & Ht & _ & _ & _ & _ & _ & _ & _ & Hth).
  exists st', g', (tick_snapshot st'). split; [done|]. split; [done|].
  unfold tick_snapshot, get_best_bid, get_best_ask. simpl.
  split; [done|]. split; [intros k q rest Hb Hs; by rewrite Hb, Hs|].
  split; [intros k q rest Hs Hb; by rewrite Hb, Hs|].
  intros Hb Hs. by rewrite Hb, Hs.
Qed.

Lemma mid_price_of_best_prices_witness :
  ∃ st' g' snap,
    tick insertion_sort nat demo_make_order (evolve_market 9) 0%nat = Ok (st', g')
    ∧ tick_history st' = tick_history (evolve_market 9) ++ [snap]
    ∧ MarketTick.mid_price snap
      = ((get_best_bid st' + get_best_ask st') / 2)%float.
Proof.
  destruct (mid_price_of_best_prices insertion_sort nat demo_make_order
              (evolve_market 9) 0%nat insertion_sort_perm (evolve_market_wf 9)
              evolve_market_tick_defined)
    as (_ & _ & _ & _ & st' & g' & snap & Ht & Hth & Hmid & _).
  exists st', g', snap. split; [exact Ht|]. split; [exact Hth | exact Hmid].
Defined.

Lemma float_neq_by_ltb (x y z : double) :
  (x <? z)%float = true → (y <? z)%float = false → x ≠ y.
Proof. intros Hx Hy ->. congruence. Qed.

(** A tick in which the only trader offers one unit at 99 ends with no
    bid and the best ask at 99, and the snapshot it appends has the mid price
    49.5. On a book with no bid and the best ask at 100 the mid price of the
    snapshot is 50, with the best ask at 101 it is 50.5: none of these is
    one of the two values returned for an empty side, and no single value is
    the mid price of every book with an empty side. Besides, the value
    returned for an empty bid side is a price orders can rest and trade at:
    a bid at 0 rests at the level 0, and an offer at 0 trades with it at 0. *)
Lemma mid_price_counterexample :
  (∃ st1 st2,
     process_aggressive_order (demo_market 3 [] []) bid_at_zero = Ok st1
     ∧ buys st1 = [(0%float, [bid_at_zero])]
     ∧ get_best_bid st1 = get_best_bid (demo_market 3 [] [])
     ∧ processed st1 ask_at_zero st2 [Trade.mk 0 1 0 1 3 Monkey_t MeanReverter_t])
  ∧ (∃ st' g' snap,
     tick insertion_sort nat demo_make_order lone_market 1%nat = Ok (st', g')
     ∧ buys st' = []
     ∧ get_best_ask st' = 99%float
     ∧ tick_history st' = [snap]
     ∧ MarketTick.mid_price snap = 49.5%float)
  ∧ buys (ask_market 4) = [] ∧ buys (mm_ask_market 4) = []
  ∧ MarketTick.mid_price (tick_snapshot (ask_market 4)) = 50%float
  ∧ MarketTick.mid_price (tick_snapshot (mm_ask_market 4)) = 50.5%float
  ∧ ¬ ∃ sentinel : double, ∀ st,
        buys st = [] ∨ sells st = [] →
        MarketTick.mid_price (tick_snapshot st) = sentinel.
Proof.
  split.
  { eexists _, _. split; [by vm_compute|]. split; [by vm_compute|].
    split; [by vm_compute|]. split; by vm_compute. }
  split.
  { eexists _, _, _. split; [by vm_compute|]. by vm_compute. }
  split; [done|]. split; [done|].
  split; [by vm_compute|]. split; [by vm_compute|].
  intros (sentinel & Hs).
  assert (H1 : MarketTick.mid_price (tick_snapshot (ask_market 4)) = sentinel)
    by (apply Hs; by left).
  assert (H2 : MarketTick.mid_price (tick_snapshot (mm_ask_market 4)) = sentinel)
    by (apply Hs; by left).
  apply (float_neq_by_ltb (MarketTick.mid_price (tick_snapshot (ask_market 4)))
           (MarketTick.mid_price (tick_snapshot (mm_ask_market 4))) 50.25%float).
  - by vm_compute.
  - by vm_compute.
  - congruence.
Qed.

(** ** Ledger updates *)

Lemma buy_loop_heap order fuel st rem r :
  buy_loop fuel order st rem = Ok r →
  ∃ new, trade_history r.1 = trade_history st ++ new
    ∧ heap r.1 = foldl (settle (trader_map st)) (heap st) new
    ∧ trader_map r.1 = trader_map st.
Proof.
  revert st rem. induction fuel as [|fuel IH]; intros st rem; simpl.
  { destruct (buy_cond st rem); [done|]. intros [= <-]. exists []. by rewrite app_nil_r. }
  destruct (buy_cond st rem).
  2:{ intros [= <-]. exists []. by rewrite app_nil_r. }
  destruct (buy_step order st rem) as [r1| |] eqn:Hstep; [|done..]. simpl.
  intros (new & Hth & Hh & Htm)%IH.
  apply buy_step_Ok in Hstep.
  destruct Hstep as [k so q rest Hs _ | k so q rest quantity Hs _ _ _]; simpl in *.
  - by exists new.
  - eexists (_ :: new). rewrite Hth, <-app_assoc. split; [done|]. by split.
Qed.

Lemma sell_loop_heap order fuel st rem r :
  sell_loop fuel order st rem = Ok r →
  ∃ new, trade_history r.1 = trade_history st ++ new
    ∧ heap r.1 = foldl (settle (trader_map st)) (heap st) new
    ∧ trader_map r.1 = trader_map st.
Proof.
  revert st rem. induction fuel as [|fuel IH]; intros st rem; simpl.
  { destruct (sell_cond st rem); [done|]. intros [= <-]. exists []. by rewrite app_nil_r. }
  destruct (sell_cond st rem).
  2:{ intros [= <-]. exists []. by rewrite app_nil_r. }
  destruct (sell_step order st rem) as [r1| |] eqn:Hstep; [|done..]. simpl.
  intros (new & Hth & Hh & Htm)%IH.
  apply sell_step_Ok in Hstep.
  destruct Hstep as [k bo q rest Hs _ | k bo q rest quantity Hs _ _ _]; simpl in *.
  - by exists new.
  - eexists (_ :: new). rewrite Hth, <-app_assoc. split; [done|]. by split.
Qed.

(** Over a whole call the ledgers are those of before with the trades
    appended settled one after the other. *)
Lemma process_settles st order st' new :
  processed st order st' new →
  heap st' = foldl (settle (trader_map st)) (heap st) new.
Proof.
  intros [Hp Hth]. unfold process_aggressive_order in Hp.
  destruct (String.eqb (Order.type order) BUY).
  { destruct (buy_loop _ order st order) as [[st1 rem]| |] eqn:Hloop; [|done..].
    apply buy_loop_heap in Hloop as (new' & Hth' & Hh & _). simpl in *.
    assert (trade_history st' = trade_history st1 ∧ heap st' = heap st1) as [Ht1 Hh1].
    { injection Hp as <-. by case_match. }
    rewrite Ht1, Hth' in Hth. apply app_inv_head in Hth as <-. congruence. }
  destruct (String.eqb (Order.type order) SELL).
  { destruct (sell_loop _ order st order) as [[st1 rem]| |] eqn:Hloop; [|done..].
    apply sell_loop_heap in Hloop as (new' & Hth' & Hh & _). simpl in *.
    assert (trade_history st' = trade_history st1 ∧ heap st' = heap st1) as [Ht1 Hh1].
    { injection Hp as <-. by case_match. }
    rewrite Ht1, Hth' in Hth. apply app_inv_head in Hth as <-. congruence. }
  injection Hp as <-.
  rewrite <-(app_nil_r (trade_history st)) in Hth at 1.
  by apply app_inv_head in Hth as <-.
Qed.

(** C7, as the code has it. [update_position] subtracts the price from
    the cash and adds the quantity to the position on a BUY, and does the
    inverse on a SELL. A ledger write for an id reaches the object the map
    holds for the id, once, and no other object; for an id the map does not
    hold there is no write at all. A whole call on a book without empty
    levels returns, and its ledgers are those of before with, for each
    trade appended in turn, one write for the buyer and one for the
    seller. *)
Theorem ledger_update_per_registered_counterparty st order :
  book_clean st →
  (∀ price quantity tr,
     Trader.update_position BUY price quantity tr
     = Trader.mk (Trader.trader_id tr) (Trader.cash tr - price)%float
         (Trader.position tr + quantity)%float (Trader.betsizer tr) (Trader.class tr)
     ∧ Trader.update_position SELL price quantity tr
       = Trader.mk (Trader.trader_id tr) (Trader.cash tr + price)%float
           (Trader.position tr - quantity)%float (Trader.betsizer tr) (Trader.class tr))
  ∧ (∀ tm id type price quantity h p,
       tm !! id = Some p →
       ledger_update tm id type price quantity h !! p
       = Trader.update_position type price quantity <$> h !! p
       ∧ ∀ p', p' ≠ p → ledger_update tm id type price quantity h !! p' = h !! p')
  ∧ (∀ tm id type price quantity h,
       tm !! id = None → ledger_update tm id type price quantity h = h)
  ∧ ∃ st' new, processed st order st' new
      ∧ heap st' = foldl (settle (trader_map st)) (heap st) new.
Proof.
  intros Hc. split; [done|]. split; [|split].
  - intros tm id type price quantity h p Hp. unfold ledger_update. rewrite Hp.
    split; [apply list_lookup_alter_eq|].
    intros p' Hne. by apply list_lookup_alter_ne.
  - intros tm id type price quantity h Hnone. unfold ledger_update. by rewrite Hnone.
  - destruct (process_aggressive_order_spec st order Hc) as (st' & new & Hp & _).
    exists st', new. split; [done|]. by apply (process_settles st order).
Qed.

Lemma ledger_update_per_registered_counterparty_witness :
  ∃ st' new, processed (ask_market 4) (bid_101 4) st' new
    ∧ heap st' = foldl (settle (trader_map (ask_market 4))) (heap (ask_market 4)) new.
Proof.
  exact (proj2 (proj2 (proj2 (ledger_update_per_registered_counterparty
           (ask_market 4) (bid_101 4) (ask_market_clean 4))))).
Defined.

(** Trader 0 buys 5 at 101 from market maker 100000, whose id is not in
    the map: the trade is made, and the only ledger write of the call is the
    buyer's. *)
Lemma ledger_update_counterexample :
  ∃ st' t,
    processed (mm_ask_market 3) (bid_101 3) st' [t]
    ∧ Trade.seller_id t = 100000
    ∧ trader_map (mm_ask_market 3) !! Trade.seller_id t = None
    ∧ heap st'
      = alter (Trader.update_position BUY (Trade.price t) (Trade.quantity t))
          0%nat (heap (mm_ask_market 3)).
Proof.
  eexists _, (Trade.mk 101 5 0 100000 3 Monkey_t MarketMaker_t).
  split; [split|]; [by vm_compute..|]. split; [done|]. split; by vm_compute.
Qed.

(** ** Time priority within a level *)

Lemma ltb_irrefl (x : double) : (x <? x)%float = false.
Proof.
  rewrite FloatAxioms.ltb_spec. unfold SFltb.
  destruct (Prim2SF x) as [s|s| |s m e]; simpl; [by destruct s..|done|].
  destruct s; rewrite Z.compare_refl, Pos.compare_cont_refl; done.
Qed.

(** A push puts the order behind the orders that rest at its price. *)
Lemma queue_at_level_push comp o m :
  comp (Order.price o) (Order.price o) = false →
  queue_at comp (Order.price o) (level_push comp o m)
  = queue_at comp (Order.price o) m ++ [o].
Proof.
  intros Hirr. induction m as [|[k q] rest IH]; simpl.
  { by rewrite Hirr. }
  destruct (comp (Order.price o) k) eqn:Hlt; simpl.
  { by rewrite Hirr. }
  destruct (comp k (Order.price o)) eqn:Hgt; simpl; rewrite Hlt, Hgt; done.
Qed.

Lemma buy_step_front order st rem k so q rest r :
  sells st = (k, so :: q) :: rest →
  buy_step order st rem = Ok r →
  (trade_history r.1 = trade_history st ∧ sells r.1 = pop_front k q rest)
  ∨ ∃ quantity,
      trade_history r.1 = trade_history st ++
        [Trade.mk (Order.price so) quantity (Order.trader_id rem)
           (Order.trader_id so) (timestep st) (Order.trader_type rem)
           (Order.trader_type so)]
      ∧ sells r.1 =
          if (0 <? Order.position_size so - quantity)%float
          then level_push less
                 (Order.with_position_size so (Order.position_size so - quantity)%float)
                 (pop_front k q rest)
          else pop_front k q rest.
Proof.
  intros Hs Hstep. apply buy_step_Ok in Hstep.
  destruct Hstep as [k' so' q' rest' Hs' _ | k' so' q' rest' quantity Hs' _ _ _];
    rewrite Hs in Hs'; injection Hs' as <- <- <- <-; [by left|].
  right. by exists quantity.
Qed.

Lemma sell_step_front order st rem k bo q rest r :
  buys st = (k, bo :: q) :: rest →
  sell_step order st rem = Ok r →
  (trade_history r.1 = trade_history st ∧ buys r.1 = pop_front k q rest)
  ∨ ∃ quantity,
      trade_history r.1 = trade_history st ++
        [Trade.mk (Order.price bo) quantity (Order.trader_id bo)
           (Order.trader_id rem) (timestep st) (Order.trader_type bo)
           (Order.trader_type rem)]
      ∧ buys r.1 =
          if (0 <? Order.position_size bo - quantity)%float
          then level_push greater
                 (Order.with_position_size bo (Order.position_size bo - quantity)%float)
                 (pop_front k q rest)
          else pop_front k q rest.
Proof.
  intros Hs Hstep. apply sell_step_Ok in Hstep.
  destruct Hstep as [k' bo' q' rest' Hs' _ | k' bo' q' rest' quantity Hs' _ _ _];
    rewrite Hs in Hs'; injection Hs' as <- <- <- <-; [by left|].
  right. by exists quantity.
Qed.

(** C9, as the code has it. An iteration of either loop deals with the
    order at the front of the queue of the best opposing level and with no
    other: it drops it, or trades with it, and then pushes what is left of
    it, if anything, again. A push, of a new order or of such a remainder,
    puts the order at the back of the queue of its price. So the queue is in
    the order of the last push of each order, which need not be the order
    of the origin ticks. *)
Theorem queue_front_matched_first st order :
  (∀ rem k so q rest r,
     sells st = (k, so :: q) :: rest →
     buy_step order st rem = Ok r →
     (trade_history r.1 = trade_history st ∧ sells r.1 = pop_front k q rest)
     ∨ ∃ quantity,
         trade_history r.1 = trade_history st ++
           [Trade.mk (Order.price so) quantity (Order.trader_id rem)
              (Order.trader_id so) (timestep st) (Order.trader_type rem)
              (Order.trader_type so)]
         ∧ sells r.1 =
             if (0 <? Order.position_size so - quantity)%float
             then level_push less
                    (Order.with_position_size so
                       (Order.position_size so - quantity)%float)
                    (pop_front k q rest)
             else pop_front k q rest)
  ∧ (∀ rem k bo q rest r,
       buys st = (k, bo :: q) :: rest →
       sell_step order st rem = Ok r →
       (trade_history r.1 = trade_history st ∧ buys r.1 = pop_front k q rest)
       ∨ ∃ quantity,
           trade_history r.1 = trade_history st ++
             [Trade.mk (Order.price bo) quantity (Order.trader_id bo)
                (Order.trader_id rem) (timestep st) (Order.trader_type bo)
                (Order.trader_type rem)]
           ∧ buys r.1 =
               if (0 <? Order.position_size bo - quantity)%float
               then level_push greater
                      (Order.with_position_size bo
                         (Order.position_size bo - quantity)%float)
                      (pop_front k q rest)
               else pop_front k q rest)
  ∧ (∀ o m, queue_at less (Order.price o) (level_push less o m)
            = queue_at less (Order.price o) m ++ [o])
  ∧ (∀ o m, queue_at greater (Order.price o) (level_push greater o m)
            = queue_at greater (Order.price o) m ++ [o]).
Proof.
  split; [|split; [|split]].
  - intros rem k so q rest r. apply buy_step_front.
  - intros rem k bo q rest r. apply sell_step_front.
  - intros o m. apply queue_at_level_push, ltb_irrefl.
  - intros o m. apply queue_at_level_push, ltb_irrefl.
Qed.

(** Trader 1 offers 10 at 100 at tick 1, trader 2 offers 5 at 100 at
    tick 2, and trader 0 buys 3: the fill leaves 7 of the first offer, pushed
    behind the second. The next bid of trader 0 at 100 then trades with the
    second offer, though the first offer has the earlier origin tick and
    came to the level first. *)
Lemma fifo_counterexample :
  ∃ st st' a b t,
    run_ops [Submit ask_first; Submit ask_second; Submit small_bid]
      (demo_market 2 [] []) = Ok st
    ∧ sells st = [(100%float, [b; a])]
    ∧ b = ask_second
    ∧ a = Order.with_position_size ask_first 7
    ∧ Order.timestep a < Order.timestep b
    ∧ processed st small_bid st' [t]
    ∧ Trade.seller_id t = Order.trader_id b
    ∧ Trade.seller_id t ≠ Order.trader_id a.
Proof.
  eexists _, _, _, _, (Trade.mk 100 3 0 2 2 Monkey_t MomentumTrader_t).
  split; [by vm_compute|]. split; [by vm_compute|].
  split; [done|]. split; [done|]. split; [done|].
  split; [split; by vm_compute|]. done.
Qed.

(** * Beyond the claims *)

(** ** The order of doubles *)

Ltac cmp_cases :=
  repeat match goal with
  | |- context [Z.compare ?a ?b] => destruct (Z.compare_spec a b)
  | H : context [Z.compare ?a ?b] |- _ => destruct (Z.compare_spec a b)
  | |- context [Pos.compare_cont Eq ?a ?b] =>
      change (Pos.compare_cont Eq a b) with (Pos.compare a b);
      destruct (Pos.compare_spec a b)
  | H : context [Pos.compare_cont Eq ?a ?b] |- _ =>
      change (Pos.compare_cont Eq a b) with (Pos.compare a b) in H;
      destruct (Pos.compare_spec a b)
  end.

Lemma SFcompare_antisym a b :
  SFcompare b a = CompOpp <$> SFcompare a b.
Proof.
  destruct a as [sa|sa| |sa ma ea], b as [sb|sb| |sb mb eb]; simpl;
    try done; try (by destruct sa); try (by destruct sb);
    try (by destruct sa, sb).
  destruct sa, sb; simpl; try done; cmp_cases; simpl; try done; try lia.
Qed.

Lemma SFcompare_lt_trans a b c :
  SFcompare a b = Some Lt → SFcompare b c = Some Lt → SFcompare a c = Some Lt.
Proof.
  destruct a as [sa|sa| |sa ma ea], b as [sb|sb| |sb mb eb], c as [sc|sc| |sc mc ec];
    simpl; try done;
    try (destruct sa; simpl; try done); try (destruct sb; simpl; try done);
    try (destruct sc; simpl; try done);
    intros H1 H2; cmp_cases; simpl in *; try done; try lia.
Qed.

Lemma SFcompare_eq_l a b c :
  SFcompare a b = Some Eq → SFcompare a c = SFcompare b c.
Proof.
  destruct a as [sa|sa| |sa ma ea], b as [sb|sb| |sb mb eb], c as [sc|sc| |sc mc ec];
    simpl; try done;
    try (destruct sa; simpl; try done); try (destruct sb; simpl; try done);
    try (destruct sc; simpl; try done);
    intros H1; cmp_cases; simpl in *; subst; try done; try lia.
Qed.

Lemma SFcompare_refl a : SFcompare a a = Some Eq ∨ SFcompare a a = None.
Proof.
  destruct a as [s|s| |s m e]; simpl; [by left|by destruct s; left|by right|].
  left. destruct s; rewrite Z.compare_refl, Pos.compare_cont_refl; done.
Qed.

Ltac float_spec :=
  unfold is_number, less, greater in *;
  rewrite ?FloatAxioms.ltb_spec, ?FloatAxioms.leb_spec, ?FloatAxioms.eqb_spec in *;
  unfold SFltb, SFleb, SFeqb in *.

Lemma ltb_trans (x y z : double) :
  (x <? y)%float = true → (y <? z)%float = true → (x <? z)%float = true.
Proof.
  float_spec. intros Hxy Hyz.
  rewrite (SFcompare_lt_trans (Prim2SF x) (Prim2SF y) (Prim2SF z)); [done| |].
  - by destruct (SFcompare (Prim2SF x) (Prim2SF y)) as [[]|].
  - by destruct (SFcompare (Prim2SF y) (Prim2SF z)) as [[]|].
Qed.

Lemma ltb_asym (x y : double) :
  (x <? y)%float = true → (y <? x)%float = false.
Proof.
  float_spec. rewrite (SFcompare_antisym (Prim2SF x) (Prim2SF y)).
  by destruct (SFcompare (Prim2SF x) (Prim2SF y)) as [[]|].
Qed.

Lemma leb_ltb_eqb (x y : double) :
  (x <=? y)%float = (x <? y)%float || (x =? y)%float.
Proof. float_spec. by destruct (SFcompare (Prim2SF x) (Prim2SF y)) as [[]|]. Qed.

Lemma ltb_leb (x y : double) : (x <? y)%float = true → (x <=? y)%float = true.
Proof. rewrite leb_ltb_eqb. by intros ->. Qed.

Lemma eqb_sym (x y : double) : (x =? y)%float = (y =? x)%float.
Proof.
  float_spec. rewrite (SFcompare_antisym (Prim2SF x) (Prim2SF y)).
  by destruct (SFcompare (Prim2SF x) (Prim2SF y)) as [[]|].
Qed.

Lemma eqb_ltb_l (x y z : double) :
  (x =? y)%float = true → (x <? z)%float = (y <? z)%float.
Proof.
  float_spec. intros Hxy.
  rewrite (SFcompare_eq_l (Prim2SF x) (Prim2SF y) (Prim2SF z)); [done|].
  by destruct (SFcompare (Prim2SF x) (Prim2SF y)) as [[]|].
Qed.

Lemma eqb_ltb_r (x y z : double) :
  (x =? y)%float = true → (z <? x)%float = (z <? y)%float.
Proof.
  float_spec. intros Hxy.
  rewrite (SFcompare_antisym (Prim2SF x) (Prim2SF z)),
          (SFcompare_antisym (Prim2SF y) (Prim2SF z)).
  rewrite (SFcompare_eq_l (Prim2SF x) (Prim2SF y) (Prim2SF z)); [done|].
  by destruct (SFcompare (Prim2SF x) (Prim2SF y)) as [[]|].
Qed.

Lemma eqb_eqb_l (x y z : double) :
  (x =? y)%float = true → (x =? z)%float = (y =? z)%float.
Proof.
  float_spec. intros Hxy.
  rewrite (SFcompare_eq_l (Prim2SF x) (Prim2SF y) (Prim2SF z)); [done|].
  by destruct (SFcompare (Prim2SF x) (Prim2SF y)) as [[]|].
Qed.

Lemma eqb_leb_r (x y z : double) :
  (x =? y)%float = true → (z <=? x)%float = (z <=? y)%float.
Proof.
  intros Hxy. rewrite !leb_ltb_eqb, (eqb_ltb_r x y z Hxy).
  by rewrite (eqb_sym z x), (eqb_sym z y), (eqb_eqb_l x y z Hxy).
Qed.

Lemma eqb_leb_l (x y z : double) :
  (x =? y)%float = true → (x <=? z)%float = (y <=? z)%float.
Proof.
  intros Hxy. by rewrite !leb_ltb_eqb, (eqb_ltb_l x y z Hxy), (eqb_eqb_l x y z Hxy).
Qed.

Lemma eqb_is_number (x y : double) :
  (x =? y)%float = true → is_number x = true ∧ is_number y = true.
Proof.
  intros Hxy. unfold is_number. split.
  - by rewrite (eqb_eqb_l x y x Hxy), eqb_sym.
  - by rewrite <-(eqb_eqb_l x y y Hxy).
Qed.

Lemma ltb_is_number (x y : double) :
  (x <? y)%float = true → is_number x = true ∧ is_number y = true.
Proof.
  float_spec.
  destruct (Prim2SF x) as [sx|sx| |sx mx ex], (Prim2SF y) as [sy|sy| |sy my ey];
    simpl; try done; intros _; split;
    repeat match goal with s : bool |- _ => destruct s end; simpl;
    rewrite ?Z.compare_refl, ?Pos.compare_cont_refl; done.
Qed.

(** Two numbers neither of which is below the other are equal. *)
Lemma ltb_total (x y : double) :
  is_number x = true → is_number y = true →
  (x <? y)%float = false → (y <? x)%float = false → (x =? y)%float = true.
Proof.
  float_spec. rewrite (SFcompare_antisym (Prim2SF x) (Prim2SF y)).
  destruct (Prim2SF x) as [sx|sx| |sx mx ex], (Prim2SF y) as [sy|sy| |sy my ey];
    simpl; try done;
    repeat match goal with s : bool |- _ => destruct s end; simpl; try done;
    intros _ _; cmp_cases; simpl; done.
Qed.

(** For numbers, not below-or-equal is above. *)
Lemma leb_false_ltb (x y : double) :
  is_number x = true → is_number y = true →
  (x <=? y)%float = false → (y <? x)%float = true.
Proof.
  intros Hx Hy. rewrite leb_ltb_eqb. intros [Hlt Heq]%orb_false_iff.
  destruct (y <? x)%float eqn:Hyx; [done|].
  by rewrite (ltb_total x y Hx Hy Hlt Hyx) in Heq.
Qed.

Lemma leb_ltb_trans (x y z : double) :
  (x <=? y)%float = true → (y <? z)%float = true → (x <? z)%float = true.
Proof.
  rewrite leb_ltb_eqb. intros [Hlt|Heq]%orb_true_iff Hyz.
  - by apply (ltb_trans x y z).
  - by rewrite (eqb_ltb_l x y z Heq).
Qed.

Lemma ltb_leb_trans (x y z : double) :
  (x <? y)%float = true → (y <=? z)%float = true → (x <? z)%float = true.
Proof.
  intros Hxy. rewrite leb_ltb_eqb. intros [Hlt|Heq]%orb_true_iff.
  - by apply (ltb_trans x y z).
  - by rewrite <-(eqb_ltb_r y z x Heq).
Qed.

(** ** Sorted sides *)

Section SortedSide.
Variable comp : double → double → bool.
Hypothesis comp_trans :
  ∀ x y z, comp x y = true → comp y z = true → comp x z = true.
Hypothesis comp_total :
  ∀ x y, is_number x = true → is_number y = true →
         comp x y = false → comp y x = false → (x =? y)%float = true.

Lemma level_push_keys o m :
  Forall (λ l, l.1 = Order.price o ∨ l.1 ∈ m.*1) (level_push comp o m).
Proof.
  induction m as [|[k q] rest IH]; simpl.
  { constructor; [by left | constructor]. }
  repeat case_match.
  - constructor; [by left|]. constructor; [right; simpl; apply elem_of_cons; by left|].
    apply Forall_forall. intros l Hl. right. simpl. apply elem_of_cons. right.
    by apply list_elem_of_fmap_2.
  - constructor; [right; simpl; apply elem_of_cons; by left|].
    eapply Forall_impl; [exact IH|]. simpl. intros l [Hl|Hl]; [by left|].
    right. apply elem_of_cons. by right.
  - constructor; [right; simpl; apply elem_of_cons; by left|].
    apply Forall_forall. intros l Hl. right. simpl. apply elem_of_cons. right.
    by apply list_elem_of_fmap_2.
Qed.

Lemma level_ok_key_number side k q : level_ok side (k, q) → is_number k = true.
Proof.
  intros [Hne Hall]. simpl in *. destruct q as [|o q]; [done|].
  apply Forall_cons in Hall as [(Hp & _) _].
  by apply eqb_is_number in Hp as [_ ?].
Qed.

Lemma level_push_side_ok side o m :
  side_ok comp side m →
  is_number (Order.price o) = true →
  (0 <? Order.position_size o)%float = true →
  Order.type o = side →
  side_ok comp side (level_push comp o m).
Proof.
  intros [Hsorted Hlevels] Hnum Hpos Hty.
  assert (Hnew : level_ok side (Order.price o, [o])).
  { split; [done|]. by repeat constructor. }
  induction m as [|[k q] rest IH]; simpl.
  { split; [done | by constructor]. }
  simpl in Hsorted. destruct Hsorted as [Hk Hsorted].
  apply Forall_cons in Hlevels as [Hkq Hlevels].
  destruct (comp (Order.price o) k) eqn:Hpk.
  { split; [|constructor; [done|]; by constructor].
    simpl. split; [|done]. constructor; [done|].
    eapply Forall_impl; [exact Hk|]. simpl. intros l Hl.
    by apply (comp_trans _ k). }
  destruct (comp k (Order.price o)) eqn:Hkp.
  { destruct (IH Hsorted Hlevels) as [Hsorted' Hlevels'].
    split; [|by constructor]. simpl. split; [|done].
    eapply Forall_impl; [apply level_push_keys|]. simpl. intros l [->|Hl]; [done|].
    apply list_elem_of_fmap in Hl as (l' & -> & Hl').
    exact (proj1 (Forall_forall _ _) Hk l' Hl'). }
  split; [done|]. constructor; [|done].
  destruct Hkq as [Hne Hall]. split; simpl.
  { by destruct q. }
  apply Forall_app. split; [done|]. constructor; [|done]. split; [|done].
  apply comp_total; try done. by apply (level_ok_key_number side k q).
Qed.

Lemma pop_front_side_ok side k so q rest :
  side_ok comp side ((k, so :: q) :: rest) → side_ok comp side (pop_front k q rest).
Proof.
  intros [[Hk Hsorted] Hlevels]. apply Forall_cons in Hlevels as [[_ Hall] Hlevels].
  destruct q as [|o q]; simpl; [done|].
  split; [done|]. constructor; [|done]. split; [done|].
  simpl in *. by apply Forall_cons in Hall as [_ ?].
Qed.

Lemma sorted_levels_head_least k q rest :
  sorted_levels comp ((k, q) :: rest) → Forall (λ l, comp k l.1 = true) rest.
Proof. by intros [? _]. Qed.

Lemma remove_mm_orders_keys m :
  Forall (λ l, l.1 ∈ m.*1) (remove_mm_orders m).
Proof.
  induction m as [|[k q] rest IH]; simpl; [constructor|].
  assert (Hrest : Forall (λ l, l.1 ∈ k :: rest.*1) (remove_mm_orders rest)).
  { eapply Forall_impl; [exact IH|]. simpl. intros l Hl. apply elem_of_cons. by right. }
  destruct (List.filter not_market_maker q); [done|].
  constructor; [simpl; apply elem_of_cons; by left | done].
Qed.

Lemma remove_mm_orders_side_ok side m :
  side_ok comp side m → side_ok comp side (remove_mm_orders m).
Proof.
  intros [Hsorted Hlevels]. induction m as [|[k q] rest IH]; simpl; [done|].
  destruct Hsorted as [Hk Hsorted]. apply Forall_cons in Hlevels as [[_ Hall] Hlevels].
  destruct (IH Hsorted Hlevels) as [Hsorted' Hlevels'].
  destruct (List.filter not_market_maker q) as [|o q'] eqn:Hf; [done|].
  split.
  - simpl. split; [|done].
    eapply Forall_impl; [apply remove_mm_orders_keys|]. simpl. intros l Hl.
    apply list_elem_of_fmap in Hl as (l' & -> & Hl').
    exact (proj1 (Forall_forall _ _) Hk l' Hl').
  - constructor; [|done]. split; [done|]. simpl in *.
    apply Forall_forall. intros x Hx.
    apply (proj1 (Forall_forall _ _) Hall x).
    apply list_elem_of_In. apply list_elem_of_In in Hx. rewrite <-Hf in Hx.
    by apply List.filter_In in Hx as [? _].
Qed.

End SortedSide.

Lemma less_trans x y z : less x y = true → less y z = true → less x z = true.
Proof. apply ltb_trans. Qed.

Lemma greater_trans x y z :
  greater x y = true → greater y z = true → greater x z = true.
Proof. unfold greater. intros Hxy Hyz. by apply (ltb_trans z y x). Qed.

Lemma less_total x y :
  is_number x = true → is_number y = true →
  less x y = false → less y x = false → (x =? y)%float = true.
Proof. apply ltb_total. Qed.

Lemma greater_total x y :
  is_number x = true → is_number y = true →
  greater x y = false → greater y x = false → (x =? y)%float = true.
Proof. unfold greater. intros Hx Hy Hxy Hyx. by apply ltb_total. Qed.

(** ** Uncrossed books *)

Lemma uncrossed_sub b s b' s' :
  uncrossed b s →
  Forall (λ l, l.1 ∈ b.*1) b' → Forall (λ l, l.1 ∈ s.*1) s' →
  uncrossed b' s'.
Proof.
  unfold uncrossed. intros Hu Hb Hs.
  apply Forall_forall. intros lb' Hlb'. apply Forall_forall. intros la' Hla'.
  pose proof (proj1 (Forall_forall _ _) Hb lb' Hlb') as Hkb.
  pose proof (proj1 (Forall_forall _ _) Hs la' Hla') as Hka.
  apply list_elem_of_fmap in Hkb as (lb & -> & Hlb).
  apply list_elem_of_fmap in Hka as (la & -> & Hla).
  exact (proj1 (Forall_forall _ _) (proj1 (Forall_forall _ _) Hu lb Hlb) la Hla).
Qed.

Lemma keys_self (m : Book) : Forall (λ l, l.1 ∈ m.*1) m.
Proof. apply Forall_forall. intros l Hl. by apply list_elem_of_fmap_2. Qed.

Lemma pop_front_keys k so q rest :
  Forall (λ l, l.1 ∈ ((k, so :: q) :: rest).*1) (pop_front k q rest).
Proof.
  destruct q as [|o q]; simpl.
  - apply Forall_forall. intros l Hl. apply elem_of_cons. right.
    by apply list_elem_of_fmap_2.
  - constructor; [apply elem_of_cons; by left|].
    apply Forall_forall. intros l Hl. apply elem_of_cons. right.
    by apply list_elem_of_fmap_2.
Qed.

Lemma uncrossed_push_ask b s o :
  uncrossed b s →
  Forall (λ lb, (lb.1 <? Order.price o)%float = true) b →
  uncrossed b (level_push less o s).
Proof.
  unfold uncrossed. intros Hu Hb.
  apply Forall_forall. intros lb Hlb.
  eapply Forall_impl; [apply level_push_keys|]. simpl. intros la [->|Hla].
  - exact (proj1 (Forall_forall _ _) Hb lb Hlb).
  - apply list_elem_of_fmap in Hla as (la' & -> & Hla').
    exact (proj1 (Forall_forall _ _) (proj1 (Forall_forall _ _) Hu lb Hlb) la' Hla').
Qed.

Lemma uncrossed_push_bid b s o :
  uncrossed b s →
  Forall (λ la, (Order.price o <? la.1)%float = true) s →
  uncrossed (level_push greater o b) s.
Proof.
  unfold uncrossed. intros Hu Hs.
  eapply Forall_impl; [apply level_push_keys|]. simpl. intros lb [->|Hlb]; [done|].
  apply list_elem_of_fmap in Hlb as (lb' & -> & Hlb').
  exact (proj1 (Forall_forall _ _) Hu lb' Hlb').
Qed.

(** ** Invariants of the matching loops *)

Lemma buy_loop_invariant (P : Market → Order.t → Prop) order :
  (∀ st rem r, P st rem → buy_cond st rem = true →
               buy_step order st rem = Ok r → P r.1 r.2) →
  ∀ fuel st rem r,
    P st rem → buy_loop fuel order st rem = Ok r →
    P r.1 r.2 ∧ buy_cond r.1 r.2 = false.
Proof.
  intros Hstep. induction fuel as [|fuel IH]; intros st rem r HP; simpl.
  { destruct (buy_cond st rem) eqn:Hc; [done|]. by intros [= <-]. }
  destruct (buy_cond st rem) eqn:Hc; [|by intros [= <-]].
  destruct (buy_step order st rem) as [r1| |] eqn:Hs; [|done..]. simpl.
  apply IH. by apply (Hstep st rem).
Qed.

Lemma sell_loop_invariant (P : Market → Order.t → Prop) order :
  (∀ st rem r, P st rem → sell_cond st rem = true →
               sell_step order st rem = Ok r → P r.1 r.2) →
  ∀ fuel st rem r,
    P st rem → sell_loop fuel order st rem = Ok r →
    P r.1 r.2 ∧ sell_cond r.1 r.2 = false.
Proof.
  intros Hstep. induction fuel as [|fuel IH]; intros st rem r HP; simpl.
  { destruct (sell_cond st rem) eqn:Hc; [done|]. by intros [= <-]. }
  destruct (sell_cond st rem) eqn:Hc; [|by intros [= <-]].
  destruct (sell_step order st rem) as [r1| |] eqn:Hs; [|done..]. simpl.
  apply IH. by apply (Hstep st rem).
Qed.

Lemma std_min_pos (a b : double) :
  (0 <? a)%float = true → (0 <? b)%float = true → (0 <? std_min a b)%float = true.
Proof. unfold std_min. by destruct (b <? a)%float. Qed.

Lemma side_ok_front comp side k so q rest :
  side_ok comp side ((k, so :: q) :: rest) →
  (Order.price so =? k)%float = true
  ∧ (0 <? Order.position_size so)%float = true
  ∧ Order.type so = side.
Proof.
  intros [_ Hlevels]. apply Forall_cons in Hlevels as [[_ Hall] _].
  simpl in Hall. by apply Forall_cons in Hall as [? _].
Qed.

Lemma buy_step_ok st0 order st rem r :
  buy_ok st0 order st rem → buy_cond st rem = true →
  buy_step order st rem = Ok r → buy_ok st0 order r.1 r.2.
Proof.
  intros (Hs & Hb & Hu & Hrem & new & Hth & Hnew) Hcond Hstep.
  apply buy_step_Ok in Hstep.
  destruct Hstep as [k so q rest Hsells _ | k so q rest quantity Hsells _ _ ->];
    simpl; rewrite Hsells in Hs, Hu.
  - split; [by apply (pop_front_side_ok less SELL k so)|].
    split; [done|]. split; [|split; [done | by exists new]].
    eapply uncrossed_sub; [exact Hu | apply keys_self | apply pop_front_keys].
  - set (quantity := std_min (Order.position_size rem) (Order.position_size so)).
    destruct (side_ok_front _ _ _ _ _ _ Hs) as (Hprice & Hpos & Hty).
    unfold buy_cond in Hcond. rewrite Hsells in Hcond.
    apply andb_true_iff in Hcond as [Hcross Hrempos].
    pose proof (fill_of_fields _ _ Hrem) as (_ & _ & _ & Hremprice).
    assert (Hpopped : side_ok less SELL (pop_front k q rest))
      by apply (pop_front_side_ok less SELL k so _ _ Hs).
    assert (Hupopped : uncrossed (buys st) (pop_front k q rest)).
    { eapply uncrossed_sub; [exact Hu | apply keys_self | apply pop_front_keys]. }
    split; [|split; [done|split; [|split]]].
    + case_match; [|done].
      apply level_push_side_ok; try done;
        [apply less_trans | apply less_total |].
      simpl. by apply eqb_is_number in Hprice as [? _].
    + case_match; [|done]. apply uncrossed_push_ask; [done|]. simpl.
      eapply Forall_impl; [exact Hu|]. simpl. intros lb Hlb.
      apply Forall_cons in Hlb as [Hlb _]. simpl in Hlb.
      by rewrite (eqb_ltb_r _ _ (lb.1) Hprice).
    + eapply fill_of_trans; [done|]. apply fill_of_with_position_size.
    + eexists (new ++ [_]). split.
      { simpl. by rewrite Hth, app_assoc. }
      apply Forall_app. split; [done|]. constructor; [|done]. simpl. split.
      * rewrite (eqb_leb_l _ _ _ Hprice). by rewrite <-Hremprice.
      * by apply std_min_pos.
Qed.

Lemma sell_step_ok st0 order st rem r :
  sell_ok st0 order st rem → sell_cond st rem = true →
  sell_step order st rem = Ok r → sell_ok st0 order r.1 r.2.
Proof.
  intros (Hb & Hs & Hu & Hrem & new & Hth & Hnew) Hcond Hstep.
  apply sell_step_Ok in Hstep.
  destruct Hstep as [k bo q rest Hbuys _ | k bo q rest quantity Hbuys _ _ ->];
    simpl; rewrite Hbuys in Hb, Hu.
  - split; [by apply (pop_front_side_ok greater BUY k bo)|].
    split; [done|]. split; [|split; [done | by exists new]].
    eapply uncrossed_sub; [exact Hu | apply pop_front_keys | apply keys_self].
  - set (quantity := std_min (Order.position_size rem) (Order.position_size bo)).
    destruct (side_ok_front _ _ _ _ _ _ Hb) as (Hprice & Hpos & Hty).
    unfold sell_cond in Hcond. rewrite Hbuys in Hcond.
    apply andb_true_iff in Hcond as [Hcross Hrempos].
    pose proof (fill_of_fields _ _ Hrem) as (_ & _ & _ & Hremprice).
    assert (Hpopped : side_ok greater BUY (pop_front k q rest))
      by apply (pop_front_side_ok greater BUY k bo _ _ Hb).
    assert (Hupopped : uncrossed (pop_front k q rest) (sells st)).
    { eapply uncrossed_sub; [exact Hu | apply pop_front_keys | apply keys_self]. }
    split; [|split; [done|split; [|split]]].
    + case_match; [|done].
      apply level_push_side_ok; try done;
        [apply greater_trans | apply greater_total |].
      simpl. by apply eqb_is_number in Hprice as [? _].
    + case_match; [|done]. apply uncrossed_push_bid; [done|]. simpl.
      apply Forall_cons in Hu as [Hu _]. simpl in Hu.
      eapply Forall_impl; [exact Hu|]. simpl. intros la Hla.
      by rewrite (eqb_ltb_l _ _ (la.1) Hprice).
    + eapply fill_of_trans; [done|]. apply fill_of_with_position_size.
    + eexists (new ++ [_]). split.
      { simpl. by rewrite Hth, app_assoc. }
      apply Forall_app. split; [done|]. constructor; [|done]. simpl. split.
      * rewrite (eqb_leb_r _ _ _ Hprice). by rewrite <-Hremprice.
      * by apply std_min_pos.
Qed.

(** ** The book stays well formed *)

Lemma book_ok_clean st : book_ok st → book_clean st.
Proof.
  intros ([_ Hb] & [_ Hs] & _). split.
  - eapply Forall_impl; [exact Hb|]. by intros l [? _].
  - eapply Forall_impl; [exact Hs|]. by intros l [? _].
Qed.

Lemma buy_cond_false_above st rem :
  side_ok less SELL (sells st) →
  is_number (Order.price rem) = true →
  (0 <? Order.position_size rem)%float = true →
  buy_cond st rem = false →
  Forall (λ la, (Order.price rem <? la.1)%float = true) (sells st).
Proof.
  unfold buy_cond. intros [Hsorted Hlevels] Hnum Hpos.
  destruct (sells st) as [|[k q] rest]; [constructor|].
  rewrite Hpos, andb_true_r. intros Hcross.
  apply Forall_cons in Hlevels as [Hkq _].
  assert (Hk : (Order.price rem <? k)%float = true).
  { apply leb_false_ltb; [|done..]. by apply (level_ok_key_number SELL k q). }
  constructor; [done|]. destruct Hsorted as [Hleast _].
  eapply Forall_impl; [exact Hleast|]. simpl. intros l Hl.
  by apply (ltb_trans _ k).
Qed.

Lemma sell_cond_false_below st rem :
  side_ok greater BUY (buys st) →
  is_number (Order.price rem) = true →
  (0 <? Order.position_size rem)%float = true →
  sell_cond st rem = false →
  Forall (λ lb, (lb.1 <? Order.price rem)%float = true) (buys st).
Proof.
  unfold sell_cond. intros [Hsorted Hlevels] Hnum Hpos.
  destruct (buys st) as [|[k q] rest]; [constructor|].
  rewrite Hpos, andb_true_r. intros Hcross.
  apply Forall_cons in Hlevels as [Hkq _].
  assert (Hk : (k <? Order.price rem)%float = true).
  { apply leb_false_ltb; [done| |done]. by apply (level_ok_key_number BUY k q). }
  constructor; [done|]. destruct Hsorted as [Hleast _].
  eapply Forall_impl; [exact Hleast|]. simpl. unfold greater. intros l Hl.
  by apply (ltb_trans _ k).
Qed.

Lemma process_buy_ok st order :
  book_ok st → is_number (Order.price order) = true →
  String.eqb (Order.type order) BUY = true →
  ∃ st' new, processed st order st' new ∧ book_ok st'
    ∧ Forall (λ t, (Trade.price t <=? Order.price order)%float = true
                   ∧ (0 <? Trade.quantity t)%float = true) new.
Proof.
  intros Hok Hnum Hty.
  destruct (process_buy_spec st order (book_ok_clean st Hok) Hty)
    as (st' & new & Hp & _).
  exists st', new. split; [done|].
  destruct Hp as [Hp Hth]. unfold process_aggressive_order in Hp. rewrite Hty in Hp.
  destruct (buy_loop _ order st order) as [[st1 rem]| |] eqn:Hloop; [|done..].
  simpl in Hp. injection Hp as <-.
  destruct Hok as (Hb & Hs & Hu).
  assert (Hinit : buy_ok st order st order).
  { split; [done|]. split; [done|]. split; [done|]. split; [apply fill_of_refl|].
    exists []. by rewrite app_nil_r. }
  destruct (buy_loop_invariant (buy_ok st order) order (buy_step_ok st order)
              _ st order _ Hinit Hloop)
    as [(Hs1 & Hb1 & Hu1 & Hrem & new1 & Hth1 & Hnew1) Hcond].
  simpl in *.
  pose proof (fill_of_fields _ _ Hrem) as (_ & _ & _ & Hremprice).
  assert (Hremty : Order.type rem = BUY).
  { rewrite Hrem. simpl. by apply String.eqb_eq. }
  assert (new1 = new) as ->.
  { apply (app_inv_head (trade_history st)). rewrite <-Hth1, <-Hth. by case_match. }
  split; [|done].
  destruct (0 <? Order.position_size rem)%float eqn:Hpos;
    [|split; [by rewrite Hb1 | by split]].
  split; [|split]; simpl.
  - rewrite Hb1. apply level_push_side_ok; try done;
      [apply greater_trans | apply greater_total | by rewrite Hremprice].
  - done.
  - apply uncrossed_push_bid; [done|].
    apply (buy_cond_false_above st1 rem); try done. by rewrite Hremprice.
Qed.

Lemma process_sell_ok st order :
  book_ok st → is_number (Order.price order) = true →
  String.eqb (Order.type order) BUY = false →
  String.eqb (Order.type order) SELL = true →
  ∃ st' new, processed st order st' new ∧ book_ok st'
    ∧ Forall (λ t, (Order.price order <=? Trade.price t)%float = true
                   ∧ (0 <? Trade.quantity t)%float = true) new.
Proof.
  intros Hok Hnum Hnb Hty.
  destruct (process_sell_spec st order (book_ok_clean st Hok) Hnb Hty)
    as (st' & new & Hp & _).
  exists st', new. split; [done|].
  destruct Hp as [Hp Hth]. unfold process_aggressive_order in Hp.
  rewrite Hnb, Hty in Hp.
  destruct (sell_loop _ order st order) as [[st1 rem]| |] eqn:Hloop; [|done..].
  simpl in Hp. injection Hp as <-.
  destruct Hok as (Hb & Hs & Hu).
  assert (Hinit : sell_ok st order st order).
  { split; [done|]. split; [done|]. split; [done|]. split; [apply fill_of_refl|].
    exists []. by rewrite app_nil_r. }
  destruct (sell_loop_invariant (sell_ok st order) order (sell_step_ok st order)
              _ st order _ Hinit Hloop)
    as [(Hb1 & Hs1 & Hu1 & Hrem & new1 & Hth1 & Hnew1) Hcond].
  simpl in *.
  pose proof (fill_of_fields _ _ Hrem) as (_ & _ & _ & Hremprice).
  assert (Hremty : Order.type rem = SELL).
  { rewrite Hrem. simpl. by apply String.eqb_eq. }
  assert (new1 = new) as ->.
  { apply (app_inv_head (trade_history st)). rewrite <-Hth1, <-Hth. by case_match. }
  split; [|done].
  destruct (0 <? Order.position_size rem)%float eqn:Hpos;
    [|split; [done | split; [by rewrite Hs1 | done]]].
  split; [|split]; simpl.
  - done.
  - rewrite Hs1. apply level_push_side_ok; try done;
      [apply less_trans | apply less_total | by rewrite Hremprice].
  - apply uncrossed_push_ask; [done|].
    apply (sell_cond_false_below st1 rem); try done. by rewrite Hremprice.
Qed.

Lemma process_keeps_book_ok st order :
  book_ok st → is_number (Order.price order) = true →
  ∃ st', process_aggressive_order st order = Ok st' ∧ book_ok st'.
Proof.
  intros Hok Hnum.
  destruct (String.eqb (Order.type order) BUY) eqn:Hb.
  { destruct (process_buy_ok st order Hok Hnum Hb) as (st' & new & [Hp _] & Hok' & _).
    by exists st'. }
  destruct (String.eqb (Order.type order) SELL) eqn:Hs.
  { destruct (process_sell_ok st order Hok Hnum Hb Hs) as (st' & new & [Hp _] & Hok' & _).
    by exists st'. }
  exists st. split; [by apply process_hold | done].
Qed.

Lemma clear_keeps_book_ok st : book_ok st → book_ok (clear_market_maker_orders st).
Proof.
  intros (Hb & Hs & Hu). split; [|split]; simpl.
  - by apply remove_mm_orders_side_ok.
  - by apply remove_mm_orders_side_ok.
  - eapply uncrossed_sub; [exact Hu | apply remove_mm_orders_keys..].
Qed.

(** X1. Started on a well-formed book, any sequence of market-maker
    clearings and of submissions of orders whose price is a number is
    defined and ends on a well-formed book: bids by strictly decreasing
    price and asks by strictly increasing price, every resting order at the
    price of its level, with a positive quantity, on the side of its type,
    and every bid level below every ask level. *)
Theorem book_stays_well_formed st ops :
  book_ok st → Forall priced ops →
  ∃ st', run_ops ops st = Ok st' ∧ book_ok st'.
Proof.
  revert st. induction ops as [|[order|] ops IH]; intros st Hok Hops; simpl.
  - eauto.
  - apply Forall_cons in Hops as [Hnum Hops]. simpl in Hnum.
    destruct (process_keeps_book_ok st order Hok Hnum) as (st1 & -> & Hok1).
    simpl. by apply IH.
  - apply Forall_cons in Hops as [_ Hops]. apply IH; [|done].
    by apply clear_keeps_book_ok.
Qed.

Lemma demo_market_empty_ok now : book_ok (demo_market now [] []).
Proof. split; [|split]; by repeat constructor. Qed.

Lemma book_stays_well_formed_witness :
  ∃ st', run_ops [Submit ask_first; Submit ask_second; Submit small_bid;
                  ClearMarketMakers; Submit (bid_101 2)]
           (demo_market 2 [] []) = Ok st'
    ∧ book_ok st'.
Proof.
  apply (book_stays_well_formed (demo_market 2 [] [])).
  - apply demo_market_empty_ok.
  - by repeat constructor.
Defined.

(** X2. On a well-formed book, a call with an order whose price is a
    number never trades outside the limit of the order: every trade of a BUY
    is at a price not above the order's, every trade of a SELL at a price
    not below it, and every trade is for a positive quantity. *)
Theorem limit_price_respected st order :
  book_ok st → is_number (Order.price order) = true →
  ∃ st' new, processed st order st' new
    ∧ (String.eqb (Order.type order) BUY = true →
       Forall (λ t, (Trade.price t <=? Order.price order)%float = true) new)
    ∧ (String.eqb (Order.type order) BUY = false →
       Forall (λ t, (Order.price order <=? Trade.price t)%float = true) new)
    ∧ Forall (λ t, (0 <? Trade.quantity t)%float = true) new.
Proof.
  intros Hok Hnum.
  destruct (String.eqb (Order.type order) BUY) eqn:Hb.
  { destruct (process_buy_ok st order Hok Hnum Hb) as (st' & new & Hp & _ & Hnew).
    exists st', new. split; [done|]. split; [|split; [done|]].
    - intros _. eapply Forall_impl; [exact Hnew|]. by intros t [? _].
    - eapply Forall_impl; [exact Hnew|]. by intros t [_ ?]. }
  destruct (String.eqb (Order.type order) SELL) eqn:Hs.
  { destruct (process_sell_ok st order Hok Hnum Hb Hs) as (st' & new & Hp & _ & Hnew).
    exists st', new. split; [done|]. split; [done|]. split.
    - intros _. eapply Forall_impl; [exact Hnew|]. by intros t [? _].
    - eapply Forall_impl; [exact Hnew|]. by intros t [_ ?]. }
  exists st, []. split; [|done]. split; [by apply process_hold|].
  by rewrite app_nil_r.
Qed.

Lemma two_sided_market_ok now : book_ok (two_sided_market now).
Proof.
  split; [|split].
  - split; [by repeat constructor|]. constructor; [|constructor].
    split; [done|]. by repeat constructor.
  - split; [by repeat constructor|]. constructor; [|constructor].
    split; [done|]. by repeat constructor.
  - by repeat constructor.
Qed.

Lemma limit_price_respected_witness :
  ∃ st' new, processed (two_sided_market 4) (bid_101 4) st' new
    ∧ Forall (λ t, (Trade.price t <=? Order.price (bid_101 4))%float = true) new
    ∧ Forall (λ t, (0 <? Trade.quantity t)%float = true) new.
Proof.
  destruct (limit_price_respected (two_sided_market 4) (bid_101 4)
              (two_sided_market_ok 4) eq_refl)
    as (st' & new & Hp & Hbuy & _ & Hq).
  exists st', new. split; [exact Hp|]. split; [exact (Hbuy eq_refl) | exact Hq].
Defined.

Lemma book_orders_elem o m :
  o ∈ book_orders m → ∃ l, l ∈ m ∧ o ∈ l.2.
Proof.
  induction m as [|[k q] rest IH]; [by intros ?%elem_of_nil|].
  rewrite book_orders_cons. intros [Ho|Ho]%elem_of_app.
  - exists (k, q). split; [apply elem_of_cons; by left | done].
  - destruct (IH Ho) as (l & Hl & Hol). exists l.
    split; [apply elem_of_cons; by right | done].
Qed.

(** X3. On a well-formed book the best bid is the highest price of a
    resting bid, the best ask the lowest price of a resting ask, and, when
    both sides hold orders, the best bid is below the best ask. *)
Theorem best_prices_are_extremal st :
  book_ok st →
  (∀ o, o ∈ book_orders (buys st) →
        (Order.price o <=? get_best_bid st)%float = true)
  ∧ (∀ o, o ∈ book_orders (sells st) →
          (get_best_ask st <=? Order.price o)%float = true)
  ∧ (buys st ≠ [] → sells st ≠ [] →
     (get_best_bid st <? get_best_ask st)%float = true).
Proof.
  intros ([Hbsorted Hblevels] & [Hssorted Hslevels] & Hu).
  unfold get_best_bid, get_best_ask. split; [|split].
  - destruct (buys st) as [|[k q] rest]; [by intros o ?%elem_of_nil|].
    intros o Ho. rewrite book_orders_cons in Ho.
    apply Forall_cons in Hblevels as [[_ Hq] Hrest]. destruct Hbsorted as [Hleast _].
    apply elem_of_app in Ho as [Ho|Ho].
    + destruct (proj1 (Forall_forall _ _) Hq o Ho) as (Hp & _). simpl in Hp.
      rewrite leb_ltb_eqb, Hp. by rewrite orb_true_r.
    + apply book_orders_elem in Ho as (l & Hl & Ho).
      destruct (proj1 (Forall_forall _ _) Hrest l Hl) as [_ Hall].
      destruct (proj1 (Forall_forall _ _) Hall o Ho) as (Hp & _).
      pose proof (proj1 (Forall_forall _ _) Hleast l Hl) as Hlt. unfold greater in Hlt.
      apply ltb_leb. by rewrite (eqb_ltb_l _ _ k Hp).
  - destruct (sells st) as [|[k q] rest]; [by intros o ?%elem_of_nil|].
    intros o Ho. rewrite book_orders_cons in Ho.
    apply Forall_cons in Hslevels as [[_ Hq] Hrest]. destruct Hssorted as [Hleast _].
    apply elem_of_app in Ho as [Ho|Ho].
    + destruct (proj1 (Forall_forall _ _) Hq o Ho) as (Hp & _). simpl in Hp.
      rewrite leb_ltb_eqb, (eqb_sym k), Hp. by rewrite orb_true_r.
    + apply book_orders_elem in Ho as (l & Hl & Ho).
      destruct (proj1 (Forall_forall _ _) Hrest l Hl) as [_ Hall].
      destruct (proj1 (Forall_forall _ _) Hall o Ho) as (Hp & _).
      pose proof (proj1 (Forall_forall _ _) Hleast l Hl) as Hlt. unfold less in Hlt.
      apply ltb_leb. by rewrite (eqb_ltb_r _ _ k Hp).
  - destruct (buys st) as [|[kb qb] restb]; [done|].
    destruct (sells st) as [|[ka qa] resta]; [done|]. intros _ _.
    apply Forall_cons in Hu as [Hu _]. by apply Forall_cons in Hu as [? _].
Qed.

Lemma best_prices_are_extremal_witness :
  (get_best_bid (two_sided_market 4) <? get_best_ask (two_sided_market 4))%float
  = true.
Proof.
  apply (best_prices_are_extremal (two_sided_market 4) (two_sided_market_ok 4));
    done.
Defined.

(** ** The matching of resting orders *)

Lemma length_book_orders_pop_front k so q rest :
  length (book_orders ((k, so :: q) :: rest))
  = S (length (book_orders (pop_front k q rest))).
Proof. rewrite book_orders_pop_front, book_orders_cons. done. Qed.

Lemma length_book_orders_level_push comp o m :
  length (book_orders (level_push comp o m)) = S (length (book_orders m)).
Proof. by rewrite book_orders_level_push. Qed.






(** The two resting orders of the crossed sample have the same origin, so
    they trade at the price of the ask. *)
Example crossed_market_matched :
  (λ r, (buys r.1, sells r.1, trade_history r.1, market_price r.1, r.2))
    <$> (match process_orders (crossed_market 4) with
         | Ok r => Some r | _ => None end)
  = Some ([], [], [Trade.mk 100 5 0 1 4 Monkey_t MeanReverter_t],
          DBL_MAX / 2, MarketTick.mk 100 5 100 (DBL_MAX / 2) 4)%float.
Proof. vm_compute. reflexivity. Qed.





(** ** Housekeeping of the histories *)

(** X6. [truncate_tick_history] keeps the most recent ticks, at most
    10000 of them: the old history is what was dropped followed by the new
    one, whose length is the smaller of the old length and 10000. Cutting
    twice is cutting once. The trade history is emptied when the clock is a
    multiple of 1000 and left alone otherwise, and the book, the ledgers and
    the roster are never written. *)
Theorem truncate_keeps_latest_ticks st :
  (∃ dropped, tick_history st = dropped ++ tick_history (truncate_tick_history st))
  ∧ length (tick_history (truncate_tick_history st))
    = (length (tick_history st) `min` max_ticks)%nat
  ∧ truncate_tick_history (truncate_tick_history st) = truncate_tick_history st
  ∧ (Z.rem (timestep st) 1000 = 0 →
     trade_history (truncate_tick_history st) = [])
  ∧ (Z.rem (timestep st) 1000 ≠ 0 →
     trade_history (truncate_tick_history st) = trade_history st)
  ∧ frame (truncate_tick_history st)
    = frame (set_tick_history st (tick_history (truncate_tick_history st)))
  ∧ buys (truncate_tick_history st) = buys st
  ∧ sells (truncate_tick_history st) = sells st
  ∧ heap (truncate_tick_history st) = heap st.
Proof.
  unfold truncate_tick_history. simpl.
  destruct (Nat.ltb_spec max_ticks (length (tick_history st))) as [Hlong|Hshort].
  - split; [|split; [|split]].
    + eexists. symmetry. apply take_drop.
    + rewrite length_drop. lia.
    + simpl. rewrite length_drop.
      destruct (Nat.ltb_spec max_ticks (length (tick_history st) - (length (tick_history st) - max_ticks)))
        as [Hl|_]; [lia|].
      by destruct (Z.rem (timestep st) 1000 =? 0).
    + split; [by intros ->|]. split; [|done].
      intros Hne. by destruct (Z.eqb_spec (Z.rem (timestep st) 1000) 0).
  - split; [by exists []|]. split; [lia|]. split.
    + simpl. destruct (Nat.ltb_spec max_ticks (length (tick_history st))) as [Hl|_]; [lia|].
      by destruct (Z.rem (timestep st) 1000 =? 0).
    + split; [by intros ->|]. split; [|done].
      intros Hne. by destruct (Z.eqb_spec (Z.rem (timestep st) 1000) 0).
Qed.

Example truncate_long_history :
  let st := set_tick_history (demo_market 7 [] [])
              (replicate 10002 (MarketTick.mk 100 0 100 50 1)
               ++ [MarketTick.mk 101 1 101 50 2]) in
  length (tick_history (truncate_tick_history st)) = 10000%nat
  ∧ last (tick_history (truncate_tick_history st))
    = Some (MarketTick.mk 101 1 101 50 2).
Proof. split; by vm_compute. Qed.

(** ** The outcome of an evolution step *)

Lemma protected_survivor h sorted p :
  NoDup (ids_of h sorted) → p ∈ sorted →
  find_survivors h sorted ∅ !! Trader.get_type (h !!! p)
    = Some (Trader.get_id (h !!! p))
  ↔ protected h sorted p = true.
Proof.
  intros Hnd Hp. unfold protected.
  rewrite find_survivors_lookup; [|apply get_type_three|set_solver].
  rewrite lookup_empty. rewrite bool_decide_eq_true.
  destruct (first_of_type h (Trader.get_type (h !!! p)) sorted) as [q|] eqn:Hfirst;
    simpl; [|done].
  split.
  - intros [= Hid]. f_equal.
    apply first_of_type_Some in Hfirst as [Hq _].
    by apply (NoDup_fmap_eq (λ p, Trader.get_id (h !!! p)) sorted).
  - by intros [= ->].
Qed.

(** The marked ids are those of the first [kill_count - killed]
    unprotected traders of the walk. *)
Lemma mark_kills_victims h sorted kill_count l killed :
  NoDup (ids_of h sorted) → l ⊆ sorted →
  mark_kills h (find_survivors h sorted ∅) kill_count l killed
  = ids_of h (take (Z.to_nat (kill_count - killed))
                   (filter (λ p, protected h sorted p = false) l)).
Proof.
  intros Hnd. revert killed. induction l as [|p l IH]; intros killed Hsub; simpl.
  { by rewrite filter_nil, take_nil. }
  assert (Hp : p ∈ sorted) by (apply Hsub; left).
  assert (Hl : l ⊆ sorted) by (intros q Hq; apply Hsub; by right).
  destruct (Z.ltb_spec killed kill_count) as [Hlt|Hge].
  2:{ replace (Z.to_nat (kill_count - killed)) with 0%nat by lia. done. }
  rewrite filter_cons.
  pose proof (protected_survivor h sorted p Hnd Hp) as Hprot.
  destruct (bool_decide _) eqn:Hsurv.
  - apply bool_decide_eq_true in Hsurv. apply Hprot in Hsurv.
    rewrite decide_False by (by rewrite Hsurv). by apply IH.
  - apply bool_decide_eq_false in Hsurv.
    rewrite decide_True.
    2:{ destruct (protected h sorted p) eqn:Hpr; [|done].
        destruct Hsurv. by apply Hprot. }
    replace (Z.to_nat (kill_count - killed))
      with (S (Z.to_nat (kill_count - (killed + 1)))) by lia.
    simpl. f_equal. by apply IH.
Qed.

Lemma victims_spec h sorted kill_count p :
  p ∈ victims h sorted kill_count → p ∈ sorted ∧ protected h sorted p = false.
Proof.
  unfold victims. intros Hp. apply subseteq_take in Hp.
  apply list_elem_of_filter in Hp as [Hpr Hp]. by rewrite elem_of_reverse in Hp.
Qed.

Lemma evolved_from_init st top : roster_wf st → evolved_from st top [] st.
Proof.
  intros Hwf. split; [done|]. split; [done|]. split; [exists []; by rewrite app_nil_r|].
  apply Forall_forall. intros q Hq. left. split; [done|]. split; [|done].
  apply not_elem_of_nil.
Qed.

(** One replacement more. *)
Lemma evolved_from_step st0 top done st id :
  roster_wf st0 → (top < length (heap st0))%nat →
  evolved_from st0 (heap st0 !!! top) done st →
  id ∈ ids_of (heap st0) (traders st0) →
  evolved_from st0 (heap st0 !!! top) (done ++ [id]) (replace_trader top st id).
Proof.
  intros Hwf0 Htop (Hwf & Hids & [added Hheap] & Hall) Hid.
  assert (Hid' : id ∈ ids_of (heap st) (traders st)) by by rewrite Hids.
  destruct (replace_trader_spec top st id Hwf Hid')
    as (Hwf1 & Hids1 & _ & _ & _ & Hheap1 & _).
  assert (Htopobj : heap st !!! top = heap st0 !!! top).
  { rewrite Hheap. by apply lookup_total_app_l. }
  split; [done|]. split; [by rewrite Hids1|]. split.
  { exists (added ++ [clone (heap st !!! top) id]).
    by rewrite Hheap1, Hheap, <-app_assoc. }
  destruct Hwf as (Hvalid & Hnd & _).
  destruct (replace_first_spec (heap st) (clone (heap st !!! top) id) id (traders st)
              (get_id_clone _ _) Hvalid Hnd) as (_ & _ & Hnew & _).
  rewrite Hheap1. unfold replace_trader. simpl.
  apply Forall_forall. intros q Hq.
  pose proof (proj1 (Forall_forall _ _) Hnew q Hq) as [->|[Hold Hne]].
  - right. split; [rewrite Hheap, length_app; lia|].
    exists id. split; [apply elem_of_app; right; by left|].
    rewrite list_lookup_total_middle by done. by rewrite Htopobj.
  - pose proof (proj1 (Forall_forall _ _) Hvalid q Hold) as Hlt. simpl in Hlt.
    rewrite (lookup_total_app_l _ _ _ Hlt).
    pose proof (proj1 (Forall_forall _ _) Hall q Hold) as [(Hq0 & Hnot & Heq)|(Hge & id' & Hin & Heq)].
    + left. split; [done|]. split; [|done].
      rewrite Heq in Hne. intros [Hd|Hd%list_elem_of_singleton]%elem_of_app; [done|].
      by rewrite Hd in Hne.
    + right. split; [done|]. exists id'. split; [|done].
      apply elem_of_app. by left.
Qed.

(** All the replacements. *)
Lemma evolved_from_fold st0 top to_kill done st :
  roster_wf st0 → (top < length (heap st0))%nat →
  evolved_from st0 (heap st0 !!! top) done st →
  Forall (λ id, id ∈ ids_of (heap st0) (traders st0)) to_kill →
  evolved_from st0 (heap st0 !!! top) (done ++ to_kill)
    (foldl (replace_trader top) st to_kill).
Proof.
  intros Hwf0 Htop. revert done st.
  induction to_kill as [|id rest IH]; intros done st Hinv Hids; simpl.
  { by rewrite app_nil_r. }
  apply Forall_cons in Hids as [Hid Hrest].
  replace (done ++ id :: rest) with ((done ++ [id]) ++ rest)
    by (by rewrite <-app_assoc).
  apply IH; [|done]. by apply evolved_from_step.
Qed.

Section EvolutionOutcome.
Variable std_sort : (ptr → ptr → bool) → list ptr → list ptr.
Hypothesis std_sort_perm : ∀ comp l, std_sort comp l ≡ₚ l.

(** A due step, unfolded. *)
Lemma evolve_traders_due st kill_count top rest :
  evolution_ticks st ≠ 0 →
  Z.rem (timestep st) (evolution_ticks st) = 0 →
  round_to_int (size_to_double (length (traders st)) * kill_percentage st)%float
    = Some kill_count →
  ranking std_sort st = top :: rest →
  evolve_traders std_sort st
  = Ok (foldl (replace_trader top) st
          (mark_kills (heap st) (find_survivors (heap st) (ranking std_sort st) ∅)
             kill_count (reverse (ranking std_sort st)) 0)).
Proof.
  intros Hperiod Hgate Hkc Hrank. unfold evolve_traders.
  destruct (Z.eqb_spec (evolution_ticks st) 0) as [|_]; [done|].
  rewrite Hgate. simpl. fold (ranking std_sort st).
  assert (Hperm : ranking std_sort st ≡ₚ traders st) by apply std_sort_perm.
  rewrite (Permutation_length Hperm), Hkc. by rewrite Hrank.
Qed.

(** X7. A due evolution step replaces exactly the [kill_count] worst-ranked
    traders that are not the best of their type (all of them if there are
    fewer), and nobody else. Every other trader of the roster stays, with
    its object untouched; the roster entry of each replaced trader is gone,
    and the map sends its id to a new roster entry that is the clone of the
    best-ranked trader for that id; the best-ranked trader is never
    replaced; and every entry of the new roster is one of these two
    kinds. *)
Theorem evolution_replaces_the_worst st :
  roster_wf st → evolve_defined st →
  Z.rem (timestep st) (evolution_ticks st) = 0 →
  ∃ st' kill_count top,
    evolve_traders std_sort st = Ok st'
    ∧ round_to_int (size_to_double (length (traders st)) * kill_percentage st)%float
      = Some kill_count
    ∧ head (ranking std_sort st) = Some top
    ∧ (top ∉ victims (heap st) (ranking std_sort st) kill_count)
    ∧ (∀ p, p ∈ traders st →
         p ∉ victims (heap st) (ranking std_sort st) kill_count →
         p ∈ traders st' ∧ heap st' !!! p = heap st !!! p)
    ∧ (∀ p, p ∈ victims (heap st) (ranking std_sort st) kill_count →
         p ∈ traders st ∧ (p ∉ traders st')
         ∧ ∃ q, trader_map st' !! Trader.get_id (heap st !!! p) = Some q
              ∧ q ∈ traders st'
              ∧ heap st' !!! q
                = clone (heap st !!! top) (Trader.get_id (heap st !!! p)))
    ∧ Forall (λ q, (q ∈ traders st
                    ∧ (q ∉ victims (heap st) (ranking std_sort st) kill_count)
                    ∧ heap st' !!! q = heap st !!! q)
                   ∨ (∃ p, p ∈ victims (heap st) (ranking std_sort st) kill_count
                        ∧ heap st' !!! q
                          = clone (heap st !!! top) (Trader.get_id (heap st !!! p))))
        (traders st').
Proof.
  intros Hwf [Hperiod Hdue] Hgate.
  destruct (Hdue Hgate) as [Hne [kill_count Hkc]].
  assert (Hperm : ranking std_sort st ≡ₚ traders st) by apply std_sort_perm.
  destruct Hwf as (Hvalid & Hnd & Hmap).
  assert (Hwf : roster_wf st) by done.
  assert (Hnd' : NoDup (ids_of (heap st) (ranking std_sort st))).
  { unfold ids_of. by rewrite Hperm. }
  set (out := victims (heap st) (ranking std_sort st) kill_count).
  assert (Hkill : mark_kills (heap st) (find_survivors (heap st) (ranking std_sort st) ∅)
                    kill_count (reverse (ranking std_sort st)) 0
                  = ids_of (heap st) out).
  { rewrite mark_kills_victims; [|done|].
    - by rewrite Z.sub_0_r.
    - intros q. by rewrite elem_of_reverse. }
  assert (Hout : ∀ p, p ∈ out →
            p ∈ traders st ∧ protected (heap st) (ranking std_sort st) p = false).
  { intros p [Hp Hpr]%victims_spec. split; [by rewrite <-Hperm | done]. }
  assert (Hidin : ∀ p, p ∈ traders st →
            Trader.get_id (heap st !!! p) ∈ ids_of (heap st) out → p ∈ out).
  { intros p Hp (p' & Hid & Hp')%list_elem_of_fmap.
    destruct (Hout p' Hp') as [Hp'' _].
    assert (p = p') as ->; [|done].
    by apply (NoDup_fmap_eq (λ p, Trader.get_id (heap st !!! p)) (traders st)). }
  assert (Hrank : ∃ top rest, ranking std_sort st = top :: rest).
  { destruct (ranking std_sort st) as [|top rest]; [|by eauto].
    apply Permutation_nil_l in Hperm. by destruct Hne. }
  destruct Hrank as (top & rest & Hrank).
  rewrite (evolve_traders_due st kill_count top rest Hperiod Hgate Hkc Hrank), Hkill.
  assert (Htopin : top ∈ traders st).
  { rewrite <-Hperm, Hrank. by left. }
  assert (Htop : (top < length (heap st))%nat).
  { exact (proj1 (Forall_forall _ _) Hvalid top Htopin). }
  assert (Hids : Forall (λ id, id ∈ ids_of (heap st) (traders st)) (ids_of (heap st) out)).
  { apply Forall_forall. intros id (p & -> & Hp)%list_elem_of_fmap.
    destruct (Hout p Hp) as [Hp' _].
    by apply (list_elem_of_fmap_2 (λ p, Trader.get_id (heap st !!! p))). }
  destruct (evolve_fold top (ids_of (heap st) out) st Hwf Hids)
    as (_ & _ & _ & _ & _ & Hkeep).
  destruct (evolved_from_fold st top (ids_of (heap st) out) [] st Hwf Htop
              (evolved_from_init st _ Hwf) Hids)
    as (Hwf' & Hids' & [added Hheap'] & Hall).
  simpl in Hall.
  set (st' := foldl (replace_trader top) st (ids_of (heap st) out)) in *.
  exists st', kill_count, top.
  split; [done|]. split; [done|]. split; [by rewrite Hrank|].
  fold out.
  assert (Hkinds : Forall (λ q, (q ∈ traders st ∧ (q ∉ out)
                    ∧ heap st' !!! q = heap st !!! q)
                   ∨ ((length (heap st) ≤ q)%nat ∧ ∃ p, p ∈ out
                        ∧ heap st' !!! q
                          = clone (heap st !!! top) (Trader.get_id (heap st !!! p))))
        (traders st')).
  { eapply Forall_impl; [exact Hall|]. simpl.
    intros q [(Hq & Hnot & Heq)|(Hge & id & (p & -> & Hp)%list_elem_of_fmap & Heq)].
    - left. split; [done|]. split; [|done]. intros Hqo. apply Hnot.
      by apply (list_elem_of_fmap_2 (λ p, Trader.get_id (heap st !!! p))).
    - right. split; [done|]. by exists p. }
  split; [|split; [|split]].
  - (* the best-ranked trader is protected *)
    intros [_ Hpr]%victims_spec. unfold protected in Hpr.
    apply bool_decide_eq_false in Hpr. apply Hpr.
    rewrite Hrank. simpl. by rewrite String.eqb_refl.
  - intros p Hp Hnot. apply Hkeep; [done|]. intros Hin. by apply Hnot, Hidin.
  - intros p Hp. destruct (Hout p Hp) as [Hp' _]. split; [done|].
    pose proof (proj1 (Forall_forall _ _) Hvalid p Hp') as Hlt. simpl in Hlt.
    split.
    + intros Hin.
      pose proof (proj1 (Forall_forall _ _) Hkinds p Hin) as [(_ & Hnot & _)|(Hge & _)];
        [done|lia].
    + (* the id is still in the roster, at a clone *)
      assert (Hidp : Trader.get_id (heap st !!! p) ∈ ids_of (heap st') (traders st')).
      { rewrite Hids'. by apply (list_elem_of_fmap_2 (λ p, Trader.get_id (heap st !!! p))). }
      apply list_elem_of_fmap in Hidp as (q & Hidq & Hq).
      exists q. destruct Hwf' as (_ & _ & Hmap').
      split; [|split; [done|]].
      * rewrite Hidq. exact (proj1 (Forall_forall _ _) Hmap' q Hq).
      * pose proof (proj1 (Forall_forall _ _) Hkinds q Hq)
          as [(Hq0 & Hnot & Heq)|(_ & p' & Hp'o & Heq)].
        -- rewrite Heq in Hidq. destruct Hnot.
           assert (p = q) as <-; [|done].
           by apply (NoDup_fmap_eq (λ p, Trader.get_id (heap st !!! p)) (traders st)).
        -- rewrite Heq in Hidq. rewrite get_id_clone in Hidq.
           by rewrite Heq, Hidq.
  - eapply Forall_impl; [exact Hkinds|]. simpl.
    intros q [H|[_ H]]; [by left|by right].
Qed.

End EvolutionOutcome.

Lemma evolve_market_due : Z.rem (timestep (evolve_market 10)) (evolution_ticks (evolve_market 10)) = 0.
Proof. reflexivity. Qed.

Lemma evolution_replaces_the_worst_witness :
  ∃ st' kill_count top,
    evolve_traders insertion_sort (evolve_market 10) = Ok st'
    ∧ round_to_int (size_to_double (length (traders (evolve_market 10)))
                    * kill_percentage (evolve_market 10))%float
      = Some kill_count
    ∧ head (ranking insertion_sort (evolve_market 10)) = Some top
    ∧ (top ∉ victims (heap (evolve_market 10))
               (ranking insertion_sort (evolve_market 10)) kill_count)
    ∧ (∀ p, p ∈ traders (evolve_market 10) →
         p ∉ victims (heap (evolve_market 10))
               (ranking insertion_sort (evolve_market 10)) kill_count →
         p ∈ traders st' ∧ heap st' !!! p = heap (evolve_market 10) !!! p)
    ∧ (∀ p, p ∈ victims (heap (evolve_market 10))
                  (ranking insertion_sort (evolve_market 10)) kill_count →
         p ∈ traders (evolve_market 10) ∧ (p ∉ traders st')
         ∧ ∃ q, trader_map st' !! Trader.get_id (heap (evolve_market 10) !!! p) = Some q
              ∧ q ∈ traders st'
              ∧ heap st' !!! q
                = clone (heap (evolve_market 10) !!! top)
                    (Trader.get_id (heap (evolve_market 10) !!! p)))
    ∧ Forall (λ q, (q ∈ traders (evolve_market 10)
                    ∧ (q ∉ victims (heap (evolve_market 10))
                           (ranking insertion_sort (evolve_market 10)) kill_count)
                    ∧ heap st' !!! q = heap (evolve_market 10) !!! q)
                   ∨ (∃ p, p ∈ victims (heap (evolve_market 10))
                             (ranking insertion_sort (evolve_market 10)) kill_count
                        ∧ heap st' !!! q
                          = clone (heap (evolve_market 10) !!! top)
                              (Trader.get_id (heap (evolve_market 10) !!! p))))
        (traders st').
Proof.
  exact (evolution_replaces_the_worst insertion_sort insertion_sort_perm
           (evolve_market 10) (evolve_market_wf 10) evolve_market_defined
           evolve_market_due).
Defined.

(** In the five-trader market the kill count is 3 (2.5 rounds away from
    zero), but only two traders are unprotected: the Monkeys 3 and the
    MeanReverter 1. Both are replaced by clones of trader 0. *)
Example evolve_market_victims :
  round_to_int (size_to_double 5 * kill_percentage (evolve_market 10))%float = Some 3
  ∧ ranking insertion_sort (evolve_market 10) = [0; 4; 3; 1; 2]%nat
  ∧ victims (heap (evolve_market 10)) (ranking insertion_sort (evolve_market 10)) 3
    = [1; 3]%nat.
Proof. split; [|split]; by vm_compute. Qed.

(** ** Market makers in a tick *)

Lemma book_orders_remove_mm m :
  book_orders (remove_mm_orders m) = List.filter not_market_maker (book_orders m).
Proof.
  induction m as [|[k q] rest IH]; [done|].
  rewrite book_orders_cons, List.filter_app. simpl.
  destruct (List.filter not_market_maker q) as [|o q'] eqn:Hq; [done|].
  by rewrite book_orders_cons, IH.
Qed.

Lemma remove_mm_orders_fixed m :
  no_empty_levels m →
  Forall (λ o, not_market_maker o = true) (book_orders m) →
  remove_mm_orders m = m.
Proof.
  induction m as [|[k q] rest IH]; [done|].
  intros [Hq Hrest]%Forall_cons. rewrite book_orders_cons.
  intros [Hk Hr]%Forall_app. simpl in *.
  assert (Hfix : List.filter not_market_maker q = q).
  { clear Hq. induction q as [|o q IHq]; [done|]. simpl.
    apply Forall_cons in Hk as [-> Hk]. f_equal. by apply IHq. }
  rewrite Hfix. destruct q; [done|]. f_equal. by apply IH.
Qed.

Lemma cleared_book_labels st r :
  r ∈ resting (clear_market_maker_orders st) →
  Order.trader_type r ≠ MarketMaker_t.
Proof.
  assert (Hlabel : ∀ m r, r ∈ book_orders (remove_mm_orders m) →
            not_market_maker r = true).
  { intros m r'. rewrite book_orders_remove_mm.
    intros Hr%list_elem_of_In. by apply List.filter_In in Hr as [_ Hr]. }
  intros [Hr|Hr]%elem_of_app; apply Hlabel in Hr;
    unfold not_market_maker in Hr; apply negb_true_iff in Hr;
    intros Heq; rewrite Heq in Hr; done.
Qed.

(** X8. [clear_market_maker_orders] removes the resting orders labelled
    ["MarketMaker"] and nothing else: on each side, the orders left are the
    other orders, in the order the book held them (best level first, oldest
    first within a level). It writes nothing but the two sides of the book,
    leaves no empty level, and clearing a cleared book changes nothing. *)
Theorem clear_removes_only_market_makers st :
  book_orders (buys (clear_market_maker_orders st))
    = List.filter not_market_maker (book_orders (buys st))
  ∧ book_orders (sells (clear_market_maker_orders st))
    = List.filter not_market_maker (book_orders (sells st))
  ∧ (∀ r, r ∈ resting (clear_market_maker_orders st) →
       Order.trader_type r ≠ MarketMaker_t)
  ∧ book_clean (clear_market_maker_orders st)
  ∧ clear_market_maker_orders (clear_market_maker_orders st)
    = clear_market_maker_orders st
  ∧ frame (clear_market_maker_orders st) = frame st
  ∧ heap (clear_market_maker_orders st) = heap st
  ∧ trade_history (clear_market_maker_orders st) = trade_history st
  ∧ market_price (clear_market_maker_orders st) = market_price st.
Proof.
  assert (Hlabel : ∀ m r, r ∈ book_orders (remove_mm_orders m) →
            not_market_maker r = true).
  { intros m r. rewrite book_orders_remove_mm.
    intros Hr%list_elem_of_In. by apply List.filter_In in Hr as [_ Hr]. }
  split; [apply book_orders_remove_mm|]. split; [apply book_orders_remove_mm|].
  split; [apply cleared_book_labels|].
  split; [apply clear_market_maker_orders_clean|].
  split; [|done].
  unfold clear_market_maker_orders. simpl.
  rewrite (remove_mm_orders_fixed (remove_mm_orders (buys st))),
          (remove_mm_orders_fixed (remove_mm_orders (sells st)));
    try apply remove_mm_orders_no_empty;
    try (apply Forall_forall; intros r Hr; by eapply Hlabel).
  done.
Qed.

Lemma frame_clock st st' :
  frame st' = frame st →
  timestep st' = timestep st ∧ max_order_age st' = max_order_age st.
Proof. intros Hf. frame_eqs Hf. done. Qed.

(** Once the clock is past the age limit, a quote is never the maker of a
    trade. *)
Lemma process_past_age st order :
  book_clean st → quotes_at_origin (resting st) →
  max_order_age st < timestep st →
  (Order.trader_type order = MarketMaker_t → Order.timestep order = 0) →
  ∃ st' new, processed st order st' new
    ∧ book_clean st' ∧ frame st' = frame st
    ∧ quotes_at_origin (resting st')
    ∧ Forall (λ t, Trade.timestep t = timestep st
                   ∧ taken_by (Order.trader_type order) t) new.
Proof.
  intros Hc Hq Hage Horigin.
  destruct (process_aggressive_order_spec st order Hc)
    as (st' & new & Hproc & Hc' & Hf' & Hdesc & Hnew).
  exists st', new. split; [done|]. split; [done|]. split; [done|].
  split; [by apply (quotes_at_origin_descends st order)|].
  eapply Forall_impl; [exact Hnew|]. simpl.
  intros t [(r & Hr & _ & _ & Hst & _ & Hbt & Hts & _ & Hfresh)
           |(r & Hr & _ & _ & Hbt & _ & Hst & Hts & _ & Hfresh)];
    (split; [done|]).
  - left. split; [done|]. rewrite Hst. intros Hmm.
    assert (Order.timestep r = 0); [|lia].
    apply Hq; [|done]. apply elem_of_app. by right.
  - right. split; [done|]. rewrite Hbt. intros Hmm.
    assert (Order.timestep r = 0); [|lia].
    apply Hq; [|done]. apply elem_of_app. by left.
Qed.

Lemma process_orders_of_past_age label orders st :
  book_clean st → quotes_at_origin (resting st) →
  max_order_age st < timestep st →
  Forall (λ o, Order.trader_type o = label
               ∧ (label = MarketMaker_t → Order.timestep o = 0)) orders →
  ∃ st' new, process_orders_of st orders = Ok st'
    ∧ trade_history st' = trade_history st ++ new
    ∧ book_clean st' ∧ frame st' = frame st
    ∧ quotes_at_origin (resting st')
    ∧ Forall (λ t, Trade.timestep t = timestep st ∧ taken_by label t) new.
Proof.
  revert st. induction orders as [|o rest IH]; intros st Hc Hq Hage Hall; simpl.
  { exists st, []. by rewrite app_nil_r. }
  apply Forall_cons in Hall as [[Hlabel Horigin] Hall].
  destruct (process_past_age st o Hc Hq Hage) as
    (st1 & new1 & [-> Hth1] & Hc1 & Hf1 & Hq1 & Hnew1).
  { rewrite Hlabel. exact Horigin. }
  simpl. destruct (frame_clock _ _ Hf1) as [Hts1 Hage1].
  destruct (IH st1 Hc1 Hq1) as (st' & new & -> & Hth & Hc' & Hf' & Hq' & Hnew);
    [lia|done|].
  exists st', (new1 ++ new). split; [done|].
  split; [by rewrite Hth, Hth1, <-app_assoc|].
  split; [done|]. split; [by rewrite Hf'|]. split; [done|].
  apply Forall_app. split.
  - by rewrite <-Hlabel.
  - by rewrite <-Hts1.
Qed.

Lemma quote_all_past_age mms st :
  book_clean st → quotes_at_origin (resting st) →
  max_order_age st < timestep st →
  ∃ st' new, quote_all mms st = Ok st'
    ∧ trade_history st' = trade_history st ++ new
    ∧ book_clean st' ∧ frame st' = frame st
    ∧ quotes_at_origin (resting st')
    ∧ Forall (λ t, Trade.timestep t = timestep st ∧ one_market_maker t) new.
Proof.
  revert st. induction mms as [|mm rest IH]; intros st Hc Hq Hage.
  { exists st, []. simpl. by rewrite app_nil_r. }
  cbn [quote_all].
  destruct (process_orders_of_past_age MarketMaker_t
              (MarketMaker.quote mm (market_price st)) st Hc Hq Hage)
    as (st1 & new1 & -> & Hth1 & Hc1 & Hf1 & Hq1 & Hnew1).
  { apply Forall_forall. intros o Ho.
    destruct (quote_at_origin _ _ _ Ho) as [Hts Hl]. done. }
  simpl. destruct (frame_clock _ _ Hf1) as [Hts1 Hage1].
  destruct (IH st1 Hc1 Hq1) as (st' & new & -> & Hth & Hc' & Hf' & Hq' & Hnew);
    [lia|].
  exists st', (new1 ++ new). split; [done|].
  split; [by rewrite Hth, Hth1, <-app_assoc|].
  split; [done|]. split; [by rewrite Hf'|]. split; [done|].
  apply Forall_app. split; [done|]. by rewrite <-Hts1.
Qed.

Section TickMakers.
Variable std_sort : (ptr → ptr → bool) → list ptr → list ptr.
Hypothesis std_sort_perm : ∀ comp l, std_sort comp l ≡ₚ l.
Variable Gen : Type.
Variable make_order :
  Trader.t → double → double → double → list MarketTick.t → Z → Gen → Order.t * Gen.
Hypothesis make_order_label : ∀ tr market_price best_bid best_ask tick_history now g,
  Order.trader_type (make_order tr market_price best_bid best_ask tick_history now g).1
    ≠ MarketMaker_t.

Lemma trade_all_past_age roster st g :
  book_clean st → quotes_at_origin (resting st) →
  max_order_age st < timestep st →
  ∃ st' g' new, trade_all Gen make_order roster st g = Ok (st', g')
    ∧ trade_history st' = trade_history st ++ new
    ∧ book_clean st' ∧ frame st' = frame st
    ∧ quotes_at_origin (resting st')
    ∧ Forall (λ t, Trade.timestep t = timestep st ∧ between_traders t) new.
Proof.
  revert st g. induction roster as [|p rest IH]; intros st g Hc Hq Hage; simpl.
  { exists st, g, []. by rewrite app_nil_r. }
  set (r := make_order (heap st !!! p) (market_price st) (get_best_bid st)
              (get_best_ask st) (tick_history st) (timestep st) g).
  assert (Hlabel : Order.trader_type r.1 ≠ MarketMaker_t) by apply make_order_label.
  destruct (process_past_age st r.1 Hc Hq Hage) as
    (st1 & new1 & [-> Hth1] & Hc1 & Hf1 & Hq1 & Hnew1); [done|].
  simpl. destruct (frame_clock _ _ Hf1) as [Hts1 Hage1].
  destruct (IH st1 r.2 Hc1 Hq1) as (st' & g' & new & -> & Hth & Hc' & Hf' & Hq' & Hnew);
    [lia|].
  exists st', g', (new1 ++ new). split; [done|].
  split; [by rewrite Hth, Hth1, <-app_assoc|].
  split; [done|]. split; [by rewrite Hf'|]. split; [done|].
  apply Forall_app. split.
  - eapply Forall_impl; [exact Hnew1|]. simpl.
    intros t [Hts [[Hb Hs]|[Hs Hb]]]; (split; [done|]); split; congruence.
  - by rewrite <-Hts1.
Qed.

(** The phases of a tick: what the quotes and the traders' orders leave is
    what the tick returns, up to the roster, the clock and the snapshot. *)
Lemma tick_phases st g st1 st2 g' :
  roster_wf st → tick_defined st →
  quote_all (market_makers st) (reset_tick_volumes (clear_market_maker_orders st))
    = Ok st1 →
  frame st1 = frame st →
  trade_all Gen make_order (traders st1) st1 g = Ok (st2, g') →
  frame st2 = frame st →
  ∃ st', tick std_sort Gen make_order st g = Ok (st', g')
    ∧ trade_history st' = trade_history st2
    ∧ buys st' = buys st2 ∧ sells st' = sells st2
    ∧ market_price st' = market_price st2
    ∧ total_trade_volume st' = total_trade_volume st2
    ∧ total_price_volume st' = total_price_volume st2
    ∧ timestep st' = timestep st + 1
    ∧ tick_history st' = tick_history st ++ [tick_snapshot st'].
Proof.
  intros Hwf [Hwe Hev] Hquote Hf1 Htrade Hf. unfold tick.
  change (market_makers (reset_tick_volumes (clear_market_maker_orders st)))
    with (market_makers st).
  rewrite Hquote. simpl. rewrite Htrade. simpl.
  set (st2' := set_timestep st2 (timestep st2 + 1)).
  destruct (frame_roster st st2 Hf) as (Hids2 & _ & Hwf2).
  assert (Hwf2' : roster_wf st2') by (by apply Hwf2).
  assert (Hfields : evolve st2 = evolve st ∧ write_every st2 = write_every st
            ∧ timestep st2 = timestep st ∧ evolution_ticks st2 = evolution_ticks st
            ∧ traders st2 = traders st ∧ kill_percentage st2 = kill_percentage st
            ∧ tick_history st2 = tick_history st).
  { frame_eqs Hf. done. }
  destruct Hfields as (Hev2 & Hwe2 & Hts2 & Het2 & Htr2 & Hkp2 & Hth2).
  assert (∃ st3, (if evolve st2 then evolve_traders std_sort st2' else Ok st2') = Ok st3
            ∧ outside_roster st3 = outside_roster st2')
    as (st3 & -> & Hout3).
  { destruct (evolve st2) eqn:Hon; [|by exists st2'].
    assert (Hdef : evolve_defined st2').
    { unfold evolve_defined in *. simpl in *.
      rewrite Hts2, Het2, Htr2, Hkp2. apply Hev. congruence. }
    destruct (evolve_traders_spec std_sort std_sort_perm st2' Hwf2' Hdef)
      as (st3 & ? & ? & ? & ? & ? & ? & _).
    by exists st3. }
  simpl. unfold outside_roster in Hout3. simpl in Hout3.
  injection Hout3 as Hts3 Hmp3 _ _ _ Hwe3 _ _ Htv3 Hpv3 _ Hb3 Hs3 Hth3 Htk3.
  destruct (Z.eqb_spec (write_every st3) 0) as [Hz|_]; [congruence|].
  eexists. split; [done|]. simpl.
  do 6 (split; [done|]). split; [lia|]. by rewrite Htk3, Hth2.
Qed.

(** X9. In a tick that starts with the clock past [max_order_age], no
    market maker's quote is ever the maker of a trade. The trades of the
    tick come in two runs: those made while the market makers quote, each
    with a market maker on exactly one side (its quote took a trader's
    resting order), and those made while the traders act, none of which
    has a market maker on either side. All carry the clock of the tick
    start. This holds for any decision rule that labels its orders with
    something else than ["MarketMaker"]. *)
Theorem market_makers_never_supply st g :
  roster_wf st → tick_defined st →
  max_order_age st < timestep st →
  ∃ st1 quoted st' g' traded,
    quote_all (market_makers st) (reset_tick_volumes (clear_market_maker_orders st))
      = Ok st1
    ∧ trade_history st1 = trade_history st ++ quoted
    ∧ tick std_sort Gen make_order st g = Ok (st', g')
    ∧ trade_history st' = trade_history st ++ quoted ++ traded
    ∧ Forall (λ t, Trade.timestep t = timestep st ∧ one_market_maker t) quoted
    ∧ Forall (λ t, Trade.timestep t = timestep st ∧ between_traders t) traded
    ∧ quotes_at_origin (resting st').
Proof.
  intros Hwf Hdef Hage.
  set (st0 := reset_tick_volumes (clear_market_maker_orders st)).
  assert (Hc0 : book_clean st0) by apply (clear_market_maker_orders_clean st).
  assert (Hf0 : frame st0 = frame st) by done.
  assert (Hq0 : quotes_at_origin (resting st0)).
  { intros r Hr Hmm. by destruct (cleared_book_labels st r Hr). }
  destruct (quote_all_past_age (market_makers st) st0 Hc0 Hq0 Hage)
    as (st1 & quoted & Hquote & Hth1 & Hc1 & Hf1 & Hq1 & Hquoted).
  assert (Hclock : timestep st1 = timestep st ∧ max_order_age st1 = max_order_age st)
    by exact (frame_clock _ _ Hf1).
  destruct Hclock as [Hts1 Hage1].
  destruct (trade_all_past_age (traders st1) st1 g Hc1 Hq1)
    as (st2 & g' & traded & Htrade & Hth2 & Hc2 & Hf2 & Hq2 & Htraded); [lia|].
  destruct (tick_phases st g st1 st2 g' Hwf Hdef Hquote) as (st' & Htick & Hth & Hb & Hs & _).
  { by rewrite Hf1. } { done. } { by rewrite Hf2, Hf1. }
  exists st1, quoted, st', g', traded.
  split; [done|]. split; [done|]. split; [done|].
  split; [by rewrite Hth, Hth2, Hth1, <-app_assoc|].
  split; [done|]. split; [by rewrite <-Hts1|].
  unfold resting. rewrite Hb, Hs. exact Hq2.
Qed.

End TickMakers.

Lemma demo_make_order_label tr market_price best_bid best_ask tick_history now g :
  Order.trader_type (demo_make_order tr market_price best_bid best_ask
                       tick_history now g).1 ≠ MarketMaker_t.
Proof.
  unfold demo_make_order, Trader.get_type.
  by destruct (Nat.even g), (Trader.class tr).
Qed.

Lemma market_makers_never_supply_witness :
  ∃ st1 quoted st' g' traded,
    quote_all (market_makers (evolve_market 9))
      (reset_tick_volumes (clear_market_maker_orders (evolve_market 9))) = Ok st1
    ∧ trade_history st1 = trade_history (evolve_market 9) ++ quoted
    ∧ tick insertion_sort nat demo_make_order (evolve_market 9) 0%nat = Ok (st', g')
    ∧ trade_history st' = trade_history (evolve_market 9) ++ quoted ++ traded
    ∧ Forall (λ t, Trade.timestep t = timestep (evolve_market 9)
                   ∧ one_market_maker t) quoted
    ∧ Forall (λ t, Trade.timestep t = timestep (evolve_market 9)
                   ∧ between_traders t) traded
    ∧ quotes_at_origin (resting st').
Proof.
  exact (market_makers_never_supply insertion_sort insertion_sort_perm nat
           demo_make_order demo_make_order_label (evolve_market 9) 0%nat
           (evolve_market_wf 9) evolve_market_tick_defined eq_refl).
Defined.

(** The tick of the five-trader market at clock 9: the market maker quotes
    99 and 101; the first trader's bid at 101 finds the quote at 101 too old
    and drops it, and the trades that follow are between traders. *)
Example evolve_market_tick_trades :
  (λ r, (λ t, (Trade.price t, Trade.buyer_type t, Trade.seller_type t))
          <$> trade_history r.1)
    <$> (match tick insertion_sort nat demo_make_order (evolve_market 9) 0%nat with
         | Ok r => Some r | _ => None end)
  = Some [(101%float, Monkey_t, MeanReverter_t);
          (102%float, MomentumTrader_t, Monkey_t)].
Proof. vm_compute. reflexivity. Qed.

(** ** Construction *)

Lemma built_empty : built (TraderInitResult.mk [] [] ∅) 0.
Proof.
  split; [done|]. split; [done|]. split; [done|]. split; [|done].
  intros k. simpl. rewrite lookup_empty.
  rewrite bool_decide_eq_false_2; [done|lia].
Qed.

Lemma add_trader_built result global_id c :
  built result global_id →
  built (add_trader result global_id c) (global_id + 1).
Proof.
  intros (Hid & Hroster & Hids & Hmap & Hledger).
  unfold built, add_trader. simpl.
  rewrite length_app. simpl.
  replace (length (TraderInitResult.objects result) + 1)%nat
    with (S (length (TraderInitResult.objects result))) by lia.
  split; [lia|]. split; [by rewrite seq_S, Hroster|].
  split.
  { rewrite fmap_app, seq_S, fmap_app, Hids. simpl.
    unfold Trader.get_id. simpl. by rewrite Hid. }
  split.
  - intros k. destruct (decide (k = global_id)) as [->|Hne].
    + rewrite lookup_insert_eq. rewrite bool_decide_eq_true_2 by lia.
      f_equal. lia.
    + rewrite lookup_insert_ne by done. rewrite Hmap.
      destruct (bool_decide (0 ≤ k < global_id)) eqn:Hk.
      * apply bool_decide_eq_true in Hk. by rewrite bool_decide_eq_true_2 by lia.
      * apply bool_decide_eq_false in Hk. by rewrite bool_decide_eq_false_2 by lia.
  - apply Forall_app. split; [done|]. by repeat constructor.
Qed.

Lemma add_monkeys_spec n noise_weight result global_id :
  built result global_id →
  ∃ new,
    TraderInitResult.objects (add_monkeys n noise_weight result global_id).1
      = TraderInitResult.objects result ++ new
    ∧ length new = n
    ∧ Forall (λ tr, Trader.class tr = MonkeyTrader noise_weight) new
    ∧ built (add_monkeys n noise_weight result global_id).1
        (add_monkeys n noise_weight result global_id).2.
Proof.
  revert result global_id. induction n as [|n IH]; intros result global_id Hb; simpl.
  { exists []. by rewrite app_nil_r. }
  destruct (IH _ _ (add_trader_built result global_id (MonkeyTrader noise_weight) Hb))
    as (new & Hobj & Hlen & Hcls & Hb').
  exists (Trader.fresh global_id default_sizer (MonkeyTrader noise_weight) :: new).
  split; [by rewrite Hobj; simpl; rewrite <-app_assoc|].
  split; [simpl; lia|]. split; [by constructor|done].
Qed.

Section ConstructionProofs.
Variable Gen : Type.
Variable uniform_int : Z → Z → Gen → Z * Gen.
Variable std_shuffle : list ptr → Gen → list ptr * Gen.

Lemma draw_windows_ordered min_short max_short min_long max_long g :
  (draw_windows Gen uniform_int min_short max_short min_long max_long g).1.1
  ≤ (draw_windows Gen uniform_int min_short max_short min_long max_long g).1.2.
Proof.
  unfold draw_windows. simpl.
  destruct (Z.ltb_spec (uniform_int min_long max_long (uniform_int min_short max_short g).2).1
              (uniform_int min_short max_short g).1); simpl; lia.
Qed.

Lemma add_windowed_spec n class_of min_short max_short min_long max_long
    result global_id g :
  built result global_id →
  ∃ new,
    TraderInitResult.objects
      (add_windowed Gen uniform_int n class_of min_short max_short min_long max_long
         result global_id g).1.1
      = TraderInitResult.objects result ++ new
    ∧ length new = n
    ∧ Forall (λ tr, ∃ s l, Trader.class tr = class_of s l ∧ s ≤ l) new
    ∧ built (add_windowed Gen uniform_int n class_of min_short max_short min_long
               max_long result global_id g).1.1
        (add_windowed Gen uniform_int n class_of min_short max_short min_long
               max_long result global_id g).1.2.
Proof.
  revert result global_id g. induction n as [|n IH]; intros result global_id g Hb;
    cbn [add_windowed].
  { exists []. by rewrite app_nil_r. }
  set (w := draw_windows Gen uniform_int min_short max_short min_long max_long g).
  destruct (IH _ _ w.2 (add_trader_built result global_id (class_of w.1.1 w.1.2) Hb))
    as (new & Hobj & Hlen & Hcls & Hb').
  exists (Trader.fresh global_id default_sizer (class_of w.1.1 w.1.2) :: new).
  split; [by rewrite Hobj; simpl; rewrite <-app_assoc|].
  split; [simpl; lia|]. split; [|done].
  constructor; [|done]. exists w.1.1, w.1.2. split; [done|].
  apply draw_windows_ordered.
Qed.

(** The result of [init_traders], for parameters it is defined for. *)
Lemma init_traders_spec monkey mreverter momentumtrader g :
  MeanReverterInit.min_short mreverter ≤ MeanReverterInit.max_short mreverter →
  MeanReverterInit.min_long mreverter ≤ MeanReverterInit.max_long mreverter →
  MomentumTraderInit.min_short momentumtrader
    ≤ MomentumTraderInit.max_short momentumtrader →
  MomentumTraderInit.min_long momentumtrader
    ≤ MomentumTraderInit.max_long momentumtrader →
  Z.max 0 (MonkeyInit.num_monkeys monkey)
    + Z.max 0 (MeanReverterInit.num_mreverters mreverter)
    + Z.max 0 (MomentumTraderInit.num_momtraders momentumtrader) ≤ INT_MAX →
  ∃ result g' shuffled_from g0 ms rs os,
    init_traders Gen uniform_int std_shuffle monkey mreverter momentumtrader g
      = Ok (result, g')
    ∧ TraderInitResult.traders result = (std_shuffle shuffled_from g0).1
    ∧ shuffled_from = seq 0 (length (TraderInitResult.objects result))
    ∧ built (TraderInitResult.mk (TraderInitResult.objects result) shuffled_from
               (TraderInitResult.trader_map result))
        (Z.max 0 (MonkeyInit.num_monkeys monkey)
         + Z.max 0 (MeanReverterInit.num_mreverters mreverter)
         + Z.max 0 (MomentumTraderInit.num_momtraders momentumtrader))
    ∧ TraderInitResult.objects result = ms ++ rs ++ os
    ∧ length ms = Z.to_nat (MonkeyInit.num_monkeys monkey)
    ∧ length rs = Z.to_nat (MeanReverterInit.num_mreverters mreverter)
    ∧ length os = Z.to_nat (MomentumTraderInit.num_momtraders momentumtrader)
    ∧ Forall (λ tr, Trader.class tr = MonkeyTrader (MonkeyInit.noise_weight monkey)) ms
    ∧ Forall (λ tr, ∃ s l, Trader.class tr = MeanReverter s l ∧ s ≤ l) rs
    ∧ Forall (λ tr, ∃ s l, Trader.class tr = MomentumTrader s l ∧ s ≤ l) os.
Proof.
  intros H1 H2 H3 H4 Hmax. unfold init_traders.
  rewrite !(proj2 (Z.ltb_ge _ _)) by lia. simpl.
  set (r1 := add_monkeys _ _ _ _).
  destruct (add_monkeys_spec (Z.to_nat (MonkeyInit.num_monkeys monkey))
              (MonkeyInit.noise_weight monkey) _ 0 built_empty)
    as (ms & Hobj1 & Hlen1 & Hcls1 & Hb1).
  fold r1 in Hobj1, Hb1. simpl in Hobj1.
  set (r2 := add_windowed _ _ _ MeanReverter _ _ _ _ _ _ _).
  destruct (add_windowed_spec (Z.to_nat (MeanReverterInit.num_mreverters mreverter))
              MeanReverter (MeanReverterInit.min_short mreverter)
              (MeanReverterInit.max_short mreverter)
              (MeanReverterInit.min_long mreverter)
              (MeanReverterInit.max_long mreverter) r1.1 r1.2 g Hb1)
    as (rs & Hobj2 & Hlen2 & Hcls2 & Hb2).
  fold r2 in Hobj2, Hb2.
  set (r3 := add_windowed _ _ _ MomentumTrader _ _ _ _ _ _ _).
  destruct (add_windowed_spec (Z.to_nat (MomentumTraderInit.num_momtraders momentumtrader))
              MomentumTrader (MomentumTraderInit.min_short momentumtrader)
              (MomentumTraderInit.max_short momentumtrader)
              (MomentumTraderInit.min_long momentumtrader)
              (MomentumTraderInit.max_long momentumtrader) r2.1.1 r2.1.2 r2.2 Hb2)
    as (os & Hobj3 & Hlen3 & Hcls3 & Hb3).
  fold r3 in Hobj3, Hb3.
  assert (Hobj : TraderInitResult.objects r3.1.1 = ms ++ rs ++ os).
  { by rewrite Hobj3, Hobj2, Hobj1, <-app_assoc. }
  assert (Hnext : r3.1.2
            = Z.max 0 (MonkeyInit.num_monkeys monkey)
              + Z.max 0 (MeanReverterInit.num_mreverters mreverter)
              + Z.max 0 (MomentumTraderInit.num_momtraders momentumtrader)).
  { destruct Hb3 as (-> & _). rewrite Hobj, !length_app. lia. }
  destruct Hb3 as (Hid3 & Hroster3 & Hb3).
  exists (TraderInitResult.mk (TraderInitResult.objects r3.1.1)
            (std_shuffle (TraderInitResult.traders r3.1.1) r3.2).1
            (TraderInitResult.trader_map r3.1.1)),
    (std_shuffle (TraderInitResult.traders r3.1.1) r3.2).2,
    (TraderInitResult.traders r3.1.1), r3.2, ms, rs, os.
  simpl. split; [done|]. split; [done|]. split; [done|].
  split; [|done].
  rewrite <-Hnext. split; [done|]. split; [done|]. exact Hb3.
Qed.

End ConstructionProofs.

Lemma built_id result global_id p :
  built result global_id →
  (p < length (TraderInitResult.objects result))%nat →
  Trader.get_id (TraderInitResult.objects result !!! p) = Z.of_nat p.
Proof.
  intros (_ & _ & Hids & _) Hp.
  assert (Hlook : (Trader.get_id <$> TraderInitResult.objects result) !! p
                  = Some (Z.of_nat p)).
  { rewrite Hids, list_lookup_fmap, lookup_seq_lt by done. done. }
  rewrite list_lookup_fmap in Hlook.
  destruct (TraderInitResult.objects result !! p) as [tr|] eqn:Htr; [|done].
  rewrite (list_lookup_total_correct _ _ _ Htr). by injection Hlook.
Qed.

Lemma seqZ_of_nat n : Z.of_nat <$> seq 0 n = seqZ 0 (Z.of_nat n).
Proof.
  unfold seqZ. rewrite Nat2Z.id. apply list_fmap_ext. intros i x _. lia.
Qed.

(** A roster that is a permutation of what the loops built is well
    formed. *)
Lemma built_roster_wf st global_id :
  built (TraderInitResult.mk (heap st) (seq 0 (length (heap st))) (trader_map st))
    global_id →
  traders st ≡ₚ seq 0 (length (heap st)) →
  roster_wf st
  ∧ ids_of (heap st) (traders st) ≡ₚ seqZ 0 global_id
  ∧ dom (trader_map st) = list_to_set (seqZ 0 global_id).
Proof.
  intros Hb Hperm.
  assert (Hvalid : Forall (λ p, p < length (heap st))%nat (traders st)).
  { apply Forall_forall. intros p Hp. rewrite Hperm in Hp.
    apply elem_of_seq in Hp. lia. }
  assert (Hidp : ∀ p, (p < length (heap st))%nat →
            Trader.get_id (heap st !!! p) = Z.of_nat p).
  { intros p Hp. by apply (built_id _ _ p Hb). }
  assert (Hids : ids_of (heap st) (traders st) = Z.of_nat <$> traders st).
  { unfold ids_of. apply Forall_fmap_ext.
    eapply Forall_impl; [exact Hvalid|]. simpl. intros p Hp. by apply Hidp. }
  destruct Hb as (Hnext & _ & _ & Hmap & _). simpl in *.
  split; [split; [done|split]|split].
  - rewrite Hids. apply NoDup_fmap; [apply _|]. rewrite Hperm. apply NoDup_seq.
  - eapply Forall_impl; [exact Hvalid|]. simpl. intros p Hp.
    rewrite (Hidp p Hp), Hmap. rewrite bool_decide_eq_true_2 by lia. f_equal. lia.
  - rewrite Hids, Hperm, seqZ_of_nat. by rewrite Hnext.
  - apply set_eq. intros k. rewrite elem_of_dom, Hmap, elem_of_list_to_set, elem_of_seqZ.
    destruct (bool_decide (0 ≤ k < global_id)) eqn:Hk.
    + apply bool_decide_eq_true in Hk. split; [lia|by eauto].
    + apply bool_decide_eq_false in Hk. split; [by intros [? ?]|lia].
Qed.

Lemma add_makers_spec n fundamental_price spread id :
  MarketMaker.id <$> add_makers n fundamental_price spread id = seqZ id (Z.of_nat n)
  ∧ Forall (λ mm, MarketMaker.fundamental_price mm = fundamental_price
                  ∧ MarketMaker.spread mm = spread)
      (add_makers n fundamental_price spread id).
Proof.
  revert id. induction n as [|n IH]; intros id; [done|].
  destruct (IH (id + 1)) as [Hids Hall]. cbn [add_makers]. split.
  - rewrite fmap_cons, Hids. simpl MarketMaker.id.
    rewrite (seqZ_cons id (Z.of_nat (S n))) by lia.
    f_equal. f_equal; lia.
  - by constructor.
Qed.

Lemma fmap_replicate_const {A B} (f : A → B) (P : A → Prop) c l :
  (∀ x, P x → f x = c) → Forall P l → f <$> l = replicate (length l) c.
Proof.
  intros Hf. induction 1 as [|x l Hx _ IH]; [done|].
  rewrite fmap_cons, IH, (Hf x Hx). done.
Qed.

Section NewMarket.
Variable Gen : Type.
Variable uniform_int : Z → Z → Gen → Z * Gen.
Variable std_shuffle : list ptr → Gen → list ptr * Gen.
Hypothesis std_shuffle_perm : ∀ l g, (std_shuffle l g).1 ≡ₚ l.

(** What [Market::Market] returns, for the lemmas below. *)
Lemma new_Market_spec state total_trade_volume total_price_volume g :
  constructible state →
  ∃ st g',
    new_Market Gen uniform_int std_shuffle state total_trade_volume
      total_price_volume g = Ok (st, g')
    ∧ built (TraderInitResult.mk (heap st) (seq 0 (length (heap st))) (trader_map st))
        (population state)
    ∧ traders st ≡ₚ seq 0 (length (heap st))
    ∧ Trader.get_type <$> heap st
      = replicate (Z.to_nat (MonkeyInit.num_monkeys (InitialMarketState.monkeys state)))
          Monkey_t
        ++ replicate (Z.to_nat (MeanReverterInit.num_mreverters
                                  (InitialMarketState.mreverters state)))
             MeanReverter_t
        ++ replicate (Z.to_nat (MomentumTraderInit.num_momtraders
                                  (InitialMarketState.momtraders state)))
             MomentumTrader_t
    ∧ Forall windows_ordered (heap st)
    ∧ market_makers st
      = add_makers (Z.to_nat (MarketMakerInit.num_mmakers (InitialMarketState.mmakers state)))
          (MarketMakerInit.fundamental_price (InitialMarketState.mmakers state))
          (MarketMakerInit.spread (InitialMarketState.mmakers state)) 100000
    ∧ (timestep st, buys st, sells st, trade_history st, tick_history st)
      = (0, [], [], [], [])
    ∧ (market_price st, evolution_ticks st, evolve st, kill_percentage st,
       write_every st, max_order_age st)
      = (InitialMarketState.initial_price state,
         InitialMarketState.evolution_ticks state,
         InitialMarketState.evolve state,
         InitialMarketState.kill_percentage state,
         InitialMarketState.write_every state,
         InitialMarketState.max_order_age state)
    ∧ Forall (λ tr, ∀ w, Trader.class tr = MonkeyTrader w →
                w = MonkeyInit.noise_weight (InitialMarketState.monkeys state))
        (heap st).
Proof.
  intros (H1 & H2 & H3 & H4 & Hpop & Hmm). unfold new_Market.
  destruct (init_traders_spec Gen uniform_int std_shuffle
              (InitialMarketState.monkeys state) (InitialMarketState.mreverters state)
              (InitialMarketState.momtraders state) g H1 H2 H3 H4 Hpop)
    as (result & g' & from & g0 & ms & rs & os & -> & Hroster & -> & Hb & Hobj
        & Hlm & Hlr & Hlo & Hcm & Hcr & Hco).
  simpl. unfold init_market_makers.
  rewrite (proj2 (Z.ltb_ge _ _)) by lia. simpl.
  eexists _, _. split; [done|]. simpl.
  split; [exact Hb|]. split; [rewrite Hroster; apply std_shuffle_perm|].
  split.
  { rewrite Hobj, !fmap_app, <-Hlm, <-Hlr, <-Hlo.
    f_equal; [|f_equal].
    - eapply fmap_replicate_const; [|exact Hcm]. simpl.
      intros tr Htr. unfold Trader.get_type. by rewrite Htr.
    - eapply fmap_replicate_const; [|exact Hcr]. simpl.
      intros tr (s & l & Htr & _). unfold Trader.get_type. by rewrite Htr.
    - eapply fmap_replicate_const; [|exact Hco]. simpl.
      intros tr (s & l & Htr & _). unfold Trader.get_type. by rewrite Htr. }
  split; [|split; [done|split; [done|split; [done|]]]].
  - rewrite Hobj. rewrite !Forall_app. split; [|split].
    + eapply Forall_impl; [exact Hcm|]. simpl. intros tr Htr.
      unfold windows_ordered. by rewrite Htr.
    + eapply Forall_impl; [exact Hcr|]. simpl. intros tr (s & l & Htr & Hsl).
      unfold windows_ordered. by rewrite Htr.
    + eapply Forall_impl; [exact Hco|]. simpl. intros tr (s & l & Htr & Hsl).
      unfold windows_ordered. by rewrite Htr.
  - rewrite Hobj. rewrite !Forall_app. split; [|split].
    + eapply Forall_impl; [exact Hcm|]. simpl. intros tr Htr w Hw.
      rewrite Htr in Hw. by injection Hw.
    + eapply Forall_impl; [exact Hcr|]. simpl. intros tr (s & l & Htr & _) w Hw.
      by rewrite Htr in Hw.
    + eapply Forall_impl; [exact Hco|]. simpl. intros tr (s & l & Htr & _) w Hw.
      by rewrite Htr in Hw.
Qed.

(** X10. For parameters it is defined for, and whatever the draws and the
    permutation the shuffle returns, [Market::Market] builds a well-formed
    roster: every object allocated is in the roster exactly once, the ids
    are [0 .. population - 1] and are the keys of the map, which sends each
    id to the object carrying it. In allocation order the traders are the
    Monkeys, then the MeanReverters, then the MomentumTraders, as many of
    each as asked for; every trader starts with cash 100000, position 10 and
    the sizer [Fractional(0.01, 1.0)], and the short window of a trader
    never exceeds its long window. The clock is 0, the book and both
    histories are empty. *)
Theorem constructor_builds_the_roster state total_trade_volume total_price_volume g :
  constructible state →
  ∃ st g',
    new_Market Gen uniform_int std_shuffle state total_trade_volume
      total_price_volume g = Ok (st, g')
    ∧ roster_wf st
    ∧ traders st ≡ₚ seq 0 (length (heap st))
    ∧ ids_of (heap st) (traders st) ≡ₚ seqZ 0 (population state)
    ∧ dom (trader_map st) = list_to_set (seqZ 0 (population state))
    ∧ Trader.get_type <$> heap st
      = replicate (Z.to_nat (MonkeyInit.num_monkeys (InitialMarketState.monkeys state)))
          Monkey_t
        ++ replicate (Z.to_nat (MeanReverterInit.num_mreverters
                                  (InitialMarketState.mreverters state)))
             MeanReverter_t
        ++ replicate (Z.to_nat (MomentumTraderInit.num_momtraders
                                  (InitialMarketState.momtraders state)))
             MomentumTrader_t
    ∧ Forall initial_ledger (heap st)
    ∧ Forall windows_ordered (heap st)
    ∧ timestep st = 0 ∧ book_ok st
    ∧ trade_history st = [] ∧ tick_history st = [].
Proof.
  intros Hok.
  destruct (new_Market_spec state total_trade_volume total_price_volume g Hok)
    as (st & g' & Hnew & Hb & Hperm & Htypes & Hwin & _ & Hinit & _).
  destruct (built_roster_wf st (population state) Hb Hperm) as (Hwf & Hids & Hdom).
  injection Hinit as Hts Hbuys Hsells Hth Htk.
  exists st, g'. do 6 (split; [done|]).
  split; [by destruct Hb as (_ & _ & _ & _ & Hl)|].
  split; [done|]. split; [done|]. split; [|done].
  unfold book_ok, side_ok, uncrossed. rewrite Hbuys, Hsells. simpl.
  by repeat split.
Qed.

(** X11. The market makers the constructor builds carry the ids
    [100000, 100001, ...], the configured spread, and are not entered in
    the trader map; but the id of a market maker is a key of that map, the
    id of a trader, exactly when it is below the population: the two id
    ranges are apart only up to 100000 traders. *)
Theorem market_maker_ids_from_100000 state total_trade_volume total_price_volume g :
  constructible state →
  ∃ st g',
    new_Market Gen uniform_int std_shuffle state total_trade_volume
      total_price_volume g = Ok (st, g')
    ∧ MarketMaker.id <$> market_makers st
      = seqZ 100000 (Z.max 0 (MarketMakerInit.num_mmakers (InitialMarketState.mmakers state)))
    ∧ Forall (λ mm, MarketMaker.spread mm
                    = MarketMakerInit.spread (InitialMarketState.mmakers state))
        (market_makers st)
    ∧ (∀ mm, mm ∈ market_makers st →
         100000 ≤ MarketMaker.id mm
         ∧ (is_Some (trader_map st !! MarketMaker.id mm)
            ↔ MarketMaker.id mm < population state))
    ∧ (population state ≤ 100000 →
       ∀ mm, mm ∈ market_makers st → trader_map st !! MarketMaker.id mm = None).
Proof.
  intros Hok.
  destruct (new_Market_spec state total_trade_volume total_price_volume g Hok)
    as (st & g' & Hnew & Hb & _ & _ & _ & Hmms & _ & _).
  destruct (add_makers_spec
              (Z.to_nat (MarketMakerInit.num_mmakers (InitialMarketState.mmakers state)))
              (MarketMakerInit.fundamental_price (InitialMarketState.mmakers state))
              (MarketMakerInit.spread (InitialMarketState.mmakers state)) 100000)
    as [Hids Hall].
  rewrite <-Hmms in Hids, Hall.
  replace (Z.of_nat (Z.to_nat (MarketMakerInit.num_mmakers (InitialMarketState.mmakers state))))
    with (Z.max 0 (MarketMakerInit.num_mmakers (InitialMarketState.mmakers state)))
    in Hids by lia.
  destruct Hb as (_ & _ & _ & Hmap & _). simpl in Hmap.
  assert (Hlow : ∀ mm, mm ∈ market_makers st → 100000 ≤ MarketMaker.id mm).
  { intros mm Hmm.
    assert (Hin : MarketMaker.id mm ∈ MarketMaker.id <$> market_makers st)
      by (by apply list_elem_of_fmap_2).
    rewrite Hids in Hin. apply elem_of_seqZ in Hin. lia. }
  exists st, g'. split; [done|]. split; [done|].
  split; [eapply Forall_impl; [exact Hall|]; by intros mm [_ ?]|].
  split.
  - intros mm Hmm. split; [by apply Hlow|]. rewrite Hmap.
    pose proof (Hlow mm Hmm).
    destruct (bool_decide (0 ≤ MarketMaker.id mm < population state)) eqn:Hk.
    + apply bool_decide_eq_true in Hk. split; [lia|by eauto].
    + apply bool_decide_eq_false in Hk. split; [by intros [? ?]|lia].
  - intros Hpop mm Hmm. rewrite Hmap. pose proof (Hlow mm Hmm).
    by rewrite bool_decide_eq_false_2 by lia.
Qed.

End NewMarket.

Lemma demo_shuffle_perm l g : (demo_shuffle l g).1 ≡ₚ l.
Proof. apply reverse_Permutation. Qed.

Lemma demo_state_constructible : constructible demo_state.
Proof. unfold constructible. simpl. unfold INT_MAX. lia. Qed.

Lemma constructor_builds_the_roster_witness :
  ∃ st g',
    new_Market nat demo_uniform_int demo_shuffle demo_state 0 0 0%nat = Ok (st, g')
    ∧ roster_wf st
    ∧ traders st ≡ₚ seq 0 (length (heap st))
    ∧ ids_of (heap st) (traders st) ≡ₚ seqZ 0 (population demo_state)
    ∧ dom (trader_map st) = list_to_set (seqZ 0 (population demo_state))
    ∧ Trader.get_type <$> heap st
      = replicate (Z.to_nat (MonkeyInit.num_monkeys (InitialMarketState.monkeys demo_state)))
          Monkey_t
        ++ replicate (Z.to_nat (MeanReverterInit.num_mreverters
                                  (InitialMarketState.mreverters demo_state)))
             MeanReverter_t
        ++ replicate (Z.to_nat (MomentumTraderInit.num_momtraders
                                  (InitialMarketState.momtraders demo_state)))
             MomentumTrader_t
    ∧ Forall initial_ledger (heap st)
    ∧ Forall windows_ordered (heap st)
    ∧ timestep st = 0 ∧ book_ok st
    ∧ trade_history st = [] ∧ tick_history st = [].
Proof.
  exact (constructor_builds_the_roster nat demo_uniform_int demo_shuffle
           demo_shuffle_perm demo_state 0 0 0%nat demo_state_constructible).
Defined.

Lemma market_maker_ids_from_100000_witness :
  ∃ st g',
    new_Market nat demo_uniform_int demo_shuffle demo_state 0 0 0%nat = Ok (st, g')
    ∧ MarketMaker.id <$> market_makers st
      = seqZ 100000 (Z.max 0 (MarketMakerInit.num_mmakers
                                (InitialMarketState.mmakers demo_state)))
    ∧ Forall (λ mm, MarketMaker.spread mm
                    = MarketMakerInit.spread (InitialMarketState.mmakers demo_state))
        (market_makers st)
    ∧ (∀ mm, mm ∈ market_makers st →
         100000 ≤ MarketMaker.id mm
         ∧ (is_Some (trader_map st !! MarketMaker.id mm)
            ↔ MarketMaker.id mm < population demo_state))
    ∧ (population demo_state ≤ 100000 →
       ∀ mm, mm ∈ market_makers st → trader_map st !! MarketMaker.id mm = None).
Proof.
  exact (market_maker_ids_from_100000 nat demo_uniform_int demo_shuffle
           demo_shuffle_perm demo_state 0 0 0%nat demo_state_constructible).
Defined.

(** The market built from the sample parameters: the roster is the
    allocation order reversed, and the windows drawn for trader 3, 25
    and then 12, were swapped. *)
Example demo_state_built :
  (λ r, (traders r.1, ids_of (heap r.1) (traders r.1),
         Trader.class <$> heap r.1, MarketMaker.id <$> market_makers r.1))
    <$> (match new_Market nat demo_uniform_int demo_shuffle demo_state 0 0 0%nat with
         | Ok r => Some r | _ => None end)
  = Some ([4; 3; 2; 1; 0]%nat, [4; 3; 2; 1; 0],
          [MonkeyTrader 0.5; MonkeyTrader 0.5; MeanReverter 3 21;
           MeanReverter 12 25; MomentumTrader 19 34],
          [100000; 100001]).
Proof. vm_compute. reflexivity. Qed.

(** ** The simulation *)

Lemma run_defined_config st st1 :
  config st1 = config st → length (traders st1) = length (traders st) →
  run_defined st → run_defined st1.
Proof.
  intros Hcfg Hlen [Hw He].
  unfold config in Hcfg. injection Hcfg as Het Hev Hkp Hwe _ _.
  unfold run_defined. rewrite Hwe, Hev, Het, Hkp, Hlen. split; [done|].
  intros Hon. destruct (He Hon) as (? & Hne & ?). split; [done|]. split; [|done].
  intros Hnil. apply Hne. apply length_zero_iff_nil. by rewrite <-Hlen, Hnil.
Qed.

Section SimulationProofs.
Variable Gen : Type.
Variable uniform_int : Z → Z → Gen → Z * Gen.
Variable std_shuffle : list ptr → Gen → list ptr * Gen.
Hypothesis std_shuffle_perm : ∀ l g, (std_shuffle l g).1 ≡ₚ l.
Variable std_sort : (ptr → ptr → bool) → list ptr → list ptr.
Hypothesis std_sort_perm : ∀ comp l, std_sort comp l ≡ₚ l.
Variable make_order :
  Trader.t → double → double → double → list MarketTick.t → Z → Gen → Order.t * Gen.



End SimulationProofs.

Remark main_is_simulation Gen uniform_int std_shuffle std_sort make_order
    state total_trade_volume total_price_volume g :
  main Gen uniform_int std_shuffle std_sort make_order state total_trade_volume
    total_price_volume g
  = simulate Gen uniform_int std_shuffle std_sort make_order total_ticks state
      total_trade_volume total_price_volume g.
Proof. reflexivity. Qed.

Lemma demo_state_runnable : runnable demo_state.
Proof. split; [done|]. intros _. split; [done|]. split; [done|]. by vm_compute; eauto. Qed.


(** ** The MomentumTrader *)

Lemma ma_defined price_history ma_window :
  int_range (size_to_int (length price_history) - ma_window) = true →
  ∃ x, ma price_history ma_window = Ok x.
Proof. intros H. unfold ma. rewrite H. simpl. eauto. Qed.

(** X13. What a MomentumTrader may order. For windows in the range of
    [int] arithmetic [make_order] returns an order that carries the
    trader's id, the clock and the label ["MomentumTrader"], and that is a
    BUY, a SELL, or the HOLD of size 0 at the market price. It is that HOLD
    whenever the history is shorter than the longer window (compared
    unsigned, so also whenever that window is negative). A BUY is priced
    0.01 above the best ask, needs a best ask below 1e9, and costs at the
    best ask no more than the trader's cash; a SELL is priced 0.01 below the
    best bid and offers no more than the trader holds. On an empty ask side
    (best ask [DBL_MAX]) it never buys. *)
Theorem momentum_order_guards tr short_ma_window long_ma_window
    market_price best_bid best_ask tick_history now :
  windows_in_range short_ma_window long_ma_window tick_history →
  ∃ o,
    momentum_make_order tr short_ma_window long_ma_window market_price
      best_bid best_ask tick_history now = Ok o
    ∧ Order.trader_id o = Trader.trader_id tr
    ∧ Order.timestep o = now
    ∧ Order.trader_type o = MomentumTrader_t
    ∧ (Order.type o = BUY ∨ Order.type o = SELL
       ∨ o = Order.mk HOLD market_price (Trader.trader_id tr) now MomentumTrader_t 0)
    ∧ (Z.of_nat (length tick_history)
         < int_to_size (Z.max short_ma_window long_ma_window) →
       o = Order.mk HOLD market_price (Trader.trader_id tr) now MomentumTrader_t 0)
    ∧ (Order.type o = BUY →
       (best_ask <? 1e9)%float = true
       ∧ Order.price o = (best_ask + 0x1.47ae147ae147bp-7)%float
       ∧ (best_ask * Order.position_size o <=? Trader.cash tr)%float = true)
    ∧ (Order.type o = SELL →
       (-1e9 <? best_bid)%float = true
       ∧ Order.price o = (best_bid - 0x1.47ae147ae147bp-7)%float
       ∧ (Order.position_size o <=? Trader.position tr)%float = true)
    ∧ (∀ st, sells st = [] → best_ask = get_best_ask st → Order.type o ≠ BUY).
Proof.
  intros [Hs Hl]. unfold momentum_make_order.
  assert (Hholds : ∀ o,
    o = Order.mk HOLD market_price (Trader.trader_id tr) now MomentumTrader_t 0 →
    Order.trader_id o = Trader.trader_id tr
    ∧ Order.timestep o = now
    ∧ Order.trader_type o = MomentumTrader_t
    ∧ (Order.type o = BUY ∨ Order.type o = SELL
       ∨ o = Order.mk HOLD market_price (Trader.trader_id tr) now MomentumTrader_t 0)
    ∧ (Z.of_nat (length tick_history)
         < int_to_size (Z.max short_ma_window long_ma_window) →
       o = Order.mk HOLD market_price (Trader.trader_id tr) now MomentumTrader_t 0)
    ∧ (Order.type o = BUY →
       (best_ask <? 1e9)%float = true
       ∧ Order.price o = (best_ask + 0x1.47ae147ae147bp-7)%float
       ∧ (best_ask * Order.position_size o <=? Trader.cash tr)%float = true)
    ∧ (Order.type o = SELL →
       (-1e9 <? best_bid)%float = true
       ∧ Order.price o = (best_bid - 0x1.47ae147ae147bp-7)%float
       ∧ (Order.position_size o <=? Trader.position tr)%float = true)
    ∧ (∀ st, sells st = [] → best_ask = get_best_ask st → Order.type o ≠ BUY)).
  { intros o ->. simpl. do 3 (split; [done|]). split; [by right; right|].
    split; [done|]. split; [done|]. split; [done|]. done. }
  destruct (Z.ltb_spec (Z.of_nat (length tick_history))
              (int_to_size (Z.max short_ma_window long_ma_window))) as [Hshort|Hlong].
  { eexists. split; [done|]. by apply Hholds. }
  unfold windows_in_range in *. unfold get_vwap_history.
  destruct (ma_defined (MarketTick.vwap <$> tick_history) short_ma_window)
    as [short_ma ->]; [by rewrite length_fmap|].
  destruct (ma_defined (MarketTick.vwap <$> tick_history) long_ma_window)
    as [long_ma ->]; [by rewrite length_fmap|].
  simpl.
  destruct (long_ma <? short_ma)%float eqn:Hup;
    [destruct (best_ask <? 1e9)%float eqn:Hask|]; simpl.
  - (* rising, and an ask to lift *)
    destruct (best_ask * _ <=? Trader.cash tr)%float eqn:Hcash.
    2:{ eexists. split; [done|]. by apply Hholds. }
    eexists. split; [done|]. simpl. do 3 (split; [done|]).
    split; [by left|]. split; [lia|]. split; [done|]. split; [done|].
    intros st Hempty ->. unfold get_best_ask in Hask. rewrite Hempty in Hask.
    by vm_compute in Hask.
  - (* rising, no ask *)
    destruct ((short_ma <? long_ma)%float && (-1e9 <? best_bid)%float) eqn:Hdown.
    2:{ eexists. split; [done|]. by apply Hholds. }
    apply andb_true_iff in Hdown as [Hdown _].
    by rewrite (ltb_asym _ _ Hup) in Hdown.
  - (* not rising *)
    destruct ((short_ma <? long_ma)%float && (-1e9 <? best_bid)%float) eqn:Hdown.
    2:{ eexists. split; [done|]. by apply Hholds. }
    apply andb_true_iff in Hdown as [Hdown Hbid].
    destruct (_ <=? Trader.position tr)%float eqn:Hpos.
    2:{ eexists. split; [done|]. by apply Hholds. }
    eexists. split; [done|]. simpl. do 3 (split; [done|]).
    split; [by right; left|]. split; [lia|]. split; [done|]. split; [done|].
    done.
Qed.

Lemma momentum_order_guards_witness :
  ∃ o,
    momentum_make_order momentum_trader 1 3 200 0 DBL_MAX falling_history 3 = Ok o
    ∧ Order.trader_id o = Trader.trader_id momentum_trader
    ∧ Order.timestep o = 3
    ∧ Order.trader_type o = MomentumTrader_t
    ∧ (Order.type o = BUY ∨ Order.type o = SELL
       ∨ o = Order.mk HOLD 200 (Trader.trader_id momentum_trader) 3 MomentumTrader_t 0)
    ∧ (Z.of_nat (length falling_history) < int_to_size (Z.max 1 3) →
       o = Order.mk HOLD 200 (Trader.trader_id momentum_trader) 3 MomentumTrader_t 0)
    ∧ (Order.type o = BUY →
       (DBL_MAX <? 1e9)%float = true
       ∧ Order.price o = (DBL_MAX + 0x1.47ae147ae147bp-7)%float
       ∧ (DBL_MAX * Order.position_size o <=? Trader.cash momentum_trader)%float = true)
    ∧ (Order.type o = SELL →
       (-1e9 <? 0)%float = true
       ∧ Order.price o = (0 - 0x1.47ae147ae147bp-7)%float
       ∧ (Order.position_size o <=? Trader.position momentum_trader)%float = true)
    ∧ (∀ st, sells st = [] → DBL_MAX = get_best_ask st → Order.type o ≠ BUY).
Proof.
  apply (momentum_order_guards momentum_trader 1 3 200 0 DBL_MAX falling_history 3).
  split; reflexivity.
Defined.

(** With no bid in the book the best bid reads 0, which passes the guard
    [best_bid > -1e9]: on falling prices a newly built MomentumTrader offers
    5.1 units at a negative price, and the offer rests as the best ask. With
    no ask in the book and rising prices it holds. *)
Example momentum_sells_into_empty_book :
  let st := demo_market 3 [] [] in
  let o := Order.mk SELL (-0x1.47ae147ae147bp-7) 2 3 MomentumTrader_t
             0x1.4666666666666p+2 in
  momentum_make_order momentum_trader 1 3 200 (get_best_bid st) (get_best_ask st)
    falling_history 3 = Ok o
  ∧ (Order.price o <? 0)%float = true
  ∧ sells <$> (match process_aggressive_order st o with
               | Ok st' => Some st' | _ => None end)
    = Some [((-0x1.47ae147ae147bp-7)%float, [o])]
  ∧ momentum_make_order momentum_trader 1 3 200 (get_best_bid st) (get_best_ask st)
      rising_history 3
    = Ok (Order.mk HOLD 200 2 3 MomentumTrader_t 0).
Proof. vm_compute. by repeat split. Qed.

(** ** The totals of a tick *)

Lemma accounted_refl st : accounted st st [].
Proof. unfold accounted. simpl. by rewrite app_nil_r. Qed.

Lemma accounted_trans st0 st1 st2 new1 new2 :
  accounted st0 st1 new1 → accounted st1 st2 new2 →
  accounted st0 st2 (new1 ++ new2).
Proof.
  intros (Hth1 & Hv1 & Hpv1 & Hp1) (Hth2 & Hv2 & Hpv2 & Hp2).
  unfold accounted, volume_after, price_volume_after, price_after in *.
  rewrite !foldl_app, <-Hv1, <-Hpv1, <-Hp1.
  split; [by rewrite Hth2, Hth1, <-app_assoc|done].
Qed.

Lemma accounted_ticker st0 st st' new :
  ticker st' = ticker st → accounted st0 st new → accounted st0 st' new.
Proof.
  unfold ticker. intros [= Hth Hv Hpv Hp]. unfold accounted.
  by rewrite Hth, Hv, Hpv, Hp.
Qed.

Lemma buy_step_accounted order st rem r :
  buy_step order st rem = Ok r → ∃ new, accounted st r.1 new.
Proof.
  intros Hstep%buy_step_Ok.
  destruct Hstep as [k so q rest _ _ | k so q rest quantity _ _ _ _].
  - exists []. apply (accounted_ticker st st); [done|apply accounted_refl].
  - eexists [_]. unfold accounted. simpl. done.
Qed.

Lemma sell_step_accounted order st rem r :
  sell_step order st rem = Ok r → ∃ new, accounted st r.1 new.
Proof.
  intros Hstep%sell_step_Ok.
  destruct Hstep as [k so q rest _ _ | k so q rest quantity _ _ _ _].
  - exists []. apply (accounted_ticker st st); [done|apply accounted_refl].
  - eexists [_]. unfold accounted. simpl. done.
Qed.

(** A call enters each of its trades in the totals of the tick, and the
    market price is the price of its last trade. *)
Lemma process_accounted st order :
  book_clean st →
  ∃ st' new, process_aggressive_order st order = Ok st'
    ∧ accounted st st' new
    ∧ book_clean st' ∧ frame st' = frame st
    ∧ Forall (λ t, Trade.timestep t = timestep st) new.
Proof.
  intros Hc.
  destruct (process_aggressive_order_spec st order Hc)
    as (st' & new & [Hp Hth] & Hc' & Hf' & _ & Hnew).
  exists st', new. split; [done|].
  assert (Hacc : ∃ new', accounted st st' new').
  { unfold process_aggressive_order in Hp.
    destruct (String.eqb (Order.type order) BUY).
    - destruct (buy_loop _ order st order) as [[st1 rem]| |] eqn:Hloop; [|done..].
      simpl in Hp. injection Hp as <-.
      assert (Hstep : ∀ s rem' r, (∃ new', accounted st s new') →
                buy_cond s rem' = true → buy_step order s rem' = Ok r →
                ∃ new', accounted st r.1 new').
      { intros s rem' r [n1 Hn1] _ [n2 Hn2]%buy_step_accounted.
        exists (n1 ++ n2). by apply (accounted_trans st s). }
      assert (Hinit : ∃ new', accounted st st new')
        by (exists []; apply accounted_refl).
      destruct (buy_loop_invariant (λ s _, ∃ new', accounted st s new') order
                  Hstep _ st order _ Hinit Hloop) as [[new1 Hacc] _].
      exists new1. by destruct (0 <? Order.position_size rem)%float.
    - destruct (String.eqb (Order.type order) SELL).
      + destruct (sell_loop _ order st order) as [[st1 rem]| |] eqn:Hloop; [|done..].
        simpl in Hp. injection Hp as <-.
        assert (Hstep : ∀ s rem' r, (∃ new', accounted st s new') →
                  sell_cond s rem' = true → sell_step order s rem' = Ok r →
                  ∃ new', accounted st r.1 new').
        { intros s rem' r [n1 Hn1] _ [n2 Hn2]%sell_step_accounted.
          exists (n1 ++ n2). by apply (accounted_trans st s). }
        assert (Hinit : ∃ new', accounted st st new')
          by (exists []; apply accounted_refl).
        destruct (sell_loop_invariant (λ s _, ∃ new', accounted st s new') order
                    Hstep _ st order _ Hinit Hloop) as [[new1 Hacc] _].
        exists new1. by destruct (0 <? Order.position_size rem)%float.
      + injection Hp as <-. exists []. apply accounted_refl. }
  destruct Hacc as [new' Hacc].
  assert (new' = new) as ->.
  { destruct Hacc as [Hth' _]. rewrite Hth in Hth'. by apply app_inv_head in Hth'. }
  do 3 (split; [done|]).
  eapply Forall_impl; [exact Hnew|]. simpl.
  intros t [(r & _ & _ & _ & _ & _ & _ & Hts & _)|(r & _ & _ & _ & _ & _ & _ & Hts & _)];
    done.
Qed.

Lemma process_orders_of_accounted orders st :
  book_clean st →
  ∃ st' new, process_orders_of st orders = Ok st'
    ∧ accounted st st' new
    ∧ book_clean st' ∧ frame st' = frame st
    ∧ Forall (λ t, Trade.timestep t = timestep st) new.
Proof.
  revert st. induction orders as [|o rest IH]; intros st Hc; simpl.
  { exists st, []. split; [done|]. split; [apply accounted_refl|done]. }
  destruct (process_accounted st o Hc) as (st1 & new1 & -> & Hacc1 & Hc1 & Hf1 & Hnew1).
  simpl. destruct (frame_clock _ _ Hf1) as [Hts1 _].
  destruct (IH st1 Hc1) as (st' & new & -> & Hacc & Hc' & Hf' & Hnew).
  exists st', (new1 ++ new). split; [done|].
  split; [by apply (accounted_trans st st1)|].
  split; [done|]. split; [by rewrite Hf'|].
  apply Forall_app. split; [done|]. by rewrite <-Hts1.
Qed.

Lemma quote_all_accounted mms st :
  book_clean st →
  ∃ st' new, quote_all mms st = Ok st'
    ∧ accounted st st' new
    ∧ book_clean st' ∧ frame st' = frame st
    ∧ Forall (λ t, Trade.timestep t = timestep st) new.
Proof.
  revert st. induction mms as [|mm rest IH]; intros st Hc.
  { exists st, []. split; [done|]. split; [apply accounted_refl|done]. }
  cbn [quote_all].
  destruct (process_orders_of_accounted (MarketMaker.quote mm (market_price st)) st Hc)
    as (st1 & new1 & -> & Hacc1 & Hc1 & Hf1 & Hnew1).
  simpl. destruct (frame_clock _ _ Hf1) as [Hts1 _].
  destruct (IH st1 Hc1) as (st' & new & -> & Hacc & Hc' & Hf' & Hnew).
  exists st', (new1 ++ new). split; [done|].
  split; [by apply (accounted_trans st st1)|].
  split; [done|]. split; [by rewrite Hf'|].
  apply Forall_app. split; [done|]. by rewrite <-Hts1.
Qed.

Section TickTotals.
Variable std_sort : (ptr → ptr → bool) → list ptr → list ptr.
Hypothesis std_sort_perm : ∀ comp l, std_sort comp l ≡ₚ l.
Variable Gen : Type.
Variable make_order :
  Trader.t → double → double → double → list MarketTick.t → Z → Gen → Order.t * Gen.

Lemma trade_all_accounted roster st g :
  book_clean st →
  ∃ st' g' new, trade_all Gen make_order roster st g = Ok (st', g')
    ∧ accounted st st' new
    ∧ book_clean st' ∧ frame st' = frame st
    ∧ Forall (λ t, Trade.timestep t = timestep st) new.
Proof.
  revert st g. induction roster as [|p rest IH]; intros st g Hc; simpl.
  { exists st, g, []. split; [done|]. split; [apply accounted_refl|done]. }
  set (r := make_order (heap st !!! p) (market_price st) (get_best_bid st)
              (get_best_ask st) (tick_history st) (timestep st) g).
  destruct (process_accounted st r.1 Hc) as (st1 & new1 & -> & Hacc1 & Hc1 & Hf1 & Hnew1).
  simpl. destruct (frame_clock _ _ Hf1) as [Hts1 _].
  destruct (IH st1 r.2 Hc1) as (st' & g' & new & -> & Hacc & Hc' & Hf' & Hnew).
  exists st', g', (new1 ++ new). split; [done|].
  split; [by apply (accounted_trans st st1)|].
  split; [done|]. split; [by rewrite Hf'|].
  apply Forall_app. split; [done|]. by rewrite <-Hts1.
Qed.

(** X14. The record a tick appends accounts for exactly the trades of
    that tick. If the tick made the trades [new], in this order, then the
    record's volume is the sum of their quantities, its vwap is the sum of
    their price times quantity over that volume (the market price if the
    volume is not positive), and its last price, which is the market price
    after the tick, is the price of the last of them (the old market price
    if there was none). Sums are those of the code: from 0, left to right,
    in double arithmetic. The record is stamped with the new clock, one
    more than the stamp of the trades. *)
Theorem tick_record_accounts_for_trades st g :
  roster_wf st → tick_defined st →
  ∃ st' g' new,
    tick std_sort Gen make_order st g = Ok (st', g')
    ∧ trade_history st' = trade_history st ++ new
    ∧ Forall (λ t, Trade.timestep t = timestep st) new
    ∧ market_price st' = price_after (market_price st) new
    ∧ tick_history st'
      = tick_history st
        ++ [MarketTick.mk (price_after (market_price st) new)
              (volume_after 0 new)
              (if (0 <? volume_after 0 new)%float
               then (price_volume_after 0 new / volume_after 0 new)%float
               else price_after (market_price st) new)
              ((get_best_bid st' + get_best_ask st') / 2)%float
              (timestep st + 1)].
Proof.
  intros Hwf Hdef.
  set (st0 := reset_tick_volumes (clear_market_maker_orders st)).
  assert (Hc0 : book_clean st0) by apply (clear_market_maker_orders_clean st).
  assert (Hf0 : frame st0 = frame st) by done.
  destruct (quote_all_accounted (market_makers st) st0 Hc0)
    as (st1 & new1 & Hquote & Hacc1 & Hc1 & Hf1 & Hnew1).
  assert (Hts1 : timestep st1 = timestep st) by exact (proj1 (frame_clock _ _ Hf1)).
  destruct (trade_all_accounted (traders st1) st1 g Hc1)
    as (st2 & g' & new2 & Htrade & Hacc2 & Hc2 & Hf2 & Hnew2).
  destruct (tick_phases std_sort std_sort_perm Gen make_order st g st1 st2 g'
              Hwf Hdef Hquote)
    as (st' & Htick & Hth & Hb & Hs & Hmp & Htv & Hpv & Hts & Htk).
  { by rewrite Hf1. } { done. } { by rewrite Hf2, Hf1. }
  destruct (accounted_trans st0 st1 st2 new1 new2 Hacc1 Hacc2)
    as (Hth2 & Hv2 & Hpv2 & Hp2).
  exists st', g', (new1 ++ new2).
  split; [done|]. split; [by rewrite Hth, Hth2|].
  split; [apply Forall_app; split; [done | by rewrite <-Hts1]|].
  split; [by rewrite Hmp, Hp2|].
  rewrite Htk. f_equal. f_equal. unfold tick_snapshot.
  rewrite Hmp, Htv, Hpv, Hts, Hp2, Hv2, Hpv2. done.
Qed.

End TickTotals.

Lemma tick_record_accounts_for_trades_witness :
  ∃ st' g' new,
    tick insertion_sort nat demo_make_order (evolve_market 9) 0%nat = Ok (st', g')
    ∧ trade_history st' = trade_history (evolve_market 9) ++ new
    ∧ Forall (λ t, Trade.timestep t = timestep (evolve_market 9)) new
    ∧ market_price st' = price_after (market_price (evolve_market 9)) new
    ∧ tick_history st'
      = tick_history (evolve_market 9)
        ++ [MarketTick.mk (price_after (market_price (evolve_market 9)) new)
              (volume_after 0 new)
              (if (0 <? volume_after 0 new)%float
               then (price_volume_after 0 new / volume_after 0 new)%float
               else price_after (market_price (evolve_market 9)) new)
              ((get_best_bid st' + get_best_ask st') / 2)%float
              (timestep (evolve_market 9) + 1)].
Proof.
  exact (tick_record_accounts_for_trades insertion_sort insertion_sort_perm nat
           demo_make_order (evolve_market 9) 0%nat (evolve_market_wf 9)
           evolve_market_tick_defined).
Defined.

(** The tick of the five-trader market at clock 9 made one trade at 101
    and one at 102, of one unit each. *)
Example evolve_market_tick_record :
  (λ r, (λ k, (MarketTick.last_price k, MarketTick.volume k, MarketTick.vwap k,
               MarketTick.timestep k)) <$> last (tick_history r.1))
    <$> (match tick insertion_sort nat demo_make_order (evolve_market 9) 0%nat with
         | Ok r => Some r | _ => None end)
  = Some (Some (102%float, 2%float, 101.5%float, 10)).
Proof. vm_compute. reflexivity. Qed.

(** ** Strategies *)

Lemma strategy_of_clone top id : strategy_of (clone top id) = strategy_of top.
Proof. unfold clone, strategy_of, Trader.get_sizer. by destruct (Trader.class top). Qed.

Lemma strategies_from_refl h : strategies_from h h.
Proof. apply Forall_forall. intros tr Htr. by exists tr. Qed.

Lemma strategies_from_trans h1 h2 h3 :
  strategies_from h1 h2 → strategies_from h2 h3 → strategies_from h1 h3.
Proof.
  intros H12 H23. apply Forall_forall. intros tr3 Htr3.
  destruct (proj1 (Forall_forall _ _) H23 tr3 Htr3) as (tr2 & Htr2 & Heq2).
  destruct (proj1 (Forall_forall _ _) H12 tr2 Htr2) as (tr1 & Htr1 & Heq1).
  exists tr1. split; [done|]. by rewrite Heq2.
Qed.

(** Matching writes ledgers only. *)
Lemma strategies_from_frame st st' :
  frame st' = frame st → strategies_from (heap st) (heap st').
Proof.
  intros Hf. apply Forall_forall. intros tr' Htr'.
  apply list_elem_of_lookup in Htr' as [i Hi].
  assert (Hids : identity_of <$> heap st' = identity_of <$> heap st)
    by (frame_eqs Hf; done).
  assert (Hlook : (identity_of <$> heap st) !! i = Some (identity_of tr')).
  { by rewrite <-Hids, list_lookup_fmap, Hi. }
  rewrite list_lookup_fmap in Hlook.
  destruct (heap st !! i) as [tr|] eqn:Htr; [|done].
  exists tr. split; [by eapply list_elem_of_lookup_2|].
  simpl in Hlook. unfold identity_of in Hlook. injection Hlook as _ Hs Hc.
  unfold strategy_of. by rewrite Hs, Hc.
Qed.

(** The store after the replacements: one clone of [top] more for each
    marked id. *)
Lemma fold_replace_heap top to_kill st :
  (top < length (heap st))%nat →
  heap (foldl (replace_trader top) st to_kill)
  = heap st ++ (clone (heap st !!! top) <$> to_kill).
Proof.
  revert st. induction to_kill as [|id rest IH]; intros st Htop; simpl.
  { by rewrite app_nil_r. }
  rewrite IH.
  - unfold replace_trader at 1 2. simpl.
    rewrite (lookup_total_app_l _ _ _ Htop). by rewrite <-app_assoc.
  - unfold replace_trader. simpl. rewrite length_app. lia.
Qed.

Section StrategyProofs.
Variable std_sort : (ptr → ptr → bool) → list ptr → list ptr.
Hypothesis std_sort_perm : ∀ comp l, std_sort comp l ≡ₚ l.
Variable Gen : Type.
Variable make_order :
  Trader.t → double → double → double → list MarketTick.t → Z → Gen → Order.t * Gen.

Lemma evolve_traders_strategies st st' :
  roster_wf st → evolve_traders std_sort st = Ok st' →
  strategies_from (heap st) (heap st').
Proof.
  intros (Hvalid & _) Hev. unfold evolve_traders in Hev.
  destruct (evolution_ticks st =? 0); [done|].
  destruct (negb _); [injection Hev as <-; apply strategies_from_refl|].
  destruct (round_to_int _) as [kill_count|]; [|done].
  fold (ranking std_sort st) in Hev.
  destruct (ranking std_sort st) as [|top rest] eqn:Hrank; [done|].
  injection Hev as <-.
  assert (Htop : (top < length (heap st))%nat).
  { apply (proj1 (Forall_forall _ _) Hvalid top).
    assert (Hperm : ranking std_sort st ≡ₚ traders st) by apply std_sort_perm.
    rewrite <-Hperm, Hrank. by left. }
  rewrite (fold_replace_heap top _ st Htop).
  apply Forall_app. split; [apply strategies_from_refl|].
  apply Forall_fmap, Forall_forall. intros id _. simpl.
  exists (heap st !!! top). split; [by apply list_elem_of_lookup_total_2|].
  apply strategy_of_clone.
Qed.

Lemma tick_strategies st g st' g' :
  roster_wf st →
  tick std_sort Gen make_order st g = Ok (st', g') →
  strategies_from (heap st) (heap st').
Proof.
  intros Hwf Htick. unfold tick in Htick.
  set (st0 := reset_tick_volumes (clear_market_maker_orders st)) in *.
  assert (Hc0 : book_clean st0) by apply (clear_market_maker_orders_clean st).
  destruct (quote_all_spec (market_makers st0) st0 Hc0) as (st1 & Hq & Hc1 & Hf1).
  rewrite Hq in Htick. simpl in Htick.
  destruct (trade_all_spec Gen make_order (traders st1) st1 g Hc1)
    as (st2 & g2 & Ht & Hc2 & Hf2).
  rewrite Ht in Htick. simpl in Htick.
  assert (Hf : frame st2 = frame st) by (by rewrite Hf2, Hf1).
  set (st2' := set_timestep st2 (timestep st2 + 1)) in *.
  assert (Hwf2' : roster_wf st2') by (by apply (frame_roster st st2 Hf)).
  destruct (if evolve st2 then evolve_traders std_sort st2' else Ok st2')
    as [st3| |] eqn:Hev; [|done..].
  simpl in Htick. destruct (write_every st3 =? 0); [done|].
  injection Htick as <- <-. simpl.
  apply (strategies_from_trans _ (heap st2)); [by apply strategies_from_frame|].
  destruct (evolve st2).
  - by apply (evolve_traders_strategies st2').
  - injection Hev as <-. apply strategies_from_refl.
Qed.

Lemma run_ticks_strategies n st g :
  roster_wf st → run_defined st →
  ∃ st' g',
    run_ticks std_sort Gen make_order n st g = Ok (st', g')
    ∧ roster_wf st' ∧ strategies_from (heap st) (heap st').
Proof.
  revert st g. induction n as [|n IH]; intros st g Hwf Hrun.
  { exists st, g. split; [done|]. split; [done|apply strategies_from_refl]. }
  cbn [run_ticks].
  destruct (tick_spec std_sort std_sort_perm Gen make_order st g Hwf
              (run_defined_tick_defined st Hrun))
    as (st1 & g1 & Htick & Hcfg & Hwf1 & _ & Hlen1 & _).
  rewrite Htick. simpl.
  destruct (IH st1 g1 Hwf1 (run_defined_config st st1 Hcfg Hlen1 Hrun))
    as (st' & g' & -> & Hwf' & Hs').
  exists st', g'. split; [done|]. split; [done|].
  apply (strategies_from_trans _ (heap st1)); [|done].
  by apply (tick_strategies st g st1 g1).
Qed.

(** X15. Evolution selects and never invents. In a run of any number of
    ticks on a well-formed roster that is defined at every tick, every
    trader object there is afterwards, and so every trader of the roster,
    has the class, the class parameters (noise weight or windows) and the
    sizer of some trader object there was at the start: the ledgers change
    and the population shifts between the strategies present, but no new
    strategy ever appears. *)
Theorem evolution_never_invents_strategies n st g :
  roster_wf st → run_defined st →
  ∃ st' g',
    run_ticks std_sort Gen make_order n st g = Ok (st', g')
    ∧ strategies_from (heap st) (heap st')
    ∧ Forall (λ p, ∃ tr, tr ∈ heap st
                         ∧ strategy_of (heap st' !!! p) = strategy_of tr)
        (traders st').
Proof.
  intros Hwf Hrun.
  destruct (run_ticks_strategies n st g Hwf Hrun)
    as (st' & g' & Hres & (Hvalid & _) & Hs).
  exists st', g'. split; [done|]. split; [done|].
  eapply Forall_impl; [exact Hvalid|]. simpl. intros p Hp.
  apply (proj1 (Forall_forall _ _) Hs). by apply list_elem_of_lookup_total_2.
Qed.

End StrategyProofs.

Lemma evolve_market_run_defined : run_defined (evolve_market 9).
Proof.
  split; [done|]. intros _. split; [done|]. split; [done|].
  by vm_compute; eauto.
Qed.

Lemma evolution_never_invents_strategies_witness :
  ∃ st' g',
    run_ticks insertion_sort nat demo_make_order 2 (evolve_market 9) 0%nat
      = Ok (st', g')
    ∧ strategies_from (heap (evolve_market 9)) (heap st')
    ∧ Forall (λ p, ∃ tr, tr ∈ heap (evolve_market 9)
                         ∧ strategy_of (heap st' !!! p) = strategy_of tr)
        (traders st').
Proof.
  exact (evolution_never_invents_strategies insertion_sort insertion_sort_perm nat
           demo_make_order 2 (evolve_market 9) 0%nat (evolve_market_wf 9)
           evolve_market_run_defined).
Defined.

Section ConfiguredStrategies.
Variable Gen : Type.
Variable uniform_int : Z → Z → Gen → Z * Gen.
Variable std_shuffle : list ptr → Gen → list ptr * Gen.
Hypothesis std_shuffle_perm : ∀ l g, (std_shuffle l g).1 ≡ₚ l.
Variable std_sort : (ptr → ptr → bool) → list ptr → list ptr.
Hypothesis std_sort_perm : ∀ comp l, std_sort comp l ≡ₚ l.
Variable make_order :
  Trader.t → double → double → double → list MarketTick.t → Z → Gen → Order.t * Gen.

(** X16. In a simulation every trader trades as configured, at every
    tick: after constructing the market and ticking it [n] times, every
    trader object sizes its bets with [Fractional(0.01, 1.0)] (the Kelly
    sizer is never used), has its short window no longer than its long
    window, and, if it is a Monkey, has the configured noise weight. *)
Theorem simulation_strategies_as_configured n state total_trade_volume
    total_price_volume g :
  constructible state → runnable state →
  ∃ st g',
    simulate Gen uniform_int std_shuffle std_sort make_order n state
      total_trade_volume total_price_volume g = Ok (st, g')
    ∧ Forall (λ tr, Trader.betsizer tr = default_sizer
                    ∧ windows_ordered tr
                    ∧ ∀ w, Trader.class tr = MonkeyTrader w →
                           w = MonkeyInit.noise_weight (InitialMarketState.monkeys state))
        (heap st).
Proof.
  intros Hok [Hwe Hev]. unfold simulate.
  destruct (new_Market_spec Gen uniform_int std_shuffle std_shuffle_perm state
              total_trade_volume total_price_volume g Hok)
    as (st0 & g0 & -> & Hb & Hperm & _ & Hwin & _ & _ & Hcfg & Hnw).
  simpl.
  destruct (built_roster_wf st0 (population state) Hb Hperm) as (Hwf & _ & _).
  injection Hcfg as _ Het Hevo Hkp Hw _.
  assert (Hlen : length (traders st0) = Z.to_nat (population state)).
  { rewrite Hperm, length_seq. destruct Hb as (-> & _). simpl. lia. }
  assert (Hrun : run_defined st0).
  { unfold run_defined. rewrite Hw, Hevo, Het, Hkp, Hlen. split; [done|].
    intros Hon. destruct (Hev Hon) as (? & Hpos & ?). split; [done|]. split; [|done].
    intros Hnil. rewrite Hnil in Hlen. simpl in Hlen. lia. }
  destruct (run_ticks_strategies std_sort std_sort_perm Gen make_order n st0 g0 Hwf Hrun)
    as (st & g' & Hres & _ & Hs).
  exists st, g'. split; [done|].
  destruct Hb as (_ & _ & _ & _ & Hledger). simpl in Hledger.
  eapply Forall_impl; [exact Hs|]. simpl.
  intros tr' (tr & Htr & Heq). unfold strategy_of in Heq. injection Heq as Hsz Hcl.
  destruct (proj1 (Forall_forall _ _) Hledger tr Htr) as (_ & _ & Hdef).
  pose proof (proj1 (Forall_forall _ _) Hwin tr Htr) as Hwo.
  pose proof (proj1 (Forall_forall _ _) Hnw tr Htr) as Hmw.
  split; [by rewrite Hsz|]. split.
  - unfold windows_ordered in *. by rewrite Hcl.
  - intros w Hcw. apply Hmw. by rewrite <-Hcl.
Qed.

End ConfiguredStrategies.

Lemma simulation_strategies_as_configured_witness :
  ∃ st g',
    simulate nat demo_uniform_int demo_shuffle insertion_sort demo_make_order 3
      demo_state 0 0 0%nat = Ok (st, g')
    ∧ Forall (λ tr, Trader.betsizer tr = default_sizer
                    ∧ windows_ordered tr
                    ∧ ∀ w, Trader.class tr = MonkeyTrader w →
                           w = MonkeyInit.noise_weight
                                 (InitialMarketState.monkeys demo_state))
        (heap st).
Proof.
  exact (simulation_strategies_as_configured nat demo_uniform_int demo_shuffle
           demo_shuffle_perm insertion_sort insertion_sort_perm demo_make_order 3
           demo_state 0 0 0%nat demo_state_constructible demo_state_runnable).
Defined.

(** ** The census *)

Lemma count_type_cons h T p roster :
  count_type h T (p :: roster)
  = (if decide (Trader.get_type (h !!! p) = T) then 1 else 0) + count_type h T roster.
Proof.
  unfold count_type. rewrite filter_cons.
  destruct (decide (Trader.get_type (h !!! p) = T)); simpl length; lia.
Qed.

Lemma count_type_bounds h T roster :
  0 ≤ count_type h T roster ≤ Z.of_nat (length roster).
Proof.
  unfold count_type. pose proof (length_filter (λ p, Trader.get_type (h !!! p) = T) roster).
  lia.
Qed.

Lemma count_traders_spec h roster counts :
  TraderCount.monkeys counts + Z.of_nat (length roster) ≤ INT_MAX →
  TraderCount.momentumtraders counts + Z.of_nat (length roster) ≤ INT_MAX →
  TraderCount.meanreverters counts + Z.of_nat (length roster) ≤ INT_MAX →
  ∃ c, count_traders h roster counts = Ok c
    ∧ TraderCount.timestep c = TraderCount.timestep counts
    ∧ TraderCount.marketmakers c = TraderCount.marketmakers counts
    ∧ TraderCount.monkeys c = TraderCount.monkeys counts + count_type h Monkey_t roster
    ∧ TraderCount.momentumtraders c
      = TraderCount.momentumtraders counts + count_type h MomentumTrader_t roster
    ∧ TraderCount.meanreverters c
      = TraderCount.meanreverters counts + count_type h MeanReverter_t roster.
Proof.
  revert counts. induction roster as [|p rest IH]; intros counts Hm Ho Hr.
  { exists counts. unfold count_type. simpl. split; [done|]. split; [done|].
    split; [done|]. split; [lia|]. split; lia. }
  cbn [count_traders]. rewrite !count_type_cons.
  simpl length in *. unfold count_trader, increment, Trader.get_type.
  destruct (Trader.class (h !!! p)); simpl.
  - rewrite (proj2 (Z.leb_gt _ _)) by lia. simpl.
    destruct (IH (TraderCount.mk (TraderCount.timestep counts)
                    (TraderCount.monkeys counts + 1) (TraderCount.marketmakers counts)
                    (TraderCount.momentumtraders counts)
                    (TraderCount.meanreverters counts)))
      as (c & -> & Hts & Hmm & Hcm & Hco & Hcr); simpl; [lia..|].
    exists c. split; [done|]. split; [done|]. split; [done|].
    simpl in *. rewrite Hcm, Hco, Hcr. split; [lia|]. split; lia.
  - rewrite (proj2 (Z.leb_gt _ _)) by lia. simpl.
    destruct (IH (TraderCount.mk (TraderCount.timestep counts)
                    (TraderCount.monkeys counts) (TraderCount.marketmakers counts)
                    (TraderCount.momentumtraders counts)
                    (TraderCount.meanreverters counts + 1)))
      as (c & -> & Hts & Hmm & Hcm & Hco & Hcr); simpl; [lia..|].
    exists c. split; [done|]. split; [done|]. split; [done|].
    simpl in *. rewrite Hcm, Hco, Hcr. split; [lia|]. split; lia.
  - rewrite (proj2 (Z.leb_gt _ _)) by lia. simpl.
    destruct (IH (TraderCount.mk (TraderCount.timestep counts)
                    (TraderCount.monkeys counts) (TraderCount.marketmakers counts)
                    (TraderCount.momentumtraders counts + 1)
                    (TraderCount.meanreverters counts)))
      as (c & -> & Hts & Hmm & Hcm & Hco & Hcr); simpl; [lia..|].
    exists c. split; [done|]. split; [done|]. split; [done|].
    simpl in *. rewrite Hcm, Hco, Hcr. split; [lia|]. split; lia.
Qed.

Lemma count_type_total h roster :
  count_type h Monkey_t roster + count_type h MomentumTrader_t roster
  + count_type h MeanReverter_t roster = Z.of_nat (length roster).
Proof.
  induction roster as [|p rest IH]; [done|].
  rewrite !count_type_cons. simpl length. unfold Trader.get_type.
  destruct (Trader.class (h !!! p)); simpl; lia.
Qed.

(** X17. The census counts every trader of the roster once, in the column
    of its type: for a roster of at most [INT_MAX] traders
    [update_trader_counts] returns, the three trader columns hold the
    numbers of Monkeys, MomentumTraders and MeanReverters of the roster and
    add up to its length, and the market-maker column is always 0. *)
Theorem census_counts_every_trader st :
  Z.of_nat (length (traders st)) ≤ INT_MAX →
  ∃ c, update_trader_counts st = Ok c
    ∧ TraderCount.timestep c = timestep st
    ∧ TraderCount.marketmakers c = 0
    ∧ TraderCount.monkeys c = count_type (heap st) Monkey_t (traders st)
    ∧ TraderCount.momentumtraders c
      = count_type (heap st) MomentumTrader_t (traders st)
    ∧ TraderCount.meanreverters c = count_type (heap st) MeanReverter_t (traders st)
    ∧ TraderCount.monkeys c + TraderCount.momentumtraders c
      + TraderCount.meanreverters c = Z.of_nat (length (traders st)).
Proof.
  intros Hlen. unfold update_trader_counts.
  destruct (count_traders_spec (heap st) (traders st)
              (TraderCount.mk (timestep st) 0 0 0 0))
    as (c & -> & Hts & Hmm & Hcm & Hco & Hcr); simpl; [lia..|].
  exists c. simpl in *. do 3 (split; [done|]).
  rewrite Hcm, Hco, Hcr. do 3 (split; [done|]).
  apply count_type_total.
Qed.

Lemma census_counts_every_trader_witness :
  ∃ c, update_trader_counts (evolve_market 10) = Ok c
    ∧ TraderCount.timestep c = timestep (evolve_market 10)
    ∧ TraderCount.marketmakers c = 0
    ∧ TraderCount.monkeys c
      = count_type (heap (evolve_market 10)) Monkey_t (traders (evolve_market 10))
    ∧ TraderCount.momentumtraders c
      = count_type (heap (evolve_market 10)) MomentumTrader_t (traders (evolve_market 10))
    ∧ TraderCount.meanreverters c
      = count_type (heap (evolve_market 10)) MeanReverter_t (traders (evolve_market 10))
    ∧ TraderCount.monkeys c + TraderCount.momentumtraders c
      + TraderCount.meanreverters c = Z.of_nat (length (traders (evolve_market 10))).
Proof.
  apply (census_counts_every_trader (evolve_market 10)). by vm_compute.
Defined.

(** The census of the five-trader market before and after the evolution
    step at clock 10: two Monkeys, one MomentumTrader and two MeanReverters
    become three, one and one. *)
Example evolve_market_census :
  update_trader_counts (evolve_market 10) = Ok (TraderCount.mk 10 2 0 1 2)
  ∧ match evolve_traders insertion_sort (evolve_market 10) with
    | Ok st' => update_trader_counts st'
    | _ => Undefined
    end = Ok (TraderCount.mk 10 3 0 1 1).
Proof. split; by vm_compute. Qed.

(** ** The depth of the book *)

Lemma buy_step_depth order st rem r :
  buy_step order st rem = Ok r →
  buys r.1 = buys st
  ∧ (length (book_orders (sells r.1)) ≤ length (book_orders (sells st)))%nat.
Proof.
  intros Hstep%buy_step_Ok.
  destruct Hstep as [k so q rest Hs _ | k so q rest quantity Hs _ _ _]; simpl;
    rewrite Hs, (length_book_orders_pop_front k so q rest).
  - split; [done|lia].
  - split; [done|]. destruct (0 <? _)%float; [|lia].
    by rewrite length_book_orders_level_push.
Qed.

Lemma sell_step_depth order st rem r :
  sell_step order st rem = Ok r →
  sells r.1 = sells st
  ∧ (length (book_orders (buys r.1)) ≤ length (book_orders (buys st)))%nat.
Proof.
  intros Hstep%sell_step_Ok.
  destruct Hstep as [k bo q rest Hs _ | k bo q rest quantity Hs _ _ _]; simpl;
    rewrite Hs, (length_book_orders_pop_front k bo q rest).
  - split; [done|lia].
  - split; [done|]. destruct (0 <? _)%float; [|lia].
    by rewrite length_book_orders_level_push.
Qed.

(** A call takes orders off the opposite side only, and leaves at most
    one more order on its own side. *)
Lemma process_depth st order st' :
  process_aggressive_order st order = Ok st' →
  (String.eqb (Order.type order) BUY = true →
   (length (book_orders (sells st')) ≤ length (book_orders (sells st)))%nat
   ∧ (length (book_orders (buys st')) ≤ S (length (book_orders (buys st))))%nat)
  ∧ (String.eqb (Order.type order) BUY = false →
     (length (book_orders (buys st')) ≤ length (book_orders (buys st)))%nat
     ∧ (length (book_orders (sells st')) ≤ S (length (book_orders (sells st))))%nat).
Proof.
  unfold process_aggressive_order. intros Hp.
  destruct (String.eqb (Order.type order) BUY).
  - split; [intros _|done].
    destruct (buy_loop _ order st order) as [[st1 rem]| |] eqn:Hloop; [|done..].
    simpl in Hp. injection Hp as <-.
    assert (Hstep : ∀ s rem' r,
              buys s = buys st
              ∧ (length (book_orders (sells s)) ≤ length (book_orders (sells st)))%nat →
              buy_cond s rem' = true → buy_step order s rem' = Ok r →
              buys r.1 = buys st
              ∧ (length (book_orders (sells r.1)) ≤ length (book_orders (sells st)))%nat).
    { intros s rem' r [Hb Hl] _ [Hb' Hl']%buy_step_depth. split; [congruence|lia]. }
    destruct (buy_loop_invariant
                (λ s _, buys s = buys st
                        ∧ (length (book_orders (sells s))
                           ≤ length (book_orders (sells st)))%nat)
                order Hstep _ st order _ (conj eq_refl (le_n _)) Hloop)
      as [[Hb Hl] _].
    simpl in Hb, Hl.
    destruct (0 <? Order.position_size rem)%float; simpl.
    + rewrite length_book_orders_level_push, Hb. split; [done|lia].
    + rewrite Hb. split; [done|lia].
  - split; [done|intros _].
    destruct (String.eqb (Order.type order) SELL).
    2:{ injection Hp as <-. split; lia. }
    destruct (sell_loop _ order st order) as [[st1 rem]| |] eqn:Hloop; [|done..].
    simpl in Hp. injection Hp as <-.
    assert (Hstep : ∀ s rem' r,
              sells s = sells st
              ∧ (length (book_orders (buys s)) ≤ length (book_orders (buys st)))%nat →
              sell_cond s rem' = true → sell_step order s rem' = Ok r →
              sells r.1 = sells st
              ∧ (length (book_orders (buys r.1)) ≤ length (book_orders (buys st)))%nat).
    { intros s rem' r [Hb Hl] _ [Hb' Hl']%sell_step_depth. split; [congruence|lia]. }
    destruct (sell_loop_invariant
                (λ s _, sells s = sells st
                        ∧ (length (book_orders (buys s))
                           ≤ length (book_orders (buys st)))%nat)
                order Hstep _ st order _ (conj eq_refl (le_n _)) Hloop)
      as [[Hb Hl] _].
    simpl in Hb, Hl.
    destruct (0 <? Order.position_size rem)%float; simpl.
    + rewrite length_book_orders_level_push, Hb. split; [done|lia].
    + rewrite Hb. split; [done|lia].
Qed.

Lemma remove_mm_orders_depth m :
  (length (book_orders (remove_mm_orders m)) ≤ length (book_orders m))%nat.
Proof. rewrite book_orders_remove_mm. apply List.filter_length_le. Qed.

(** X18. The book grows by at most one order per submission. A call of
    [process_aggressive_order] with a BUY never adds to the ask side and
    leaves at most one order more on the bid side; with a SELL it is the
    other way round; the clearing of the market makers' orders adds
    nothing. So after any sequence of submissions and clearings on a book
    without empty levels, the number of resting orders is at most what it
    was plus the number of submissions. *)
Theorem book_grows_by_one_per_submission st ops :
  book_clean st →
  (∀ order st1, process_aggressive_order st order = Ok st1 →
     (String.eqb (Order.type order) BUY = true →
      (length (book_orders (sells st1)) ≤ length (book_orders (sells st)))%nat
      ∧ (length (book_orders (buys st1)) ≤ S (length (book_orders (buys st))))%nat)
     ∧ (String.eqb (Order.type order) BUY = false →
        (length (book_orders (buys st1)) ≤ length (book_orders (buys st)))%nat
        ∧ (length (book_orders (sells st1)) ≤ S (length (book_orders (sells st))))%nat))
  ∧ (depth (clear_market_maker_orders st) ≤ depth st)%nat
  ∧ ∃ st', run_ops ops st = Ok st'
      ∧ (depth st' ≤ depth st + submissions ops)%nat.
Proof.
  intros Hc. split; [apply process_depth|].
  split.
  { unfold depth, clear_market_maker_orders. simpl.
    pose proof (remove_mm_orders_depth (buys st)).
    pose proof (remove_mm_orders_depth (sells st)). lia. }
  revert st Hc. induction ops as [|[order|] rest IH]; intros st Hc.
  - exists st. split; [done|]. simpl. lia.
  - cbn [run_ops submissions].
    destruct (process_aggressive_order_spec st order Hc)
      as (st1 & new & [Hp _] & Hc1 & _).
    rewrite Hp. simpl.
    destruct (IH st1 Hc1) as (st' & -> & Hd).
    exists st'. split; [done|].
    destruct (process_depth st order st1 Hp) as [Hbuy Hsell].
    unfold depth in *.
    destruct (String.eqb (Order.type order) BUY).
    + destruct (Hbuy eq_refl). lia.
    + destruct (Hsell eq_refl). lia.
  - cbn [run_ops submissions].
    destruct (IH (clear_market_maker_orders st) (clear_market_maker_orders_clean st))
      as (st' & -> & Hd).
    exists st'. split; [done|].
    unfold depth, clear_market_maker_orders in *. simpl in *.
    pose proof (remove_mm_orders_depth (buys st)).
    pose proof (remove_mm_orders_depth (sells st)). lia.
Qed.

Lemma book_grows_by_one_per_submission_witness :
  (∀ order st1, process_aggressive_order (ask_market 3) order = Ok st1 →
     (String.eqb (Order.type order) BUY = true →
      (length (book_orders (sells st1)) ≤ length (book_orders (sells (ask_market 3))))%nat
      ∧ (length (book_orders (buys st1))
         ≤ S (length (book_orders (buys (ask_market 3)))))%nat)
     ∧ (String.eqb (Order.type order) BUY = false →
        (length (book_orders (buys st1)) ≤ length (book_orders (buys (ask_market 3))))%nat
        ∧ (length (book_orders (sells st1))
           ≤ S (length (book_orders (sells (ask_market 3)))))%nat))
  ∧ (depth (clear_market_maker_orders (ask_market 3)) ≤ depth (ask_market 3))%nat
  ∧ ∃ st', run_ops [Submit (bid_101 3); ClearMarketMakers; Submit own_ask] (ask_market 3)
             = Ok st'
      ∧ (depth st' ≤ depth (ask_market 3)
                     + submissions [Submit (bid_101 3); ClearMarketMakers; Submit own_ask])%nat.
Proof.
  exact (book_grows_by_one_per_submission (ask_market 3)
           [Submit (bid_101 3); ClearMarketMakers; Submit own_ask]
           (ask_market_clean 3)).
Defined.

(** ** Between evolution steps *)

Section FrozenPopulation.
Variable std_sort : (ptr → ptr → bool) → list ptr → list ptr.
Variable Gen : Type.
Variable make_order :
  Trader.t → double → double → double → list MarketTick.t → Z → Gen → Order.t * Gen.

(** X19. Between evolution steps the population is frozen. A defined tick
    at the end of which no evolution step is due (evolution is off, or the
    new clock is not a multiple of the period) returns with the very roster
    and id map it started with, allocates no trader, and leaves the id,
    class and sizer of every trader object as they were: such a tick writes
    ledgers only. *)
Theorem population_frozen_between_evolutions st g :
  tick_defined st →
  evolve st = false ∨ Z.rem (timestep st + 1) (evolution_ticks st) ≠ 0 →
  ∃ st' g',
    tick std_sort Gen make_order st g = Ok (st', g')
    ∧ traders st' = traders st
    ∧ trader_map st' = trader_map st
    ∧ market_makers st' = market_makers st
    ∧ identity_of <$> heap st' = identity_of <$> heap st.
Proof.
  intros [Hwe Hev] Hidle. unfold tick.
  set (st0 := reset_tick_volumes (clear_market_maker_orders st)).
  assert (Hc0 : book_clean st0) by apply (clear_market_maker_orders_clean st).
  destruct (quote_all_spec (market_makers st0) st0 Hc0) as (st1 & -> & Hc1 & Hf1).
  simpl.
  destruct (trade_all_spec Gen make_order (traders st1) st1 g Hc1)
    as (st2 & g' & -> & Hc2 & Hf2).
  simpl.
  assert (Hf : frame st2 = frame st) by (by rewrite Hf2, Hf1).
  assert (Hfields : evolve st2 = evolve st ∧ write_every st2 = write_every st
            ∧ timestep st2 = timestep st ∧ evolution_ticks st2 = evolution_ticks st
            ∧ traders st2 = traders st ∧ trader_map st2 = trader_map st
            ∧ market_makers st2 = market_makers st
            ∧ identity_of <$> heap st2 = identity_of <$> heap st).
  { frame_eqs Hf. done. }
  destruct Hfields as (Hev2 & Hwe2 & Hts2 & Het2 & Htr2 & Htm2 & Hmm2 & Hid2).
  set (st2' := set_timestep st2 (timestep st2 + 1)).
  assert (Hidle' : (if evolve st2 then evolve_traders std_sort st2' else Ok st2')
                   = Ok st2').
  { rewrite Hev2. destruct (evolve st) eqn:Hon; [|done].
    destruct Hidle as [|Hrem]; [done|].
    destruct (Hev eq_refl) as [Hperiod _]. simpl in Hperiod.
    unfold evolve_traders. simpl. rewrite Het2, Hts2.
    destruct (Z.eqb_spec (evolution_ticks st) 0) as [|_]; [done|].
    by destruct (Z.eqb_spec (Z.rem (timestep st + 1) (evolution_ticks st)) 0). }
  rewrite Hidle'. simpl. rewrite Hwe2.
  destruct (Z.eqb_spec (write_every st) 0) as [|_]; [done|].
  eexists _, _. split; [done|]. simpl. done.
Qed.

End FrozenPopulation.

Lemma evolve_market_7_tick_defined : tick_defined (evolve_market 7).
Proof.
  split; [done|]. intros _. split; [done|]. intros Hdue. by vm_compute in Hdue.
Qed.

Lemma population_frozen_between_evolutions_witness :
  ∃ st' g',
    tick insertion_sort nat demo_make_order (evolve_market 7) 0%nat = Ok (st', g')
    ∧ traders st' = traders (evolve_market 7)
    ∧ trader_map st' = trader_map (evolve_market 7)
    ∧ market_makers st' = market_makers (evolve_market 7)
    ∧ identity_of <$> heap st' = identity_of <$> heap (evolve_market 7).
Proof.
  apply (population_frozen_between_evolutions insertion_sort nat demo_make_order
           (evolve_market 7) 0%nat evolve_market_7_tick_defined).
  right. by vm_compute.
Defined.
